(** * own-discord-exporter: a shallow embedding of [main.ts]

    The exporter walks a Discord channel backwards in pages of 100
    messages, keeps the messages whose creation instant lies in the
    configured window, maps them to plain JSON records and merges them
    into one JSON array file per local calendar day.

    [src/main.ts] holds two revisions of the program; the embedding is
    of the later one, which writes one JSON array per partition
    ([writeJson]) under the sanitized channel name and the local date.

    The development follows the source top-down: JavaScript strings and
    values, the [Date] arithmetic used by [localDate] and
    [toISOString], the helpers ([isThread], [sanitizeChannelName]), the
    record mapper [toRecord], the file layer ([writeJson],
    [writeMessages]) and the traversal ([backfill]).  Functions of the
    JavaScript runtime that the source calls but does not define
    ([JSON.parse], [JSON.stringify], [String.prototype.toLowerCase],
    [path.join], [path.dirname], the local time-zone offset) are fields
    of the [Runtime] interface; [Reference.runtime] implements them so
    that the model can be run on concrete inputs. *)

From Stdlib Require Import ZArith Lia Ascii DecimalString DecimalZ DecimalPos.
From stdpp Require Import gmap strings list fin_maps sorting.

Local Open Scope Z_scope.

(* ===================================================================== *)
(** ** JavaScript strings and values *)
(* ===================================================================== *)

(** A JavaScript string is a sequence of UTF-16 code units. *)
Abbreviation jsstring := (list N).

(** String literals of the source, written in ASCII. *)
Definition js (s : string) : jsstring :=
  (λ a, N_of_ascii a) <$> String.list_ascii_of_string s.

(** [String(n)] for an integer [n]: decimal digits, with a leading minus
    sign for negative numbers. *)
Definition String_of_int (n : Z) : jsstring :=
  js (NilZero.string_of_int (Z.to_int n)).

(** [s.padStart(targetLength, padString)]. *)
Definition padStart (targetLength : nat) (padString s : jsstring) : jsstring :=
  let fillLen := (targetLength - length s)%nat in
  take fillLen (mjoin (replicate fillLen padString)) ++ s.

(** The values the program stores in files and reads back: what
    [JSON.parse] can return and what the object literal of [toRecord]
    builds.  A number is an exact decimal [m * 10^e]; every number the
    exporter produces itself is an integer ([e = 0]).  An object is its
    list of own properties in insertion order. *)
#[warnings="-register-all"]
Inductive JSValue : Type :=
  | JNull
  | JBool (b : bool)
  | JNum (m e : Z)
  | JStr (s : jsstring)
  | JArr (elems : list JSValue)
  | JObj (props : list (jsstring * JSValue)).

Definition JInt (n : Z) : JSValue := JNum n 0.

(** [x ?? null] and [x && {...}] for a nullable [x]. *)
Definition nullable {A} (f : A → JSValue) (x : option A) : JSValue :=
  match x with Some a => f a | None => JNull end.

(** Property access [o.k] on an object value. *)
Fixpoint assoc (k : jsstring) (props : list (jsstring * JSValue)) : option JSValue :=
  match props with
  | [] => None
  | (k', v) :: rest => if decide (k' = k) then Some v else assoc k rest
  end.

Definition get (k : jsstring) (o : JSValue) : option JSValue :=
  match o with JObj props => assoc k props | _ => None end.

(* ===================================================================== *)
(** ** Dates *)
(* ===================================================================== *)

(** A [Date] wraps a time value: milliseconds since the Unix epoch.
    Every time value the exporter meets is an integer: creation instants
    are decoded from message ids, the window bounds passed [parseDate]
    and so are not NaN. *)
Record Date := new_Date { getTime : Z }.

Definition msPerDay : Z := 86400000.

(** Day number and time within the day (ECMAScript [Day], [TimeWithinDay]). *)
Definition Day (t : Z) : Z := t `div` msPerDay.
Definition TimeWithinDay (t : Z) : Z := t `mod` msPerDay.

(** Proleptic Gregorian calendar date of a day number, as
    (year, month 1..12, day of month 1..31). *)
Definition civil_from_days (days : Z) : Z * Z * Z :=
  let z := days + 719468 in
  let era := z `div` 146097 in
  let doe := z - era * 146097 in
  let yoe := (doe - doe `div` 1460 + doe `div` 36524 - doe `div` 146096) `div` 365 in
  let doy := doe - (365 * yoe + yoe `div` 4 - yoe `div` 100) in
  let mp := (5 * doy + 2) `div` 153 in
  let d := doy - (153 * mp + 2) `div` 5 + 1 in
  let m := if decide (mp < 10) then mp + 3 else mp - 9 in
  let y := yoe + era * 400 + (if decide (m ≤ 2) then 1 else 0) in
  (y, m, d).

Definition YearFromTime (t : Z) : Z := (civil_from_days (Day t)).1.1.
(** Months are numbered from 0, as [getMonth] returns them. *)
Definition MonthFromTime (t : Z) : Z := (civil_from_days (Day t)).1.2 - 1.
Definition DateFromTime (t : Z) : Z := (civil_from_days (Day t)).2.

Definition pad (width : nat) (n : Z) : jsstring :=
  padStart width (js "0") (String_of_int n).

(** [d.toISOString()]: always UTC, [YYYY-MM-DDTHH:mm:ss.sssZ], with the
    expanded six-digit signed year outside 0..9999. *)
Definition toISOString (d : Date) : jsstring :=
  let t := getTime d in
  let y := YearFromTime t in
  let tod := TimeWithinDay t in
  let year :=
    if decide (0 ≤ y ≤ 9999) then pad 4 y
    else (if decide (y < 0) then js "-" else js "+") ++ pad 6 (Z.abs y) in
  year ++ js "-" ++ pad 2 (MonthFromTime t + 1) ++ js "-" ++ pad 2 (DateFromTime t)
    ++ js "T" ++ pad 2 (tod `div` 3600000) ++ js ":" ++ pad 2 ((tod `div` 60000) `mod` 60)
    ++ js ":" ++ pad 2 ((tod `div` 1000) `mod` 60) ++ js "." ++ pad 3 (tod `mod` 1000)
    ++ js "Z".

(* ===================================================================== *)
(** ** The runtime interface *)
(* ===================================================================== *)

(** Library functions the source calls.  The theorems below hold for
    every implementation; hypotheses about one of them are stated where
    they are used. *)
Class Runtime := {
  (** [JSON.parse(text)]; [None] when it throws a [SyntaxError]. *)
  JSON_parse : jsstring → option JSValue;
  (** [JSON.stringify(value, null, indent)]. *)
  JSON_stringify : JSValue → nat → jsstring;
  (** [s.toLowerCase()]. *)
  toLowerCase : jsstring → jsstring;
  (** Offset of local time from UTC, in milliseconds, at a UTC instant. *)
  LocalTZA : Z → Z;
  (** [path.join(...segments)] and [path.dirname(p)]. *)
  join : list jsstring → jsstring;
  dirname : jsstring → jsstring;
}.

(* ===================================================================== *)
(** ** Types & Config *)
(* ===================================================================== *)

(** Snowflake ids are strings in discord.js. *)
Abbreviation Snowflake := (list N) (only parsing).

Record Config := {
  cfg_token : jsstring;
  cfg_channel : jsstring;
  cfg_outDir : jsstring;
  cfg_start : Date;
  cfg_end : Date;
  cfg_redactContent : bool;
}.

(** discord.js [ChannelType]. *)
Inductive ChannelType :=
  | GuildText | DM | GuildVoice | GroupDM | GuildCategory | GuildAnnouncement
  | AnnouncementThread | PublicThread | PrivateThread
  | GuildStageVoice | GuildDirectory | GuildForum | GuildMedia.

Global Instance ChannelType_eq_dec : EqDecision ChannelType.
Proof. solve_decision. Defined.

(** The fields of a discord.js [Message] that the exporter reads.
    Collections are kept as lists in iteration order. *)
Record User := {
  user_id : Snowflake;
  user_username : jsstring;
  user_discriminator : jsstring;
  user_globalName : option jsstring;
  user_bot : bool;
}.

Record Channel := { chan_type : ChannelType }.

Record MessageReference := {
  ref_messageId : option Snowflake;
  ref_channelId : option Snowflake;
  ref_guildId : option Snowflake;
}.

Record Attachment := {
  att_id : Snowflake;
  att_url : jsstring;
  att_proxyURL : jsstring;
  att_name : jsstring;
  att_size : Z;
  att_contentType : option jsstring;
  att_height : option Z;
  att_width : option Z;
}.

(** An embed is used only through [toJSON()]. *)
Record Embed := { embed_toJSON : JSValue }.

(** A reaction; the emoji is used only through [toString()]. *)
Record MessageReaction := {
  reaction_emoji_toString : jsstring;
  reaction_count : Z;
  reaction_me : bool;
}.

Record MessageMentions := {
  mentions_users : list User;
  mentions_roles : list Snowflake;
  mentions_channels : list Snowflake;
  mentions_everyone : bool;
}.

Record Message := {
  msg_id : Snowflake;
  msg_channelId : Snowflake;
  msg_guildId : option Snowflake;
  msg_channel : Channel;
  msg_createdTimestamp : Z;
  msg_editedTimestamp : option Z;
  (** guarded by [author && ...] in the source, so nullable here *)
  msg_author : option User;
  (** [content: string] in discord.js; read without a guard *)
  msg_content : jsstring;
  msg_type : Z;
  msg_tts : bool;
  msg_pinned : bool;
  (** [flags?.bitfield] *)
  msg_flags : option Z;
  msg_reference : option MessageReference;
  msg_mentions : MessageMentions;
  msg_attachments : list Attachment;
  msg_embeds : list Embed;
  msg_reactions : list MessageReaction;
}.

(* ===================================================================== *)
(** ** Effects: the file system, errors and the trace *)
(* ===================================================================== *)

(** A regular file: its text and whether reading it succeeds. *)
Record File := { file_text : jsstring; file_readable : bool }.

(** What the run observes, in order: page fetches and calls of
    [writeJson].  The trace is ghost state; no result depends on it. *)
Inductive Event :=
  | EvFetch (limit : nat) (before : option Snowflake) (page : list Message)
  | EvWriteJson (path : jsstring) (records : list JSValue).

(** The file system under the output directory and the trace.  Creating
    directories and writing files is assumed to succeed. *)
Record World := {
  files : gmap jsstring File;
  dirs : gset jsstring;
  trace : list Event;
}.

Inductive Error :=
  | TypeError_not_iterable.

(** An [async] function either returns, rejects with an error, or (for
    the traversal loop only) is still running when the iteration budget
    is used up. *)
Inductive Outcome (A : Type) :=
  | Returned (a : A) (w : World)
  | Thrown (e : Error) (w : World)
  | Running (w : World).
Arguments Returned {A} a w.
Arguments Thrown {A} e w.
Arguments Running {A} w.

Definition world_of {A} (o : Outcome A) : World :=
  match o with Returned _ w | Thrown _ w | Running w => w end.

Definition M (A : Type) : Type := World → Outcome A.

Definition ret {A} (a : A) : M A := λ w, Returned a w.
Definition throw {A} (e : Error) : M A := λ w, Thrown e w.
Definition bind {A B} (m : M A) (k : A → M B) : M B :=
  λ w, match m w with
       | Returned a w' => k a w'
       | Thrown e w' => Thrown e w'
       | Running w' => Running w'
       end.

Notation "'do' x <- m ; k" := (bind m (λ x, k))
  (at level 10, x name, m at level 100, k at level 200).
Notation "m ;; k" := (bind m (λ _, k))
  (at level 100, k at level 200, right associativity).

Definition emit (e : Event) : M unit :=
  λ w, Returned () {| files := files w; dirs := dirs w; trace := trace w ++ [e] |}.

(** [for (const x of xs) await body(x)]. *)
Fixpoint for_of {A} (xs : list A) (body : A → M unit) : M unit :=
  match xs with
  | [] => ret ()
  | x :: rest => body x ;; for_of rest body
  end.


(* ===================================================================== *)
(** ** Helpers *)
(* ===================================================================== *)

(** [xs.includes(x)]. *)
Definition includes {A} `{EqDecision A} (xs : list A) (x : A) : bool :=
  bool_decide (x ∈ xs).

Definition isThread (ch : Channel) : bool :=
  includes [PublicThread; PrivateThread; AnnouncementThread] (chan_type ch).

(** The characters of the class in the first [replace]:
    less-than, greater-than, colon, double quote, slash, backslash,
    vertical bar, question mark, asterisk. *)
Definition forbidden_chars : jsstring := [60; 62; 58; 34; 47; 92; 124; 63; 42]%N.

Definition is_forbidden (c : N) : bool := bool_decide (c ∈ forbidden_chars).

(** The class [\s] of a JavaScript regular expression: tab, line feed,
    vertical tab, form feed, carriage return, space, no-break space,
    U+1680, U+2000..U+200A, U+2028, U+2029, U+202F, U+205F, U+3000 and
    the byte-order mark U+FEFF. *)
Definition is_whitespace (c : N) : bool :=
  bool_decide (c ∈ [9; 10; 11; 12; 13; 32; 160; 5760; 8232; 8233; 8239; 8287;
                    12288; 65279]%N)
  || bool_decide (8192 ≤ c ≤ 8202)%N.

Definition dash : N := 45.
Definition dot : N := 46.

(** First [replace], global over the forbidden class: every forbidden
    character becomes a dash. *)
Definition replace_forbidden (s : jsstring) : jsstring :=
  (λ c, if is_forbidden c then dash else c) <$> s.

(** Second [replace], global over [\s+]: every maximal run of whitespace becomes one
    dash; the dash is emitted at the last character of the run. *)
Fixpoint replace_whitespace_runs (s : jsstring) : jsstring :=
  match s with
  | [] => []
  | c :: rest =>
      if is_whitespace c then
        match rest with
        | c' :: _ =>
            if is_whitespace c' then replace_whitespace_runs rest
            else dash :: replace_whitespace_runs rest
        | [] => [dash]
        end
      else c :: replace_whitespace_runs rest
  end.

(** Third [replace], of [^\.+] by the empty string: the leading dots are
    removed. *)
Fixpoint strip_leading_dots (s : jsstring) : jsstring :=
  match s with
  | c :: rest => if decide (c = dot) then strip_leading_dots rest else s
  | [] => []
  end.

Section WithRuntime.
Context {rt : Runtime}.

Definition sanitizeChannelName (name : jsstring) : jsstring :=
  toLowerCase (strip_leading_dots (replace_whitespace_runs (replace_forbidden name))).

(** Local-time getters of [Date]. *)
Definition LocalTime (t : Z) : Z := t + LocalTZA t.
Definition getFullYear (d : Date) : Z := YearFromTime (LocalTime (getTime d)).
Definition getMonth (d : Date) : Z := MonthFromTime (LocalTime (getTime d)).
Definition getDate (d : Date) : Z := DateFromTime (LocalTime (getTime d)).

Definition localDate (d : Date) : jsstring :=
  let y := getFullYear d in
  let m := padStart 2 (js "0") (String_of_int (getMonth d + 1)) in
  let day := padStart 2 (js "0") (String_of_int (getDate d)) in
  String_of_int y ++ js "-" ++ m ++ js "-" ++ day.

(* ===================================================================== *)
(** ** Message serialization *)
(* ===================================================================== *)

Definition toRecord (msg : Message) (cfg : Config) : JSValue :=
  let author := msg_author msg in
  let channel := msg_channel msg in
  let attachments := msg_attachments msg in
  let embeds := msg_embeds msg in
  let reactions := msg_reactions msg in
  let mentions := msg_mentions msg in
  JObj [
    (js "message_id", JStr (msg_id msg));
    (js "channel_id", JStr (msg_channelId msg));
    (js "guild_id", nullable JStr (msg_guildId msg));
    (js "thread_id", if isThread channel then JStr (msg_channelId msg) else JNull);
    (js "created_at", JStr (toISOString (new_Date (msg_createdTimestamp msg))));
    (js "edited_at",
      match msg_editedTimestamp msg with
      | Some t => if decide (t = 0) then JNull else JStr (toISOString (new_Date t))
      | None => JNull
      end);
    (js "author", nullable (λ author, JObj [
      (js "id", JStr (user_id author));
      (js "username", JStr (user_username author));
      (js "discriminator", JStr (user_discriminator author));
      (js "globalName", nullable JStr (user_globalName author));
      (js "bot", JBool (user_bot author))]) author);
    (js "content", if cfg_redactContent cfg then JNull else JStr (msg_content msg));
    (js "type", JInt (msg_type msg));
    (js "tts", JBool (msg_tts msg));
    (js "pinned", JBool (msg_pinned msg));
    (js "flags", nullable JInt (msg_flags msg));
    (js "reference", nullable (λ reference, JObj [
      (js "message_id", nullable JStr (ref_messageId reference));
      (js "channel_id", nullable JStr (ref_channelId reference));
      (js "guild_id", nullable JStr (ref_guildId reference))]) (msg_reference msg));
    (js "mentions", JObj [
      (js "users", JArr ((λ u, JObj [
        (js "id", JStr (user_id u));
        (js "username", JStr (user_username u));
        (js "globalName", nullable JStr (user_globalName u));
        (js "bot", JBool (user_bot u))]) <$> mentions_users mentions));
      (js "roles", JArr (JStr <$> mentions_roles mentions));
      (js "channels", JArr (JStr <$> mentions_channels mentions));
      (js "everyone", JBool (mentions_everyone mentions))]);
    (js "attachments", JArr ((λ a, JObj [
      (js "id", JStr (att_id a)); (js "url", JStr (att_url a));
      (js "proxyURL", JStr (att_proxyURL a)); (js "name", JStr (att_name a));
      (js "size", JInt (att_size a));
      (js "contentType", nullable JStr (att_contentType a));
      (js "height", nullable JInt (att_height a));
      (js "width", nullable JInt (att_width a))]) <$> attachments));
    (js "embeds", JArr (embed_toJSON <$> embeds));
    (js "reactions", JArr ((λ r, JObj [
      (js "emoji", JStr (reaction_emoji_toString r));
      (js "count", JInt (reaction_count r));
      (js "me", JBool (reaction_me r))]) <$> reactions))
  ].

(* ===================================================================== *)
(** ** File I/O *)
(* ===================================================================== *)

(** The directory and its ancestors, as [mkdir] with [recursive: true]
    creates them. *)
Fixpoint ancestors (fuel : nat) (d : jsstring) : list jsstring :=
  match fuel with
  | O => [d]
  | S fuel' =>
      let parent := dirname d in
      if decide (parent = d) then [d] else d :: ancestors fuel' parent
  end.

Definition mkdir_recursive (d : jsstring) : M unit :=
  λ w, Returned () {| files := files w;
                      dirs := dirs w ∪ list_to_set (ancestors (length d) d);
                      trace := trace w |}.

(** [await Bun.file(path).text()]; [None] when the promise rejects
    (no such file, or the file cannot be read). *)
Definition Bun_file_text (path : jsstring) (w : World) : option jsstring :=
  match files w !! path with
  | Some f => if file_readable f then Some (file_text f) else None
  | None => None
  end.

(** [await Bun.write(path, text)]: the file is replaced by [text].  The
    system is taken to permit the write; [File] records whether a file
    can be read, not whether it can be written. *)
Definition Bun_write (path text : jsstring) : M unit :=
  λ w,
    let readable := match files w !! path with
                    | Some f => file_readable f
                    | None => true
                    end in
    Returned () {| files := <[path := {| file_text := text; file_readable := readable |}]> (files w);
                   dirs := dirs w;
                   trace := trace w |}.

(** The [try { existing = JSON.parse(await Bun.file(path).text()) }
    catch {}] block: [existing] stays the empty array when reading or
    parsing throws. *)
Definition read_existing (path : jsstring) : M JSValue :=
  λ w, Returned (match Bun_file_text path w ≫= JSON_parse with
                 | Some v => v
                 | None => JArr []
                 end) w.

(** The code points of a string, each as a string: what iterating a
    string yields. *)
Definition is_high_surrogate (c : N) : bool := bool_decide (55296 ≤ c ≤ 56319)%N.
Definition is_low_surrogate (c : N) : bool := bool_decide (56320 ≤ c ≤ 57343)%N.

Fixpoint code_points (s : jsstring) : list jsstring :=
  match s with
  | [] => []
  | c :: rest =>
      match rest with
      | c' :: rest' =>
          if is_high_surrogate c && is_low_surrogate c'
          then [c; c'] :: code_points rest'
          else [c] :: code_points rest
      | [] => [[c]]
      end
  end.

(** The spread [...v] inside an array literal: the elements of an
    array, the code points of a string, and a [TypeError] for every
    other value [JSON.parse] can return. *)
Definition spread (v : JSValue) : M (list JSValue) :=
  match v with
  | JArr elems => ret elems
  | JStr s => ret (JStr <$> code_points s)
  | JNull | JBool _ | JNum _ _ | JObj _ => throw TypeError_not_iterable
  end.

Definition writeJson (path : jsstring) (records : list JSValue) : M unit :=
  emit (EvWriteJson path records) ;;
  match records with
  | [] => ret ()
  | _ :: _ =>
      mkdir_recursive (dirname path) ;;
      do existing <- read_existing path ;
      do merged <- spread existing ;
      Bun_write path (JSON_stringify (JArr (merged ++ records)) 2)
  end.

(** [xs.sort(compare)]: a stable sort; [a] goes before [b] when
    [compare a b] is not positive. *)
Fixpoint sort_insert {A} (compare : A → A → Z) (a : A) (sorted : list A) : list A :=
  match sorted with
  | [] => [a]
  | b :: rest =>
      if decide (compare a b ≤ 0) then a :: sorted
      else b :: sort_insert compare a rest
  end.

Definition Array_sort {A} (compare : A → A → Z) (xs : list A) : list A :=
  foldr (sort_insert compare) [] xs.

(** [Map.groupBy(items, key)]: one entry per distinct key, in order of
    first occurrence, each holding its items in their order. *)
Fixpoint group_add {K A} `{EqDecision K} (k : K) (x : A) (groups : list (K * list A))
  : list (K * list A) :=
  match groups with
  | [] => [(k, [x])]
  | (k', g) :: rest =>
      if decide (k' = k) then (k', g ++ [x]) :: rest
      else (k', g) :: group_add k x rest
  end.

Definition Map_groupBy {K A} `{EqDecision K} (key : A → K) (items : list A)
  : list (K * list A) :=
  foldl (λ groups x, group_add (key x) x groups) [] items.

Definition createdDate (m : Message) : jsstring :=
  localDate (new_Date (msg_createdTimestamp m)).

Definition writeMessages (cfg : Config) (msgs : list Message) (channelName : jsstring)
  : M unit :=
  match msgs with
  | [] => ret ()
  | _ :: _ =>
      let msgs := Array_sort (λ a b, msg_createdTimestamp a - msg_createdTimestamp b) msgs in
      let byDate := Map_groupBy createdDate msgs in
      let sanitizedName := sanitizeChannelName channelName in
      for_of byDate (λ '(dt, batch),
        match batch with
        | [] => ret ()
        | _ :: _ =>
            let path := join [cfg_outDir cfg; sanitizedName; dt; js "messages.json"] in
            writeJson path ((λ m, toRecord m cfg) <$> batch)
        end)
  end.

(* ===================================================================== *)
(** ** Backfill *)
(* ===================================================================== *)

(** A text channel as the traversal uses it: its id, its name when it
    has one, and the paginated history request
    [ch.messages.fetch({ limit, before })]. *)
Record TextBasedChannel := {
  ch_id : Snowflake;
  ch_name : option jsstring;
  ch_messages_fetch : nat → option Snowflake → list Message;
}.

Definition in_window (cfg : Config) (m : Message) : Prop :=
  getTime (cfg_start cfg) ≤ msg_createdTimestamp m
  ∧ msg_createdTimestamp m < getTime (cfg_end cfg).

(** [msgs.reduce((a, b) => a.createdTimestamp < b.createdTimestamp ? a : b)]
    on a non-empty array with first element [first]. *)
Definition oldest_of (first : Message) (rest : list Message) : Message :=
  foldl (λ a b, if decide (msg_createdTimestamp a < msg_createdTimestamp b) then a else b)
        first rest.

Definition channelName_of (ch : TextBasedChannel) : jsstring :=
  match ch_name ch with
  | Some (c :: n) => c :: n
  | Some [] | None => js "dm"
  end.

(** The [while (true)] loop, run for at most [fuel] iterations; it
    returns [total]. *)
Fixpoint backfill_loop (fuel : nat) (cfg : Config) (ch : TextBasedChannel)
    (channelName : jsstring) (before : option Snowflake) (total : nat) : M nat :=
  match fuel with
  | O => λ w, Running w
  | S fuel' =>
      let batch := ch_messages_fetch ch 100 before in
      emit (EvFetch 100 before batch) ;;
      match batch with
      | [] => ret total
      | first :: rest =>
          let msgs := batch in
          let total := (total + length msgs)%nat in
          let inRange := filter (in_window cfg) msgs in
          writeMessages cfg inRange channelName ;;
          let oldest := oldest_of first rest in
          if decide (msg_createdTimestamp oldest < getTime (cfg_start cfg)) then ret total
          else backfill_loop fuel' cfg ch channelName (Some (msg_id oldest)) total
      end
  end.

Definition backfill (fuel : nat) (cfg : Config) (ch : TextBasedChannel) : M nat :=
  backfill_loop fuel cfg ch (channelName_of ch) None 0.

End WithRuntime.

(* ===================================================================== *)
(** ** Config *)
(* ===================================================================== *)

(** The [values] that [parseArgs] returns for the declared options.  An
    option that is not on the command line is [undefined], except
    [out], which has a default. *)
Record ParsedValues := {
  values_token : option jsstring;
  values_channel : option jsstring;
  values_out : jsstring;
  values_start : option jsstring;
  values_end : option jsstring;
  values_redactContent : option bool;
}.

Section Config.
(** The time value of [new Date(s)]; [None] when it is NaN. *)
Variable Date_parse : jsstring → option Z.

(** A thrown [Error(message)] is [inl message]. *)
Definition parseDate (s : jsstring) : jsstring + Date :=
  match Date_parse s with
  | Some t => inr (new_Date t)
  | None => inl (js "Invalid date: " ++ s)
  end.

(** [DISCORD_TOKEN] is [process.env.DISCORD_TOKEN].  The tests [!x] on
    an optional string hold for [undefined] and for the empty string;
    [x ?? y] falls back to [y] for [undefined] only. *)
Definition parseConfig (values : ParsedValues) (DISCORD_TOKEN : option jsstring)
    : jsstring + Config :=
  match values_channel values with
  | None | Some [] => inl (js "--channel required")
  | Some channel =>
      match values_start values, values_end values with
      | None, _ | Some [], _ | _, None | _, Some [] => inl (js "--start and --end required")
      | Some start, Some end_ =>
          let token := match values_token values with
                       | Some t => Some t
                       | None => DISCORD_TOKEN
                       end in
          match token with
          | None | Some [] =>
              inl (js "--token required or DISCORD_TOKEN env var must be set")
          | Some token =>
              match parseDate start with
              | inl e => inl e
              | inr start =>
                  match parseDate end_ with
                  | inl e => inl e
                  | inr end_ =>
                      inr {| cfg_token := token;
                             cfg_channel := channel;
                             cfg_outDir := values_out values;
                             cfg_start := start;
                             cfg_end := end_;
                             cfg_redactContent :=
                               default false (values_redactContent values) |}
                  end
              end
          end
      end
  end.

End Config.


(* ===================================================================== *)
(** ** The gateway, for a channel with a fixed history *)
(* ===================================================================== *)

(** The numeric value of a snowflake written in decimal. *)
Definition snowflake_value (s : jsstring) : N :=
  foldl (λ acc c, acc * 10 + (c - 48))%N 0%N s.

Definition is_older (before : option Snowflake) (m : Message) : bool :=
  match before with
  | Some b => bool_decide (snowflake_value (msg_id m) < snowflake_value b)%N
  | None => true
  end.

(** Discord's answer to [fetch({ limit, before })] for a channel whose
    messages are [history], newest first: the [limit] newest messages
    with an id below [before]. *)
Definition history_fetch (history : list Message) (limit : nat)
    (before : option Snowflake) : list Message :=
  take limit (filter (λ m, Is_true (is_older before m)) history).

Definition history_channel (id : Snowflake) (name : option jsstring)
    (history : list Message) : TextBasedChannel :=
  {| ch_id := id; ch_name := name; ch_messages_fetch := history_fetch history |}.

(* ===================================================================== *)
(** ** A reference runtime *)
(* ===================================================================== *)

(** Executable versions of the library functions, after ECMA-262
    ([JSON.stringify], [JSON.parse]) and the POSIX flavour of node's
    [path] module.  [toLowerCase] covers the ASCII letters and the local
    time zone is UTC+9, the zone of the usage line at the top of
    [main.ts]. *)
Module Reference.

Definition join_with (sep : jsstring) (parts : list jsstring) : jsstring :=
  match parts with
  | [] => []
  | p :: rest => p ++ mjoin ((λ q, sep ++ q) <$> rest)
  end.

(** *** JSON.stringify *)

Definition hex_digit (n : N) : N :=
  (if decide (n < 10) then 48 + n else 87 + n)%N.

Definition unicode_escape (c : N) : jsstring :=
  ([92; 117] ++ [hex_digit (c / 4096); hex_digit ((c / 256) mod 16);
                 hex_digit ((c / 16) mod 16); hex_digit (c mod 16)])%N.

Definition quote_code_point (cp : jsstring) : jsstring :=
  match cp with
  | [c] =>
      if decide (c = 34%N) then [92; 34]%N
      else if decide (c = 92%N) then [92; 92]%N
      else if decide (c = 8%N) then js "\b"
      else if decide (c = 12%N) then js "\f"
      else if decide (c = 10%N) then js "\n"
      else if decide (c = 13%N) then js "\r"
      else if decide (c = 9%N) then js "\t"
      else if bool_decide (c < 32)%N || is_high_surrogate c || is_low_surrogate c
           then unicode_escape c
      else [c]
  | _ => cp
  end.

Definition QuoteJSONString (s : jsstring) : jsstring :=
  [34%N] ++ mjoin (quote_code_point <$> code_points s) ++ [34%N].

(** Decimal notation of [m * 10^e]. *)
Definition Number_toString (m e : Z) : jsstring :=
  if decide (0 ≤ e) then String_of_int (m * 10 ^ e)
  else
    let digits := String_of_int (Z.abs m) in
    let k := Z.to_nat (- e) in
    let sign := if decide (m < 0) then js "-" else [] in
    let padded := replicate (S k - length digits) 48%N ++ digits in
    sign ++ take (length padded - k) padded ++ js "." ++ drop (length padded - k) padded.

Fixpoint SerializeJSONProperty (gap indent : jsstring) (v : JSValue) : jsstring :=
  match v with
  | JNull => js "null"
  | JBool true => js "true"
  | JBool false => js "false"
  | JNum m e => Number_toString m e
  | JStr s => QuoteJSONString s
  | JArr elems =>
      let stepback := indent in
      let indent := indent ++ gap in
      match elems with
      | [] => js "[]"
      | _ :: _ =>
          let partial := SerializeJSONProperty gap indent <$> elems in
          match gap with
          | [] => js "[" ++ join_with (js ",") partial ++ js "]"
          | _ :: _ =>
              js "[" ++ [10%N] ++ indent ++ join_with (js "," ++ [10%N] ++ indent) partial
                ++ [10%N] ++ stepback ++ js "]"
          end
      end
  | JObj props =>
      let stepback := indent in
      let indent := indent ++ gap in
      match props with
      | [] => js "{}"
      | _ :: _ =>
          let partial :=
            (λ kv, QuoteJSONString kv.1 ++ js ":"
                   ++ (match gap with [] => [] | _ :: _ => js " " end)
                   ++ SerializeJSONProperty gap indent kv.2) <$> props in
          match gap with
          | [] => js "{" ++ join_with (js ",") partial ++ js "}"
          | _ :: _ =>
              js "{" ++ [10%N] ++ indent ++ join_with (js "," ++ [10%N] ++ indent) partial
                ++ [10%N] ++ stepback ++ js "}"
          end
      end
  end.

Definition JSON_stringify (v : JSValue) (indent : nat) : jsstring :=
  SerializeJSONProperty (replicate (indent `min` 10) 32%N) [] v.

(** *** JSON.parse *)

Definition is_json_ws (c : N) : bool := bool_decide (c ∈ [9; 10; 13; 32]%N).
Definition is_digit (c : N) : bool := bool_decide (48 ≤ c ≤ 57)%N.

Fixpoint skip_ws (s : jsstring) : jsstring :=
  match s with
  | c :: rest => if is_json_ws c then skip_ws rest else s
  | [] => []
  end.

Definition expect (c : N) (s : jsstring) : option jsstring :=
  match s with
  | c' :: rest => if decide (c' = c) then Some rest else None
  | [] => None
  end.

Fixpoint expect_all (word s : jsstring) : option jsstring :=
  match word with
  | [] => Some s
  | c :: word' => expect c s ≫= expect_all word'
  end.

Definition hex_value (c : N) : option N :=
  (if bool_decide (48 ≤ c ≤ 57) then Some (c - 48)
   else if bool_decide (97 ≤ c ≤ 102) then Some (c - 87)
   else if bool_decide (65 ≤ c ≤ 70) then Some (c - 55)
   else None)%N.

Definition simple_escape (c : N) : option N :=
  (if decide (c = 34) then Some 34 else if decide (c = 92) then Some 92
   else if decide (c = 47) then Some 47 else if decide (c = 98) then Some 8
   else if decide (c = 102) then Some 12 else if decide (c = 110) then Some 10
   else if decide (c = 114) then Some 13 else if decide (c = 116) then Some 9
   else None)%N.

(** The characters of a string literal after its opening quote. *)
Fixpoint parse_string_chars (s acc : jsstring) : option (jsstring * jsstring) :=
  match s with
  | [] => None
  | c :: rest =>
      if decide (c = 34%N) then Some (reverse acc, rest)
      else if decide (c = 92%N) then
        match rest with
        | e :: rest1 =>
            if decide (e = 117%N) then
              match rest1 with
              | h1 :: h2 :: h3 :: h4 :: rest2 =>
                  match hex_value h1, hex_value h2, hex_value h3, hex_value h4 with
                  | Some a, Some b, Some c, Some d =>
                      parse_string_chars rest2 ((a * 4096 + b * 256 + c * 16 + d)%N :: acc)
                  | _, _, _, _ => None
                  end
              | _ => None
              end
            else
              match simple_escape e with
              | Some ch => parse_string_chars rest1 (ch :: acc)
              | None => None
              end
        | [] => None
        end
      else if bool_decide (c < 32)%N then None
      else parse_string_chars rest (c :: acc)
  end.

Fixpoint take_digits (s : jsstring) : jsstring * jsstring :=
  match s with
  | c :: rest =>
      if is_digit c then let '(ds, r) := take_digits rest in (c :: ds, r)
      else ([], s)
  | [] => ([], [])
  end.

Definition digits_value (ds : jsstring) : Z :=
  foldl (λ acc c, acc * 10 + (Z.of_N c - 48)) 0 ds.

(** Canonical form of [m * 10^e]: no positive exponent, no trailing
    zero behind the decimal point. *)
Fixpoint normalize_decimal (fuel : nat) (m e : Z) : JSValue :=
  match fuel with
  | O => JNum m e
  | S fuel' =>
      if decide (m = 0) then JNum 0 0
      else if decide (0 ≤ e) then JNum (m * 10 ^ e) 0
      else if decide (m `mod` 10 = 0) then normalize_decimal fuel' (m `div` 10) (e + 1)
      else JNum m e
  end.

Definition parse_number (s : jsstring) : option (JSValue * jsstring) :=
  let '(negative, s1) :=
    match s with
    | c :: rest => if decide (c = 45%N) then (true, rest) else (false, s)
    | [] => (false, s)
    end in
  let '(int_digits, s2) := take_digits s1 in
  match int_digits with
  | [] => None
  | d :: more =>
      if bool_decide (d = 48%N) && negb (bool_decide (more = [])) then None
      else
        let fraction :=
          match expect 46 s2 with
          | Some rest =>
              let '(ds, r) := take_digits rest in
              match ds with [] => None | _ :: _ => Some (ds, r) end
          | None => Some ([], s2)
          end in
        '(frac_digits, s3) ← fraction;
        let exponent :=
          match s3 with
          | c :: rest =>
              if bool_decide (c = 101%N) || bool_decide (c = 69%N) then
                let '(neg_exp, rest1) :=
                  match rest with
                  | sg :: rest' =>
                      if decide (sg = 45%N) then (true, rest')
                      else if decide (sg = 43%N) then (false, rest')
                      else (false, rest)
                  | [] => (false, rest)
                  end in
                let '(ds, r) := take_digits rest1 in
                match ds with
                | [] => None
                | _ :: _ => Some (if neg_exp then - digits_value ds else digits_value ds, r)
                end
              else Some (0, s3)
          | [] => Some (0, s3)
          end in
        '(exp_value, s4) ← exponent;
        let magnitude := digits_value (int_digits ++ frac_digits) in
        Some (normalize_decimal (S (length frac_digits))
                (if negative then - magnitude else magnitude)
                (exp_value - Z.of_nat (length frac_digits)), s4)
  end.

(** Defining a property on the object under construction: a repeated
    key keeps its place and takes the new value. *)
Fixpoint set_prop (k : jsstring) (v : JSValue) (props : list (jsstring * JSValue))
  : list (jsstring * JSValue) :=
  match props with
  | [] => [(k, v)]
  | (k', v') :: rest =>
      if decide (k' = k) then (k', v) :: rest else (k', v') :: set_prop k v rest
  end.

(** Array-index keys come first, in ascending order, when the
    properties of an object are enumerated. *)
Definition is_array_index (k : jsstring) : bool :=
  bool_decide (k = String_of_int (digits_value k))
  && forallb is_digit k
  && bool_decide (digits_value k ≤ 4294967294).

Definition order_props (props : list (jsstring * JSValue)) : list (jsstring * JSValue) :=
  Array_sort (λ a b, digits_value a.1 - digits_value b.1)
             (filter (λ kv, Is_true (is_array_index kv.1)) props)
  ++ filter (λ kv, ¬ Is_true (is_array_index kv.1)) props.

Fixpoint parse_value (fuel : nat) (s : jsstring) : option (JSValue * jsstring) :=
  match fuel with
  | O => None
  | S fuel' =>
      match skip_ws s with
      | [] => None
      | c :: rest =>
          if decide (c = 123%N) then
            match expect 125 (skip_ws rest) with
            | Some rest' => Some (JObj [], rest')
            | None => parse_members fuel' rest []
            end
          else if decide (c = 91%N) then
            match expect 93 (skip_ws rest) with
            | Some rest' => Some (JArr [], rest')
            | None => parse_elements fuel' rest []
            end
          else if decide (c = 34%N) then
            '(str, rest') ← parse_string_chars rest []; Some (JStr str, rest')
          else if decide (c = 110%N) then
            rest' ← expect_all (js "ull") rest; Some (JNull, rest')
          else if decide (c = 116%N) then
            rest' ← expect_all (js "rue") rest; Some (JBool true, rest')
          else if decide (c = 102%N) then
            rest' ← expect_all (js "alse") rest; Some (JBool false, rest')
          else parse_number (c :: rest)
      end
  end
with parse_elements (fuel : nat) (s : jsstring) (acc : list JSValue)
  : option (JSValue * jsstring) :=
  match fuel with
  | O => None
  | S fuel' =>
      '(v, rest) ← parse_value fuel' s;
      match skip_ws rest with
      | c :: rest' =>
          if decide (c = 44%N) then parse_elements fuel' rest' (v :: acc)
          else if decide (c = 93%N) then Some (JArr (reverse (v :: acc)), rest')
          else None
      | [] => None
      end
  end
with parse_members (fuel : nat) (s : jsstring) (acc : list (jsstring * JSValue))
  : option (JSValue * jsstring) :=
  match fuel with
  | O => None
  | S fuel' =>
      rest1 ← expect 34 (skip_ws s);
      '(k, rest2) ← parse_string_chars rest1 [];
      rest3 ← expect 58 (skip_ws rest2);
      '(v, rest4) ← parse_value fuel' rest3;
      match skip_ws rest4 with
      | c :: rest' =>
          if decide (c = 44%N) then parse_members fuel' rest' (set_prop k v acc)
          else if decide (c = 125%N) then Some (JObj (order_props (set_prop k v acc)), rest')
          else None
      | [] => None
      end
  end.

Definition JSON_parse (text : jsstring) : option JSValue :=
  '(v, rest) ← parse_value (2 * S (length text)) text;
  match skip_ws rest with
  | [] => Some v
  | _ :: _ => None
  end.

(** *** String.prototype.toLowerCase, on ASCII *)

Definition toLowerCase (s : jsstring) : jsstring :=
  (λ c, if bool_decide (65 ≤ c ≤ 90)%N then (c + 32)%N else c) <$> s.

(** *** path.join and path.dirname (POSIX) *)

Definition slash : N := 47.

(** [s.split(sep)]. *)
Fixpoint split_on (sep : N) (s : jsstring) : list jsstring :=
  match s with
  | [] => [[]]
  | c :: rest =>
      if decide (c = sep) then [] :: split_on sep rest
      else match split_on sep rest with
           | seg :: segs => (c :: seg) :: segs
           | [] => [[c]]
           end
  end.

(** Resolution of [.] and [..] segments; [stack] holds the kept
    segments, last one first. *)
Fixpoint normalize_segments (allowAboveRoot : bool) (segs stack : list jsstring)
  : list jsstring :=
  match segs with
  | [] => reverse stack
  | seg :: rest =>
      if decide (seg = [] ∨ seg = js ".") then normalize_segments allowAboveRoot rest stack
      else if decide (seg = js "..") then
        match stack with
        | top :: below =>
            if decide (top = js "..") then
              normalize_segments allowAboveRoot rest
                (if allowAboveRoot then seg :: stack else stack)
            else normalize_segments allowAboveRoot rest below
        | [] =>
            normalize_segments allowAboveRoot rest
              (if allowAboveRoot then seg :: stack else stack)
        end
      else normalize_segments allowAboveRoot rest (seg :: stack)
  end.

Definition normalize (path : jsstring) : jsstring :=
  match path with
  | [] => js "."
  | first :: _ =>
      let isAbsolute := bool_decide (first = slash) in
      let trailingSeparator := bool_decide (last path = Some slash) in
      let p := join_with [slash]
                 (normalize_segments (negb isAbsolute) (split_on slash path) []) in
      match p with
      | [] => if isAbsolute then js "/" else if trailingSeparator then js "./" else js "."
      | _ :: _ =>
          let p := if trailingSeparator then p ++ [slash] else p in
          if isAbsolute then slash :: p else p
      end
  end.

Definition join (segments : list jsstring) : jsstring :=
  match filter (λ seg, seg ≠ []) segments with
  | [] => js "."
  | parts => normalize (join_with [slash] parts)
  end.

Fixpoint drop_while {A} (p : A → bool) (l : list A) : list A :=
  match l with
  | x :: rest => if p x then drop_while p rest else l
  | [] => []
  end.

Definition dirname (path : jsstring) : jsstring :=
  match path with
  | [] => js "."
  | first :: body =>
      let hasRoot := bool_decide (first = slash) in
      let is_slash := λ c, bool_decide (c = slash) in
      (* scan from the end: skip trailing slashes, then the last segment *)
      match drop_while (λ c, negb (is_slash c)) (drop_while is_slash (reverse body)) with
      | [] => if hasRoot then js "/" else js "."
      | _ :: before =>
          match before with
          | [] => if hasRoot then js "//" else [first]
          | _ :: _ => first :: reverse before
          end
      end
  end.

(** *** Local time *)

Definition LocalTZA (t : Z) : Z := 9 * 3600000.

Definition runtime : Runtime :=
  Build_Runtime JSON_parse JSON_stringify toLowerCase LocalTZA join dirname.

End Reference.

(* ===================================================================== *)
(** ** The first revision: one line of JSON per record *)
(* ===================================================================== *)

(** The first revision's partition key, [d.toISOString().slice(0, 10)]. *)
Definition utcDate (d : Date) : jsstring := take 10 (toISOString d).

Section AppendingLines.
Context {rt : Runtime}.

(** [await appendFile(path, text)] of [node:fs/promises]: the text goes
    to the end of the file, which is created when it does not exist. *)
Definition appendFile (path text : jsstring) : M unit :=
  λ w,
    let old := match files w !! path with
               | Some f => f
               | None => {| file_text := []; file_readable := true |}
               end in
    Returned () {| files := <[path := {| file_text := file_text old ++ text;
                                         file_readable := file_readable old |}]> (files w);
                   dirs := dirs w;
                   trace := trace w |}.

(** The first revision's writer: one line of JSON per record, the line
    feed being code unit 10.  [JSON.stringify(r)] is
    [JSON.stringify(r, null, 0)]: no indentation. *)
Definition appendNdjson (path : jsstring) (records : list JSValue) : M unit :=
  match records with
  | [] => ret ()
  | _ :: _ =>
      mkdir_recursive (dirname path) ;;
      appendFile path
        (Reference.join_with [10%N] ((λ r, JSON_stringify r 0) <$> records) ++ [10%N])
  end.

End AppendingLines.


(* ===================================================================== *)
(** ** Vocabulary of the statements *)
(* ===================================================================== *)

Definition props_of (v : JSValue) : list (jsstring * JSValue) :=
  match v with JObj props => props | _ => [] end.

(** What the sanitizer needs from [toLowerCase]: lowering twice is
    lowering once, and lowering introduces neither a forbidden
    character, nor whitespace, nor a leading dot. *)
Record LowerCaseLaws (rt : Runtime) : Prop := {
  lower_idempotent : ∀ s, toLowerCase (toLowerCase s) = toLowerCase s;
  lower_special : ∀ s c,
    c ∈ toLowerCase s → is_forbidden c || is_whitespace c = true → c ∈ s;
  lower_head_dot : ∀ s, head (toLowerCase s) = Some dot → head s = Some dot;
}.
Arguments lower_idempotent {rt} _.
Arguments lower_special {rt} _.
Arguments lower_head_dot {rt} _.

Definition is_fetch (e : Event) : bool :=
  match e with EvFetch _ _ _ => true | EvWriteJson _ _ => false end.

(** Number of page fetches in a trace. *)
Definition fetch_count (tr : list Event) : nat :=
  length (filter (λ e, Is_true (is_fetch e)) tr).

Definition id_value (m : Message) : N := snowflake_value (msg_id m).

(** Newest first: ids strictly decreasing, creation instants not
    increasing. *)
Definition newest_first (history : list Message) : Prop :=
  StronglySorted (λ a b, (id_value b < id_value a)%N) history
  ∧ StronglySorted (λ a b, msg_createdTimestamp b ≤ msg_createdTimestamp a) history.

(** Ascending order of a numeric key. *)
Definition by_key {A} (key : A → Z) (a b : A) : Prop := key a ≤ key b.

Definition by_createdTimestamp : Message → Message → Prop :=
  by_key msg_createdTimestamp.

(** The group stored under a key. *)
Fixpoint group_lookup {K A} `{EqDecision K} (k : K) (groups : list (K * list A))
  : option (list A) :=
  match groups with
  | [] => None
  | (k', g) :: rest => if decide (k' = k) then Some g else group_lookup k rest
  end.

(** Every file of the store can be read. *)
Definition all_readable (w : World) : Prop :=
  ∀ p f, files w !! p = Some f → file_readable f = true.

(** The elements a value spreads into, if it is iterable. *)
Definition spread_elems (v : JSValue) : option (list JSValue) :=
  match v with
  | JArr elems => Some elems
  | JStr s => Some (JStr <$> code_points s)
  | _ => None
  end.

Section Vocabulary.
Context {rt : Runtime}.

(** The partition file of a channel name and a date. *)
Definition partition_path (cfg : Config) (channelName dt : jsstring) : jsstring :=
  join [cfg_outDir cfg; sanitizeChannelName channelName; dt; js "messages.json"].

(** The messages of a page that are written for the date [dt], in the
    order in which they are written. *)
Definition day_batch (dt : jsstring) (msgs : list Message) : list Message :=
  filter (λ m, createdDate m = dt)
         (Array_sort (λ a b, msg_createdTimestamp a - msg_createdTimestamp b) msgs).

(** The text of a file, when it exists. *)
Definition text_at (path : jsstring) (w : World) : option jsstring :=
  file_text <$> files w !! path.

(** The value of [existing] after the [try] block of [writeJson]. *)
Definition existing_value (path : jsstring) (w : World) : JSValue :=
  match Bun_file_text path w ≫= JSON_parse with
  | Some v => v
  | None => JArr []
  end.

(** The world after a call of [writeJson] that wrote [text]. *)
Definition written (path text : jsstring) (records : list JSValue) (w : World) : World := {|
  files := <[path := {| file_text := text;
                        file_readable := match files w !! path with
                                         | Some f => file_readable f
                                         | None => true
                                         end |}]> (files w);
  dirs := dirs w ∪ list_to_set (ancestors (length (dirname path)) (dirname path));
  trace := trace w ++ [EvWriteJson path records];
|}.

(** The world after a call of [writeJson] that wrote nothing. *)
Definition logged (path : jsstring) (records : list JSValue) (w : World) : World :=
  {| files := files w; dirs := dirs w; trace := trace w ++ [EvWriteJson path records] |}.

(** The dates of a batch of messages, in the order in which
    [writeMessages] visits them, and the calls of [writeJson] it makes. *)
Definition dates_of (msgs : list Message) : list jsstring :=
  (Map_groupBy createdDate
     (Array_sort (λ a b, msg_createdTimestamp a - msg_createdTimestamp b) msgs)).*1.

Definition planned_calls (cfg : Config) (msgs : list Message) (channelName : jsstring)
  : list (jsstring * list JSValue) :=
  (λ dt, (partition_path cfg channelName dt,
          (λ m, toRecord m cfg) <$> day_batch dt msgs)) <$> dates_of msgs.

Definition write_all (calls : list (jsstring * list JSValue)) : M unit :=
  for_of calls (λ call, writeJson call.1 call.2).

Definition call_event (call : jsstring * list JSValue) : Event :=
  EvWriteJson call.1 call.2.

(** The cursor of the [n]-th iteration of the traversal and the page it
    fetches. *)
Definition oldest_in (page : list Message) : option Message :=
  match page with
  | [] => None
  | first :: rest => Some (oldest_of first rest)
  end.

Fixpoint cursor (ch : TextBasedChannel) (n : nat) : option Snowflake :=
  match n with
  | O => None
  | S n' => msg_id <$> oldest_in (ch_messages_fetch ch 100 (cursor ch n'))
  end.

Definition page (ch : TextBasedChannel) (n : nat) : list Message :=
  ch_messages_fetch ch 100 (cursor ch n).

(** The [n]-th page ends the traversal: it is empty, or its oldest
    message was created before [start]. *)
Definition stops (cfg : Config) (ch : TextBasedChannel) (n : nat) : Prop :=
  match oldest_in (page ch n) with
  | None => True
  | Some oldest => msg_createdTimestamp oldest < getTime (cfg_start cfg)
  end.

Global Instance stops_dec cfg ch n : Decision (stops cfg ch n).
Proof. unfold stops. destruct (oldest_in (page ch n)); apply _. Defined.

(** The messages a fetch with the cursor of iteration [k] chooses from,
    for a channel with a fixed history. *)
Definition candidates (id : Snowflake) (name : option jsstring)
    (history : list Message) (k : nat) : list Message :=
  filter (λ m, Is_true (is_older (cursor (history_channel id name history) k) m)) history.

(** The window invariant of a trace segment: every record passed to
    [writeJson] is the image of a message of a fetched page whose
    creation instant lies in the window. *)
Definition window_invariant (cfg : Config) (evs : list Event) : Prop :=
  ∀ path records r,
    EvWriteJson path records ∈ evs → r ∈ records →
    ∃ m limit before page,
      r = toRecord m cfg
      ∧ getTime (cfg_start cfg) ≤ msg_createdTimestamp m < getTime (cfg_end cfg)
      ∧ EvFetch limit before page ∈ evs ∧ m ∈ page.



(** The day of local time on which a message was created, and the text
    [Y-MM-DD] of a calendar date (year, month 1..12, day of month). *)
Definition local_day (m : Message) : Z := Day (LocalTime (msg_createdTimestamp m)).

Definition date_text (date : Z * Z * Z) : jsstring :=
  String_of_int date.1.1 ++ js "-" ++ pad 2 date.1.2 ++ js "-" ++ pad 2 date.2.

End Vocabulary.

(** *** Vocabulary of the further properties *)

(** The records handed to [writeJson] in a trace, in order, and the
    paths they were handed to it for. *)
Definition records_written (evs : list Event) : list JSValue :=
  evs ≫= λ e, match e with EvWriteJson _ rs => rs | EvFetch _ _ _ => [] end.

Definition written_paths (evs : list Event) : list jsstring :=
  evs ≫= λ e, match e with EvWriteJson p _ => [p] | EvFetch _ _ _ => [] end.

(** The messages of the fetched pages of a trace, in order. *)
Definition fetched (evs : list Event) : list Message :=
  evs ≫= λ e, match e with EvFetch _ _ page => page | EvWriteJson _ _ => [] end.

(** [w'] keeps every file and directory of [w], and every file except
    possibly those at [paths] unchanged. *)
Definition extends_outside (paths : list jsstring) (w w' : World) : Prop :=
  dom (files w) ⊆ dom (files w') ∧ dirs w ⊆ dirs w'
  ∧ ∀ q, q ∉ paths → files w' !! q = files w !! q.

Definition is_iterable (v : JSValue) : bool :=
  match v with JArr _ | JStr _ => true | _ => false end.

(** The calendar date of a day within its 400-year era, with the year
    counted from the start of the era. *)
Definition era_date (doe : Z) : Z * Z * Z :=
  let yoe := (doe - doe `div` 1460 + doe `div` 36524 - doe `div` 146096) `div` 365 in
  let doy := doe - (365 * yoe + yoe `div` 4 - yoe `div` 100) in
  let mp := (5 * doy + 2) `div` 153 in
  let d := doy - (153 * mp + 2) `div` 5 + 1 in
  let m := if decide (mp < 10) then mp + 3 else mp - 9 in
  (yoe + (if decide (m ≤ 2) then 1 else 0), m, d).

(** Its two steps: the year of the era, which starts on the first of
    March, and the date of a day of such a year, with 1 for the year
    when the day is in January or February. *)
Definition year_of_era (doe : Z) : Z :=
  (doe - doe `div` 1460 + doe `div` 36524 - doe `div` 146096) `div` 365.

Definition year_start (yoe : Z) : Z :=
  365 * yoe + yoe `div` 4 - yoe `div` 100 + yoe `div` 400.

Definition year_date (doy : Z) : Z * Z * Z :=
  let mp := (5 * doy + 2) `div` 153 in
  let d := doy - (153 * mp + 2) `div` 5 + 1 in
  let m := if decide (mp < 10) then mp + 3 else mp - 9 in
  (if decide (m ≤ 2) then 1 else 0, m, d).

(** Dates in calendar order. *)
Definition date_key (date : Z * Z * Z) : Z :=
  date.1.1 * 10000 + date.1.2 * 100 + date.2.

(** What holds of every day of an era: month and day of month are in
    range, and the next day of the era has a later date. *)
Definition era_date_ok (doe : Z) : Prop :=
  let date := era_date doe in
  1 ≤ date.1.2 ≤ 12 ∧ 1 ≤ date.2 ≤ 31
  ∧ 301 ≤ date_key date ≤ 4000231
  ∧ (doe < 146096 → date_key date < date_key (era_date (doe + 1))).

(** Checked by computation: the [n] years from [yoe] start where
    [year_start] says and have 365 or 366 days. *)
Fixpoint check_years (n : nat) (yoe : Z) : bool :=
  match n with
  | O => true
  | S n' =>
      (year_of_era (year_start yoe) =? yoe)
      && (year_of_era (year_start (yoe + 1) - 1) =? yoe)
      && (year_start yoe + 365 <=? year_start (yoe + 1))
      && (year_start (yoe + 1) <=? year_start yoe + 366)
      && check_years n' (yoe + 1)
  end.

(** Checked by computation: the [n] days of a year from [doy] have
    dates in range and in order, [prev] being the key of the day
    before. *)
Fixpoint check_days (n : nat) (doy prev : Z) : bool :=
  match n with
  | O => true
  | S n' =>
      let date := year_date doy in
      let key := date_key date in
      (1 <=? date.1.2) && (date.1.2 <=? 12) && (1 <=? date.2) && (date.2 <=? 31)
      && (key <=? 10231) && (prev <? key)
      && check_days n' (doy + 1) key
  end.

(** The number a string of decimal digits stands for. *)
Definition decimal_value (s : jsstring) : Z := Z.of_N (snowflake_value s).

(** [pad] gives non-negative numbers below [10^width] exactly [width]
    digits, from which the number can be read back. *)
Definition pad_ok (width : nat) (n : Z) : Prop :=
  length (pad width n) = width ∧ decimal_value (pad width n) = n.

(** Checked by computation for the [n] numbers from [from]. *)
Fixpoint check_pad (width n : nat) (from : Z) : bool :=
  match n with
  | O => true
  | S n' =>
      let s := pad width from in
      (length s =? width)%nat && (decimal_value s =? from)
      && check_pad width n' (from + 1)
  end.

(** The lines of a list of records, each ended by a line feed. *)
Definition ndjson_lines {rt : Runtime} (records : list JSValue) : jsstring :=
  mjoin ((λ r, JSON_stringify r 0 ++ [10%N]) <$> records).

(** The same command line with [--start] and [--end] exchanged. *)
Definition exchange_bounds (values : ParsedValues) : ParsedValues := {|
  values_token := values_token values;
  values_channel := values_channel values;
  values_out := values_out values;
  values_start := values_end values;
  values_end := values_start values;
  values_redactContent := values_redactContent values;
|}.


(* ===================================================================== *)
(** ** Example data *)
(* ===================================================================== *)

Module Example.

Definition discord_epoch : Z := 1420070400000.

(** The id Discord gives a message created at [t], with sequence
    number [n]. *)
Definition snowflake (t n : Z) : jsstring :=
  String_of_int ((t - discord_epoch) * 4194304 + n).

Definition alice : User := {|
  user_id := js "80351110224678912";
  user_username := js "alice";
  user_discriminator := js "0";
  user_globalName := Some (js "Alice");
  user_bot := false;
|}.

Definition message (t n : Z) : Message := {|
  msg_id := snowflake t n;
  msg_channelId := js "123456789012345678";
  msg_guildId := Some (js "987654321098765432");
  msg_channel := {| chan_type := GuildText |};
  msg_createdTimestamp := t;
  msg_editedTimestamp := None;
  msg_author := Some alice;
  msg_content := js "hello";
  msg_type := 0;
  msg_tts := false;
  msg_pinned := false;
  msg_flags := Some 0;
  msg_reference := None;
  msg_mentions := {| mentions_users := []; mentions_roles := [];
                     mentions_channels := []; mentions_everyone := false |};
  msg_attachments := [];
  msg_embeds := [];
  msg_reactions := [];
|}.

(** The window of the usage line: 2026-01-01T00:00:00+09:00 to
    2026-01-03T00:00:00+09:00. *)
Definition window_start : Z := 1767193200000.
Definition window_end : Z := 1767366000000.

Definition cfg : Config := {|
  cfg_token := js "token";
  cfg_channel := js "123456789012345678";
  cfg_outDir := js "./lake";
  cfg_start := new_Date window_start;
  cfg_end := new_Date window_end;
  cfg_redactContent := false;
|}.

Definition cfg_redacted : Config := {|
  cfg_token := js "token";
  cfg_channel := js "123456789012345678";
  cfg_outDir := js "./lake";
  cfg_start := new_Date window_start;
  cfg_end := new_Date window_end;
  cfg_redactContent := true;
|}.

(** 150 messages, ten minutes apart from 01:00 local time: the first 75
    on 2026-01-01, the other 75 on 2026-01-02. *)
Definition time_of (i : Z) : Z :=
  window_start + (i `div` 75) * msPerDay + 3600000 + (i `mod` 75) * 600000.

(** Newest first, as the gateway lists them. *)
Definition history : list Message :=
  (λ i, message (time_of i) i) <$> reverse (seqZ 0 150).

Definition general : TextBasedChannel :=
  history_channel (js "123456789012345678") (Some (js "General Chat")) history.

(** A short history: one message on each day of the window and one
    from a minute before the window. *)
Definition small_history : list Message :=
  [message (time_of 75) 2; message (time_of 0) 1; message (window_start - 60000) 0].

Definition small : TextBasedChannel :=
  history_channel (js "123456789012345678") (Some (js "General Chat")) small_history.

Definition day1 : jsstring := js "2026-01-01".
Definition day2 : jsstring := js "2026-01-02".

Definition empty_world : World := {| files := ∅; dirs := ∅; trace := [] |}.

(** A store with one partition file holding [text]. *)
Definition path1 : jsstring := js "lake/general-chat/2026-01-01/messages.json".

Definition world_with (text : jsstring) : World := {|
  files := {[ path1 := {| file_text := text; file_readable := true |} ]};
  dirs := ∅;
  trace := [];
|}.

(** The message ids of the records in a partition file, in file order. *)
Definition ids_in_file (path : jsstring) (w : World) : list jsstring :=
  match text_at path w ≫= Reference.JSON_parse with
  | Some (JArr records) =>
      omap (λ r, match get (js "message_id") r with
                 | Some (JStr id) => Some id
                 | _ => None
                 end) records
  | _ => []
  end.

End Example.

(* ===================================================================== *)
(** ** More example data *)
(* ===================================================================== *)

Module Samples.

(** The text of a JSON file holding the string [ab]. *)
Definition string_file_text : jsstring := [34; 97; 98; 34]%N.

(** The window of the usage line with its bounds exchanged. *)
Definition cfg_inverted : Config := {|
  cfg_token := js "token";
  cfg_channel := js "123456789012345678";
  cfg_outDir := js "./lake";
  cfg_start := new_Date Example.window_end;
  cfg_end := new_Date Example.window_start;
  cfg_redactContent := false;
|}.

(** [new Date] on the two date strings of the usage line; every other
    string counts as invalid here. *)
Definition Date_parse (s : jsstring) : option Z :=
  if decide (s = js "2026-01-01T00:00:00+09:00") then Some Example.window_start
  else if decide (s = js "2026-01-03T00:00:00+09:00") then Some Example.window_end
  else None.

(** The usage line, the token coming from the environment. *)
Definition values : ParsedValues := {|
  values_token := None;
  values_channel := Some (js "123456789012345678");
  values_out := js "./lake";
  values_start := Some (js "2026-01-01T00:00:00+09:00");
  values_end := Some (js "2026-01-03T00:00:00+09:00");
  values_redactContent := Some false;
|}.

(** The same with an empty [--token] flag. *)
Definition values_empty_token : ParsedValues := {|
  values_token := Some [];
  values_channel := Some (js "123456789012345678");
  values_out := js "./lake";
  values_start := Some (js "2026-01-01T00:00:00+09:00");
  values_end := Some (js "2026-01-03T00:00:00+09:00");
  values_redactContent := Some false;
|}.

(** A file of no partition. *)
Definition notes : jsstring := js "lake/notes.txt".

Definition world_with_notes : World := {|
  files := {[ notes := {| file_text := js "keep"; file_readable := true |} ]};
  dirs := {[ js "lake" ]};
  trace := [];
|}.

End Samples.


(** Closes an equation between closed terms by evaluating both sides in
    the virtual machine; the proof term stays small. *)
Ltac by_computation :=
  lazymatch goal with
  | |- ?a = ?b => vm_cast_no_check (@eq_refl _ b)
  end.

(** Decides a closed decidable proposition by evaluation. *)
Ltac decide_by_computation :=
  lazymatch goal with
  | |- ?P => apply (bool_decide_eq_true_1 P); by_computation
  end.

(* ===================================================================== *)
(** ** The record mapper *)
(* ===================================================================== *)

Lemma isThread_spec ch :
  isThread ch = true ↔
  chan_type ch = PublicThread ∨ chan_type ch = PrivateThread
  ∨ chan_type ch = AnnouncementThread.
Proof.
  unfold isThread, includes. rewrite bool_decide_eq_true.
  rewrite !elem_of_cons, elem_of_nil. tauto.
Qed.

(** C8. [thread_id] is the message's channel id exactly when the channel
    type is one of the three thread variants, and null otherwise. *)
Theorem toRecord_thread_id msg cfg :
  let is_thread_variant :=
    chan_type (msg_channel msg) = PublicThread
    ∨ chan_type (msg_channel msg) = PrivateThread
    ∨ chan_type (msg_channel msg) = AnnouncementThread in
  (get (js "thread_id") (toRecord msg cfg) = Some (JStr (msg_channelId msg))
     ↔ is_thread_variant)
  ∧ (get (js "thread_id") (toRecord msg cfg) = Some JNull ↔ ¬ is_thread_variant).
Proof.
  intros is_thread_variant.
  assert (Hget : get (js "thread_id") (toRecord msg cfg)
          = Some (if isThread (msg_channel msg) then JStr (msg_channelId msg) else JNull))
    by reflexivity.
  rewrite Hget. subst is_thread_variant. rewrite <- isThread_spec.
  destruct (isThread (msg_channel msg)); split; split; intros H;
    try reflexivity; try discriminate; try congruence.
Qed.

(** C10. A message without author maps to a null [author]; otherwise the
    author object copies id, username, discriminator, display name and
    bot flag. *)
Theorem toRecord_author msg cfg :
  get (js "author") (toRecord msg cfg) =
    Some match msg_author msg with
         | None => JNull
         | Some u =>
             JObj [(js "id", JStr (user_id u));
                   (js "username", JStr (user_username u));
                   (js "discriminator", JStr (user_discriminator u));
                   (js "globalName", nullable JStr (user_globalName u));
                   (js "bot", JBool (user_bot u))]
         end.
Proof. destruct (msg_author msg) eqn:E; unfold toRecord; rewrite E; reflexivity. Qed.

(** C2. [content] is null exactly when the redaction flag is set (and
    the original text otherwise); the keys of the record and every other
    value are the same for all configurations. *)
Theorem toRecord_redaction msg cfg :
  (get (js "content") (toRecord msg cfg) = Some JNull ↔ cfg_redactContent cfg = true)
  ∧ (get (js "content") (toRecord msg cfg) = Some (JStr (msg_content msg))
       ↔ cfg_redactContent cfg = false)
  ∧ ∀ cfg',
      (props_of (toRecord msg cfg)).*1 = (props_of (toRecord msg cfg')).*1
      ∧ ∀ k, k ≠ js "content" →
             get k (toRecord msg cfg) = get k (toRecord msg cfg').
Proof.
  assert (Hget : ∀ c, get (js "content") (toRecord msg c)
          = Some (if cfg_redactContent c then JNull else JStr (msg_content msg)))
    by reflexivity.
  rewrite Hget. split; [|split].
  - destruct (cfg_redactContent cfg); split; congruence.
  - destruct (cfg_redactContent cfg); split; congruence.
  - intros cfg'. split; [reflexivity|].
    intros k Hk. unfold toRecord, get, assoc.
    repeat (case_decide; [first [reflexivity | congruence] |]).
    reflexivity.
Qed.

Lemma toRecord_redaction_witness :
  get (js "type") (toRecord (Example.message Example.window_start 0) Example.cfg_redacted)
  = get (js "type") (toRecord (Example.message Example.window_start 0) Example.cfg).
Proof.
  apply (toRecord_redaction (Example.message Example.window_start 0) Example.cfg_redacted).
  vm_compute. discriminate.
Defined.

(* ===================================================================== *)
(** ** The channel-name sanitizer *)
(* ===================================================================== *)

Lemma replace_forbidden_id s :
  (∀ c, c ∈ s → is_forbidden c = false) → replace_forbidden s = s.
Proof.
  intros H. unfold replace_forbidden. induction s as [|c s IH]; [done|].
  cbn. rewrite (H c) by left. f_equal. apply IH. intros c' Hc'. apply H. by right.
Qed.

Lemma replace_forbidden_elem c s :
  c ∈ replace_forbidden s → is_forbidden c = false.
Proof.
  unfold replace_forbidden. rewrite list_elem_of_fmap. intros (c' & -> & _).
  destruct (is_forbidden c') eqn:E; [reflexivity | exact E].
Qed.

Lemma replace_whitespace_runs_id s :
  (∀ c, c ∈ s → is_whitespace c = false) → replace_whitespace_runs s = s.
Proof.
  intros H. induction s as [|c s IH]; [done|].
  cbn [replace_whitespace_runs]. rewrite (H c) by left. f_equal.
  apply IH. intros c' Hc'. apply H. by right.
Qed.

Lemma replace_whitespace_runs_elem c s :
  c ∈ replace_whitespace_runs s → c = dash ∨ (c ∈ s ∧ is_whitespace c = false).
Proof.
  induction s as [|x s IH]; cbn [replace_whitespace_runs]; [by rewrite elem_of_nil|].
  destruct (is_whitespace x) eqn:Ex.
  - destruct s as [|y s'].
    + rewrite list_elem_of_singleton. auto.
    + destruct (is_whitespace y) eqn:Ey.
      * intros H. destruct (IH H) as [?|[? ?]]; [auto|]. right. split; [by right|done].
      * rewrite elem_of_cons. intros [?|H]; [auto|].
        destruct (IH H) as [?|[? ?]]; [auto|]. right. split; [by right|done].
  - rewrite elem_of_cons. intros [->|H].
    + right. split; [by left|done].
    + destruct (IH H) as [?|[? ?]]; [auto|]. right. split; [by right|done].
Qed.

Lemma strip_leading_dots_id s : head s ≠ Some dot → strip_leading_dots s = s.
Proof.
  destruct s as [|c s]; [done|]. cbn. intros H.
  case_decide; [congruence | done].
Qed.

Lemma strip_leading_dots_elem c s : c ∈ strip_leading_dots s → c ∈ s.
Proof.
  induction s as [|x s IH]; [done|]. cbn.
  case_decide; [|done]. intros Hc. right. by apply IH.
Qed.

Lemma strip_leading_dots_head s : head (strip_leading_dots s) ≠ Some dot.
Proof.
  induction s as [|x s IH]; [done|]. cbn.
  case_decide; [done|]. cbn. congruence.
Qed.

(** After the three replacements no character is forbidden or
    whitespace, and the string does not start with a dot. *)
Lemma replaced_clean s c :
  c ∈ strip_leading_dots (replace_whitespace_runs (replace_forbidden s)) →
  is_forbidden c || is_whitespace c = false.
Proof.
  intros H%strip_leading_dots_elem%replace_whitespace_runs_elem.
  destruct H as [->|[H Hws]]; [reflexivity|].
  by rewrite (replace_forbidden_elem _ _ H), Hws.
Qed.

Section Sanitizer.
Context {rt : Runtime} (laws : LowerCaseLaws rt).

Lemma sanitizeChannelName_clean name c :
  c ∈ sanitizeChannelName name → is_forbidden c || is_whitespace c = false.
Proof.
  intros Hc. destruct (is_forbidden c || is_whitespace c) eqn:E; [|done].
  apply (lower_special laws) in Hc; [|done].
  by rewrite (replaced_clean _ _ Hc) in E.
Qed.

Lemma sanitizeChannelName_head name : head (sanitizeChannelName name) ≠ Some dot.
Proof.
  intros H%(lower_head_dot laws). by apply strip_leading_dots_head in H.
Qed.

(** C9. Sanitizing a sanitized name changes nothing.  The sanitizer is
    a function on all strings; its result has no forbidden character,
    no whitespace and no leading dot, which is why a second pass finds
    nothing to replace. *)
Theorem sanitizeChannelName_idempotent name :
  sanitizeChannelName (sanitizeChannelName name) = sanitizeChannelName name
  ∧ (∀ c, c ∈ sanitizeChannelName name → is_forbidden c || is_whitespace c = false)
  ∧ head (sanitizeChannelName name) ≠ Some dot.
Proof.
  assert (Hclean := sanitizeChannelName_clean name).
  assert (Hhead := sanitizeChannelName_head name).
  split; [|done].
  unfold sanitizeChannelName at 1.
  rewrite replace_forbidden_id, replace_whitespace_runs_id, strip_leading_dots_id; try done.
  - unfold sanitizeChannelName. apply (lower_idempotent laws).
  - intros c Hc. apply Hclean in Hc. by apply orb_false_elim in Hc as [_ ?].
  - intros c Hc. apply Hclean in Hc. by apply orb_false_elim in Hc as [? _].
Qed.

End Sanitizer.

Lemma Reference_lower_laws : LowerCaseLaws Reference.runtime.
Proof.
  split; cbn; unfold Reference.toLowerCase.
  - intros s. rewrite <- list_fmap_compose. apply list_fmap_ext. intros _ c _. cbn.
    repeat case_bool_decide; try done; lia.
  - intros s c. rewrite list_elem_of_fmap. intros (c' & -> & Hc').
    case_bool_decide as Hr; [|done]. intros Hsp. exfalso.
    assert (Hcases : c' ∈ (N.of_nat <$> seq 65 26)).
    { apply list_elem_of_fmap. exists (N.to_nat c'). split; [lia|].
      apply elem_of_seq. lia. }
    clear Hr Hc'. revert Hsp. cbn in Hcases.
    repeat (apply elem_of_cons in Hcases as [->|Hcases]; [vm_compute; discriminate|]).
    by apply elem_of_nil in Hcases.
  - intros [|c s]; [done|]. cbn. case_bool_decide as Hr; [|done].
    intros [= Hd]. unfold dot in Hd. lia.
Qed.


(* ===================================================================== *)
(** ** The partition writer *)
(* ===================================================================== *)

Section PartitionWriter.
Context {rt : Runtime}.

Lemma writeJson_empty path w : writeJson path [] w = Returned () (logged path [] w).
Proof. reflexivity. Qed.

Lemma writeJson_returns path records w merged :
  records ≠ [] →
  spread_elems (existing_value path w) = Some merged →
  writeJson path records w =
    Returned () (written path (JSON_stringify (JArr (merged ++ records)) 2) records w).
Proof.
  intros Hne Hsp. destruct records as [|r rs]; [done|].
  unfold writeJson, bind, emit, mkdir_recursive, read_existing. cbn.
  change (Bun_file_text path _) with (Bun_file_text path w).
  fold (existing_value path w).
  destruct (existing_value path w); cbn in *; try discriminate;
    injection Hsp as <-; reflexivity.
Qed.

Lemma writeJson_throws path records w :
  records ≠ [] →
  spread_elems (existing_value path w) = None →
  writeJson path records w =
    Thrown TypeError_not_iterable
      {| files := files w;
         dirs := dirs w ∪ list_to_set (ancestors (length (dirname path)) (dirname path));
         trace := trace w ++ [EvWriteJson path records] |}.
Proof.
  intros Hne Hsp. destruct records as [|r rs]; [done|].
  unfold writeJson, bind, emit, mkdir_recursive, read_existing. cbn.
  change (Bun_file_text path _) with (Bun_file_text path w).
  fold (existing_value path w).
  destruct (existing_value path w); cbn in *; try discriminate; reflexivity.
Qed.

(** Every call is logged, whatever its outcome, and nothing else is. *)
Lemma writeJson_trace path records w :
  trace (world_of (writeJson path records w)) = trace w ++ [EvWriteJson path records].
Proof.
  destruct records as [|r rs]; [reflexivity|].
  destruct (spread_elems (existing_value path w)) eqn:E.
  - by erewrite writeJson_returns.
  - by erewrite writeJson_throws.
Qed.

Lemma text_at_written path text records w :
  text_at path (written path text records w) = Some text.
Proof. unfold text_at, written. cbn. by rewrite lookup_insert_eq. Qed.

Lemma files_written_ne path text records w p :
  p ≠ path → files (written path text records w) !! p = files w !! p.
Proof. intros. unfold written. cbn. by rewrite lookup_insert_ne. Qed.

(** C3. Writing M > 0 records to a partition whose file parses to an
    array of N records leaves a file with the N + M records, existing
    ones first, and touches no other file; writing no record changes
    neither files nor directories. *)
Theorem writeJson_merge path w :
  (∀ text existing records,
     Bun_file_text path w = Some text →
     JSON_parse text = Some (JArr existing) →
     records ≠ [] →
     ∃ w', writeJson path records w = Returned () w'
       ∧ text_at path w' = Some (JSON_stringify (JArr (existing ++ records)) 2)
       ∧ length (existing ++ records) = (length existing + length records)%nat
       ∧ ∀ p, p ≠ path → files w' !! p = files w !! p)
  ∧ (∃ w', writeJson path [] w = Returned () w'
       ∧ files w' = files w ∧ dirs w' = dirs w).
Proof.
  split.
  - intros text existing records Htext Hparse Hne.
    eexists. split; [|split; [|split]].
    + apply writeJson_returns; [done|].
      unfold existing_value. rewrite Htext. cbn. rewrite Hparse. reflexivity.
    + apply text_at_written.
    + apply length_app.
    + intros p Hp. by apply files_written_ne.
  - eexists. split; [apply writeJson_empty|]. done.
Qed.

(** C6, as the code has it. When there is no file, or the file can be
    read and its text is not JSON, writing a non-empty list succeeds and
    the file holds exactly the new records, as for an existing empty
    array.  A file that cannot be read is left out: the [catch] swallows
    the failed read, but [Bun.write] comes after the [try], and whether
    the system lets it replace such a file is not part of [World]. *)
Theorem writeJson_unparsable path records w :
  records ≠ [] →
  (files w !! path = None
   ∨ ∃ text, Bun_file_text path w = Some text ∧ JSON_parse text = None) →
  ∃ w', writeJson path records w = Returned () w'
    ∧ text_at path w' = Some (JSON_stringify (JArr ([] ++ records)) 2)
    ∧ ∀ p, p ≠ path → files w' !! p = files w !! p.
Proof.
  intros Hne Hcase. eexists. split; [|split].
  - apply writeJson_returns; [done|].
    unfold existing_value.
    destruct Hcase as [Habsent | (text & -> & Hparse)]; cbn.
    + unfold Bun_file_text. rewrite Habsent. reflexivity.
    + rewrite Hparse. reflexivity.
  - apply text_at_written.
  - intros p Hp. by apply files_written_ne.
Qed.

End PartitionWriter.


Lemma writeJson_merge_witness :
  ∃ w', writeJson (rt := Reference.runtime) Example.path1 [JInt 3]
          (Example.world_with (js "[1, 2]")) = Returned () w'
    ∧ text_at Example.path1 w'
      = Some (Reference.JSON_stringify (JArr ([JInt 1; JInt 2] ++ [JInt 3])) 2)
    ∧ length ([JInt 1; JInt 2] ++ [JInt 3]) = (2 + 1)%nat
    ∧ ∀ p, p ≠ Example.path1 →
           files w' !! p = files (Example.world_with (js "[1, 2]")) !! p.
Proof.
  apply (proj1 (writeJson_merge (rt := Reference.runtime) Example.path1
                  (Example.world_with (js "[1, 2]")))
           (js "[1, 2]") [JInt 1; JInt 2] [JInt 3]).
  - vm_compute. reflexivity.
  - vm_compute. reflexivity.
  - discriminate.
Defined.

Lemma writeJson_unparsable_witness :
  ∃ w', writeJson (rt := Reference.runtime) Example.path1 [JInt 3]
          (Example.world_with (js "[1, 2")) = Returned () w'
    ∧ text_at Example.path1 w' = Some (Reference.JSON_stringify (JArr ([] ++ [JInt 3])) 2)
    ∧ ∀ p, p ≠ Example.path1 →
           files w' !! p = files (Example.world_with (js "[1, 2")) !! p.
Proof.
  apply (writeJson_unparsable (rt := Reference.runtime)).
  - discriminate.
  - right. exists (js "[1, 2"). split; vm_compute; reflexivity.
Defined.

(** C6 as stated fails: a file holding the JSON object [{}] parses, is
    not an array, and the write throws instead of succeeding; the file
    keeps its text. *)
Lemma writeJson_non_array_counterexample :
  Reference.JSON_parse (js "{}") = Some (JObj [])
  ∧ ∃ w', writeJson (rt := Reference.runtime) Example.path1 [JInt 3]
            (Example.world_with (js "{}")) = Thrown TypeError_not_iterable w'
      ∧ text_at Example.path1 w' = Some (js "{}")
      ∧ text_at Example.path1 w' ≠ Some (Reference.JSON_stringify (JArr [JInt 3]) 2).
Proof.
  split; [vm_compute; reflexivity|].
  eexists. split; [|split].
  - apply writeJson_throws; [discriminate|]. vm_compute. reflexivity.
  - vm_compute. reflexivity.
  - vm_compute. discriminate.
Qed.

(* ===================================================================== *)
(** ** Sorting and grouping *)
(* ===================================================================== *)

Section Sorting.
Context {A : Type} (compare : A → A → Z).

Lemma sort_insert_Permutation a l : sort_insert compare a l ≡ₚ a :: l.
Proof.
  induction l as [|b l IH]; cbn; [done|].
  case_decide; [done|]. rewrite IH. apply Permutation_swap.
Qed.

Lemma Array_sort_Permutation l : Array_sort compare l ≡ₚ l.
Proof.
  unfold Array_sort. induction l as [|a l IH]; cbn; [done|].
  rewrite sort_insert_Permutation. by f_equiv.
Qed.

Context (key : A → Z) (Hcompare : ∀ a b, compare a b = key a - key b).

Lemma sort_insert_sorted a l :
  StronglySorted (by_key key) l → StronglySorted (by_key key) (sort_insert compare a l).
Proof.
  induction 1 as [|b l Hl IH Hb]; cbn.
  - repeat constructor.
  - case_decide as Hc; rewrite Hcompare in Hc.
    + constructor; [by constructor|].
      constructor; [unfold by_key; lia|].
      eapply Forall_impl; [exact Hb|]. unfold by_key. intros; cbn in *. lia.
    + constructor; [exact IH|].
      rewrite sort_insert_Permutation. constructor; [unfold by_key; lia | exact Hb].
Qed.

Lemma Array_sort_sorted l : StronglySorted (by_key key) (Array_sort compare l).
Proof.
  unfold Array_sort. induction l as [|a l IH]; cbn; [constructor|].
  by apply sort_insert_sorted.
Qed.

End Sorting.

Lemma StronglySorted_filter {A} (R : A → A → Prop) (P : A → Prop)
    `{∀ x, Decision (P x)} l :
  StronglySorted R l → StronglySorted R (filter P l).
Proof.
  induction 1 as [|a l Hl IH Ha]; [constructor|].
  rewrite filter_cons. case_decide; [|done].
  constructor; [done|].
  apply Forall_forall. intros y [_ Hy]%list_elem_of_filter.
  by eapply Forall_forall in Ha.
Qed.

Section Grouping.
Context {K A : Type} `{EqDecision K} (key : A → K).

Implicit Types (G : list (K * list A)) (k : K) (x : A) (g : list A).

Lemma group_lookup_add k x G k' :
  group_lookup k' (group_add k x G) =
    if decide (k = k') then Some (default [] (group_lookup k G) ++ [x])
    else group_lookup k' G.
Proof.
  induction G as [|[k1 g1] G IH]; cbn.
  - done.
  - destruct (decide (k1 = k)) as [->|Hk1]; cbn.
    + repeat case_decide; cbn; congruence.
    + rewrite IH. repeat case_decide; congruence.
Qed.

Lemma group_add_keys k x G :
  (group_add k x G).*1 = if decide (k ∈ G.*1) then G.*1 else G.*1 ++ [k].
Proof.
  induction G as [|[k' g'] G IH]; cbn.
  - rewrite decide_False; [done|]. apply not_elem_of_nil.
  - destruct (decide (k' = k)) as [->|Hne]; cbn.
    + rewrite decide_True; [done|]. apply elem_of_cons. by left.
    + rewrite IH. destruct (decide (k ∈ G.*1)) as [Hin|Hin].
      * rewrite decide_True; [done|]. apply elem_of_cons. by right.
      * rewrite decide_False; [done|]. intros [?|?]%elem_of_cons; done.
Qed.

Lemma group_add_NoDup k x G : NoDup G.*1 → NoDup (group_add k x G).*1.
Proof.
  intros HG. rewrite group_add_keys. case_decide; [done|].
  apply NoDup_app. split; [done|]. split; [|apply NoDup_singleton].
  intros k' Hk' ->%list_elem_of_singleton. done.
Qed.

Lemma group_add_concat k x G : concat (group_add k x G).*2 ≡ₚ x :: concat G.*2.
Proof.
  induction G as [|[k' g'] G IH]; cbn; [done|].
  case_decide; cbn.
  - rewrite <- app_assoc. cbn. by rewrite <- Permutation_middle.
  - rewrite IH. by rewrite <- Permutation_middle.
Qed.

Lemma group_lookup_elem G k g :
  NoDup G.*1 → (k, g) ∈ G ↔ group_lookup k G = Some g.
Proof.
  induction G as [|[k1 g1] G IH]; cbn.
  - intros _. split; [intros []%elem_of_nil | done].
  - intros [Hk1 HG]%NoDup_cons. rewrite elem_of_cons, (IH HG). case_decide as Hk.
    + subst. split; [|intros [= ->]; by left].
      intros [[= ->]|Hl]; [done|]. exfalso. apply Hk1.
      apply (IH HG) in Hl. apply list_elem_of_fmap. by exists (k, g).
    + split; [|by right]. intros [[= -> ->]|Hl]; done.
Qed.

(** The groups of the items seen so far. *)
Lemma foldl_group_add G l :
  let G' := foldl (λ groups x, group_add (key x) x groups) G l in
  (NoDup G.*1 → NoDup G'.*1)
  ∧ (∀ k, group_lookup k G' =
          match filter (λ x, key x = k) l with
          | [] => group_lookup k G
          | g => Some (default [] (group_lookup k G) ++ g)
          end)
  ∧ concat G'.*2 ≡ₚ concat G.*2 ++ l.
Proof.
  revert G. induction l as [|x l IH]; intros G; cbn [foldl].
  - cbn. split; [done|]. split; [done|]. by rewrite app_nil_r.
  - destruct (IH (group_add (key x) x G)) as (IH1 & IH2 & IH3). split; [|split].
    + intros HG. by apply IH1, group_add_NoDup.
    + intros k. rewrite IH2, group_lookup_add, filter_cons.
      destruct (decide (key x = k)) as [Hx|Hx]; cbn.
      * subst k. destruct (filter _ l); cbn; [done|]. by rewrite <- app_assoc.
      * done.
    + rewrite IH3, group_add_concat. by rewrite <- Permutation_middle.
Qed.

Lemma Map_groupBy_NoDup l : NoDup (Map_groupBy key l).*1.
Proof. apply (foldl_group_add [] l). constructor. Qed.

Lemma Map_groupBy_lookup l k :
  group_lookup k (Map_groupBy key l) =
    match filter (λ x, key x = k) l with [] => None | g => Some g end.
Proof. by rewrite (proj1 (proj2 (foldl_group_add [] l))). Qed.

Lemma Map_groupBy_concat l : concat (Map_groupBy key l).*2 ≡ₚ l.
Proof. apply (foldl_group_add [] l). Qed.

Lemma Map_groupBy_elem l k g :
  (k, g) ∈ Map_groupBy key l ↔ g = filter (λ x, key x = k) l ∧ g ≠ [].
Proof.
  rewrite group_lookup_elem by apply Map_groupBy_NoDup.
  rewrite Map_groupBy_lookup. destruct (filter _ l) eqn:E.
  - split; [done|]. intros [-> ?]. done.
  - split; [intros [= <-]; done | intros [-> _]; done].
Qed.

Lemma Map_groupBy_keys l k :
  k ∈ (Map_groupBy key l).*1 ↔ ∃ x, x ∈ l ∧ key x = k.
Proof.
  rewrite list_elem_of_fmap. split.
  - intros ([k' g] & -> & [-> Hg]%Map_groupBy_elem). cbn.
    destruct (filter _ l) as [|x g'] eqn:E; [done|].
    assert (Hx : x ∈ filter (λ x, key x = k') l) by (rewrite E; left).
    apply list_elem_of_filter in Hx as [? ?]. eauto.
  - intros (x & Hx & <-). exists (key x, filter (λ y, key y = key x) l).
    split; [done|]. apply Map_groupBy_elem. split; [done|].
    intros Hnil. assert (Hin : x ∈ filter (λ y, key y = key x) l)
      by (by apply list_elem_of_filter).
    rewrite Hnil in Hin. by apply elem_of_nil in Hin.
Qed.

(** The groups are determined by their keys. *)
Lemma Map_groupBy_eq l :
  Map_groupBy key l =
    (λ k, (k, filter (λ x, key x = k) l)) <$> (Map_groupBy key l).*1.
Proof.
  assert (H : ∀ k g, (k, g) ∈ Map_groupBy key l → g = filter (λ x, key x = k) l).
  { intros k g [? _]%Map_groupBy_elem. done. }
  induction (Map_groupBy key l) as [|[k g] G IH]; cbn; [done|].
  f_equal.
  - f_equal. apply H. left.
  - apply IH. intros k' g' Hin. apply H. by right.
Qed.

End Grouping.

(* ===================================================================== *)
(** ** Calendar dates *)
(* ===================================================================== *)

Lemma check_years_spec n yoe0 yoe :
  check_years n yoe0 = true → yoe0 ≤ yoe < yoe0 + Z.of_nat n →
  year_of_era (year_start yoe) = yoe
  ∧ year_of_era (year_start (yoe + 1) - 1) = yoe
  ∧ year_start yoe + 365 ≤ year_start (yoe + 1) ≤ year_start yoe + 366.
Proof.
  revert yoe0. induction n as [|n IH]; intros yoe0 Hc Hy; [lia|].
  cbn [check_years] in Hc. repeat (apply andb_prop in Hc as [Hc ?]).
  destruct (decide (yoe = yoe0)) as [->|]; [lia|].
  apply (IH (yoe0 + 1)); [done|lia].
Qed.

Lemma check_days_spec n doy0 prev doy :
  check_days n doy0 prev = true → doy0 ≤ doy < doy0 + Z.of_nat n →
  let date := year_date doy in
  1 ≤ date.1.2 ≤ 12 ∧ 1 ≤ date.2 ≤ 31 ∧ date_key date ≤ 10231
  ∧ (if decide (doy = doy0) then prev else date_key (year_date (doy - 1))) < date_key date.
Proof.
  revert doy0 prev. induction n as [|n IH]; intros doy0 prev Hc Hk; [lia|].
  cbn [check_days] in Hc. cbv zeta in Hc.
  repeat (apply andb_prop in Hc as [Hc ?]).
  destruct (decide (doy = doy0)) as [->|Hne].
  - cbv zeta. lia.
  - specialize (IH (doy0 + 1) _ ltac:(eassumption) ltac:(lia)). cbv zeta in IH.
    destruct IH as (? & ? & ? & Hprev). cbv zeta. repeat split; try lia.
    destruct (decide (doy = doy0 + 1)) as [->|]; [|done].
    by replace (doy0 + 1 - 1) with doy0 by lia.
Qed.

Lemma years_ok : check_years 400 0 = true.
Proof. by_computation. Qed.

Lemma days_ok : check_days 366 0 300 = true.
Proof. by_computation. Qed.

Lemma year_spec yoe :
  0 ≤ yoe < 400 →
  year_of_era (year_start yoe) = yoe
  ∧ year_of_era (year_start (yoe + 1) - 1) = yoe
  ∧ year_start yoe + 365 ≤ year_start (yoe + 1) ≤ year_start yoe + 366.
Proof. intros H. apply (check_years_spec 400 0); [exact years_ok|lia]. Qed.

Lemma day_spec doy :
  0 ≤ doy < 366 →
  let date := year_date doy in
  1 ≤ date.1.2 ≤ 12 ∧ 1 ≤ date.2 ≤ 31 ∧ 301 ≤ date_key date ≤ 10231
  ∧ (0 < doy → date_key (year_date (doy - 1)) < date_key date).
Proof.
  intros H. cbv zeta.
  destruct (check_days_spec 366 0 300 doy days_ok ltac:(lia)) as (? & ? & ? & Hprev).
  cbv zeta in Hprev. repeat split; try lia.
  - destruct (decide (doy = 0)) as [->|]; [by vm_compute|].
    assert (Hchain : ∀ n : nat, Z.of_nat n < 366 → 301 ≤ date_key (year_date (Z.of_nat n))).
    { clear. induction n as [|n IH]; intros Hn; [by vm_compute|].
      destruct (check_days_spec 366 0 300 (Z.of_nat (S n)) days_ok ltac:(lia))
        as (_ & _ & _ & Hprev). cbv zeta in Hprev.
      destruct (decide _) as [|_]; [lia|].
      replace (Z.of_nat (S n) - 1) with (Z.of_nat n) in Hprev by lia.
      specialize (IH ltac:(lia)). lia. }
    specialize (Hchain (Z.to_nat doy)). rewrite Z2Nat.id in Hchain by lia. apply Hchain. lia.
  - intros Hpos. destruct (decide (doy = 0)); [lia|done].
Qed.

(** The year of the era does not decrease from one day to the next. *)
Lemma year_of_era_step doe :
  0 ≤ doe < 146096 → year_of_era doe ≤ year_of_era (doe + 1).
Proof.
  intros H. unfold year_of_era. apply Z.div_le_mono; [lia|].
  destruct (decide (doe + 1 = 146096)) as [Hlast|Hlast].
  - replace doe with 146095 by lia. by vm_compute.
  - rewrite (Z.div_small doe 146096), (Z.div_small (doe + 1) 146096) by lia.
    Z.div_mod_to_equations. lia.
Qed.

Lemma year_of_era_mono doe doe' :
  0 ≤ doe → doe ≤ doe' → doe' ≤ 146096 → year_of_era doe ≤ year_of_era doe'.
Proof.
  intros H0 Hle Hmax.
  replace doe' with (doe + Z.of_nat (Z.to_nat (doe' - doe))) in * by lia.
  induction (Z.to_nat (doe' - doe)) as [|n IH]; [by rewrite Z.add_0_r|].
  etrans; [apply IH; lia|].
  replace (doe + Z.of_nat (S n)) with (doe + Z.of_nat n + 1) by lia.
  apply year_of_era_step. lia.
Qed.

Lemma year_start_bounds : year_start 0 = 0 ∧ year_start 400 = 146097.
Proof. split; reflexivity. Qed.

(** Every day of the era lies in the year of the era computed for it. *)
Lemma year_of_era_spec doe :
  0 ≤ doe < 146097 →
  0 ≤ year_of_era doe < 400
  ∧ year_start (year_of_era doe) ≤ doe < year_start (year_of_era doe + 1).
Proof.
  intros H.
  assert (Hlocate : ∀ n : nat, Z.of_nat n ≤ 400 → doe < year_start (Z.of_nat n) →
            ∃ yoe, 0 ≤ yoe < Z.of_nat n ∧ year_start yoe ≤ doe < year_start (yoe + 1)).
  { induction n as [|n IH]; intros Hn Hlt; [change (year_start (Z.of_nat 0)) with 0 in Hlt; lia|].
    replace (Z.of_nat (S n)) with (Z.of_nat n + 1) in * by lia.
    destruct (decide (year_start (Z.of_nat n) ≤ doe)).
    - exists (Z.of_nat n). lia.
    - destruct IH as (yoe & ? & ?); [lia..|]. exists yoe. lia. }
  destruct (Hlocate 400%nat) as (yoe & Hy & Hdoe);
    [lia|replace (Z.of_nat 400) with 400 by lia; rewrite (proj2 year_start_bounds); lia|].
  destruct (year_spec yoe) as (Hfirst & Hlast & Hlen); [lia|].
  assert (year_of_era doe = yoe) as ->; [|lia].
  pose proof (year_of_era_mono (year_start yoe) doe) as Hlow.
  pose proof (year_of_era_mono doe (year_start (yoe + 1) - 1)) as Hhigh.
  assert (0 ≤ year_start yoe).
  { unfold year_start. Z.div_mod_to_equations. lia. }
  assert (year_start (yoe + 1) ≤ 146097).
  { destruct (year_start_bounds) as [_ <-]. unfold year_start. Z.div_mod_to_equations. lia. }
  rewrite Hfirst in Hlow. rewrite Hlast in Hhigh. lia.
Qed.

Lemma era_date_year doe :
  0 ≤ year_of_era doe < 400 →
  era_date doe =
    let date := year_date (doe - year_start (year_of_era doe)) in
    (year_of_era doe + date.1.1, date.1.2, date.2).
Proof.
  intros Hy. unfold era_date, year_date, year_start. fold (year_of_era doe). cbv zeta.
  rewrite (Z.div_small (year_of_era doe) 400) by lia. rewrite Z.add_0_r. done.
Qed.

Lemma date_key_year (yoe : Z) (date : Z * Z * Z) :
  date_key (yoe + date.1.1, date.1.2, date.2) = yoe * 10000 + date_key date.
Proof. unfold date_key. cbn [fst snd]. lia. Qed.

Lemma era_date_spec doe : 0 ≤ doe < 146097 → era_date_ok doe.
Proof.
  intros H. unfold era_date_ok. cbv zeta.
  destruct (year_of_era_spec doe H) as (Hy & Hdoe).
  destruct (year_spec _ Hy) as (Hfirst & Hlast & Hlen).
  rewrite (era_date_year doe Hy). cbv zeta. rewrite date_key_year. cbn [fst snd].
  destruct (day_spec (doe - year_start (year_of_era doe)) ltac:(lia))
    as (Hm & Hd & Hk & _). cbv zeta in *.
  split; [done|]. split; [done|]. split; [lia|]. intros Hnext.
  destruct (year_of_era_spec (doe + 1) ltac:(lia)) as (Hy' & Hdoe').
  rewrite (era_date_year (doe + 1) Hy'). cbv zeta. rewrite date_key_year.
  destruct (day_spec (doe + 1 - year_start (year_of_era (doe + 1))) ltac:(
    destruct (year_spec _ Hy') as (_ & _ & ?); lia)) as (_ & _ & Hk' & Hprev).
  cbv zeta in *.
  pose proof (year_of_era_step doe ltac:(lia)) as Hstep.
  destruct (decide (year_of_era (doe + 1) = year_of_era doe)) as [Heq|Hne].
  - rewrite Heq in *.
    replace (doe + 1 - year_start (year_of_era doe) - 1)
      with (doe - year_start (year_of_era doe)) in Hprev by lia.
    specialize (Hprev ltac:(lia)). lia.
  - lia.
Qed.

Lemma civil_from_days_era days :
  civil_from_days days =
    let era := (days + 719468) `div` 146097 in
    let date := era_date ((days + 719468) `mod` 146097) in
    (date.1.1 + era * 400, date.1.2, date.2).
Proof.
  unfold civil_from_days, era_date. cbv zeta. cbn [fst snd].
  rewrite Z.mod_eq by lia.
  replace (146097 * ((days + 719468) `div` 146097))
    with ((days + 719468) `div` 146097 * 146097) by lia.
  f_equal. f_equal. lia.
Qed.

Lemma era_date_monotone doe doe' :
  0 ≤ doe → doe < doe' → doe' < 146097 →
  date_key (era_date doe) < date_key (era_date doe').
Proof.
  intros H0 Hlt Hmax.
  replace doe' with (doe + 1 + Z.of_nat (Z.to_nat (doe' - doe - 1))) in * by lia.
  induction (Z.to_nat (doe' - doe - 1)) as [|n IH].
  - rewrite Z.add_0_r. apply era_date_spec; lia.
  - etrans; [apply IH; lia|].
    replace (doe + 1 + Z.of_nat (S n)) with (doe + 1 + Z.of_nat n + 1) by lia.
    apply era_date_spec; lia.
Qed.

Lemma date_key_eras (e e' : Z) (a a' : Z * Z * Z) :
  301 ≤ date_key a ≤ 4000231 → 301 ≤ date_key a' ≤ 4000231 →
  e < e' ∨ (e = e' ∧ date_key a < date_key a') →
  date_key (a.1.1 + e * 400, a.1.2, a.2) < date_key (a'.1.1 + e' * 400, a'.1.2, a'.2).
Proof.
  destruct a as [[y m] d], a' as [[y' m'] d']. unfold date_key. cbn [fst snd]. lia.
Qed.

(** Later days have later dates. *)
Lemma civil_from_days_monotone days days' :
  days < days' → date_key (civil_from_days days) < date_key (civil_from_days days').
Proof.
  intros Hlt. rewrite !civil_from_days_era. cbv zeta.
  pose proof (Z.mod_pos_bound (days + 719468) 146097 eq_refl) as Hm.
  pose proof (Z.mod_pos_bound (days' + 719468) 146097 eq_refl) as Hm'.
  pose proof (Z.div_mod (days + 719468) 146097 ltac:(lia)) as Hd.
  pose proof (Z.div_mod (days' + 719468) 146097 ltac:(lia)) as Hd'.
  destruct (era_date_spec _ Hm) as (_ & _ & Hk & _).
  destruct (era_date_spec _ Hm') as (_ & _ & Hk' & _).
  apply date_key_eras; [done..|].
  destruct (decide ((days + 719468) `div` 146097 = (days' + 719468) `div` 146097))
    as [He|He]; [right|left; lia].
  split; [done|]. apply era_date_monotone; lia.
Qed.

Lemma civil_from_days_inj days days' :
  civil_from_days days = civil_from_days days' → days = days'.
Proof.
  intros Heq. destruct (Z.lt_trichotomy days days') as [H|[H|H]]; [|done|];
    apply civil_from_days_monotone in H; rewrite Heq in H; lia.
Qed.

Lemma civil_from_days_bounds days :
  1 ≤ (civil_from_days days).1.2 ≤ 12 ∧ 1 ≤ (civil_from_days days).2 ≤ 31.
Proof.
  rewrite civil_from_days_era. cbv zeta. cbn [fst snd].
  pose proof (Z.mod_pos_bound (days + 719468) 146097 eq_refl) as Hm.
  destruct (era_date_spec _ Hm) as (? & ? & _). done.
Qed.

(* ===================================================================== *)
(** ** Partition keys *)
(* ===================================================================== *)

Lemma js_inj s s' : js s = js s' → s = s'.
Proof.
  unfold js. intros H.
  assert (String.list_ascii_of_string s = String.list_ascii_of_string s') as Hl.
  { revert H. generalize (String.list_ascii_of_string s) (String.list_ascii_of_string s').
    induction l as [|a l IH]; intros [|a' l'] H; try done.
    cbn in H. injection H as Ha Hl. f_equal; [|by apply IH].
    by rewrite <- (ascii_N_embedding a), <- (ascii_N_embedding a'), Ha. }
  by rewrite <- (String.string_of_list_ascii_of_string s),
    <- (String.string_of_list_ascii_of_string s'), Hl.
Qed.

Lemma to_int_nonnil n :
  Z.to_int n ≠ Decimal.Pos Decimal.Nil ∧ Z.to_int n ≠ Decimal.Neg Decimal.Nil.
Proof.
  destruct n as [|p|p]; cbn; split; try done;
    intros [= H]; by apply Unsigned.to_uint_nonnil in H.
Qed.

(** [String(n)] tells integers apart. *)
Lemma String_of_int_inj n n' : String_of_int n = String_of_int n' → n = n'.
Proof.
  unfold String_of_int. intros H%js_inj. apply to_int_inj.
  destruct (to_int_nonnil n), (to_int_nonnil n').
  assert (Some (Z.to_int n) = Some (Z.to_int n')) as [= ->]; [|done].
  rewrite <- !NilZero.isi by done. by rewrite H.
Qed.

Lemma check_pad_spec width n from k :
  check_pad width n from = true → from ≤ k < from + Z.of_nat n → pad_ok width k.
Proof.
  revert from. induction n as [|n IH]; intros from Hc Hk; [lia|].
  cbn [check_pad] in Hc. cbv zeta in Hc. repeat (apply andb_prop in Hc as [Hc ?]).
  destruct (decide (k = from)) as [->|].
  - split; [by apply Nat.eqb_eq|by apply Z.eqb_eq].
  - apply (IH (from + 1)); [done|lia].
Qed.

Lemma pad_2_ok : check_pad 2 100 0 = true.
Proof. by_computation. Qed.

Lemma pad_2_spec n : 0 ≤ n < 100 → pad_ok 2 n.
Proof. intros H. apply (check_pad_spec 2 100 0); [exact pad_2_ok|lia]. Qed.

(** The text [Y-MM-DD] determines the date. *)
Lemma date_text_inj (y m d y' m' d' : Z) :
  0 ≤ m < 100 → 0 ≤ d < 100 → 0 ≤ m' < 100 → 0 ≤ d' < 100 →
  String_of_int y ++ js "-" ++ pad 2 m ++ js "-" ++ pad 2 d
  = String_of_int y' ++ js "-" ++ pad 2 m' ++ js "-" ++ pad 2 d' →
  y = y' ∧ m = m' ∧ d = d'.
Proof.
  intros Hm Hd Hm' Hd' Heq.
  destruct (pad_2_spec m Hm) as [Hl1 Hv1], (pad_2_spec d Hd) as [Hl2 Hv2].
  destruct (pad_2_spec m' Hm') as [Hl1' Hv1'], (pad_2_spec d' Hd') as [Hl2' Hv2'].
  apply app_inj_2 in Heq as [Hy Heq];
    [|rewrite !length_app, Hl1, Hl2, Hl1', Hl2'; done].
  apply String_of_int_inj in Hy.
  change (js "-") with [45%N] in Heq. cbn [app] in Heq.
  injection Heq as Heq. apply app_inj_1 in Heq as [Hmm Heq]; [|by rewrite Hl1, Hl1'].
  injection Heq as Heq. split; [done|]. split; congruence.
Qed.

Section LocalDates.
Context {rt : Runtime}.

(** [localDate] writes the calendar date of the day of local time. *)
Lemma localDate_text (d : Date) :
  localDate d = date_text (civil_from_days (Day (LocalTime (getTime d)))).
Proof.
  unfold localDate, date_text, pad, getFullYear, getMonth, getDate,
    YearFromTime, MonthFromTime, DateFromTime. cbv zeta.
  by replace ((civil_from_days (Day (LocalTime (getTime d)))).1.2 - 1 + 1)
    with (civil_from_days (Day (LocalTime (getTime d)))).1.2 by lia.
Qed.

Lemma date_text_day (days days' : Z) :
  date_text (civil_from_days days) = date_text (civil_from_days days') → days = days'.
Proof.
  destruct (civil_from_days_bounds days) as [Hm Hd].
  destruct (civil_from_days_bounds days') as [Hm' Hd'].
  pose proof (civil_from_days_inj days days') as Hinj.
  destruct (civil_from_days days) as [[y m] dd], (civil_from_days days') as [[y' m'] dd'].
  cbn [fst snd] in *. unfold date_text. cbn [fst snd]. intros Heq.
  apply date_text_inj in Heq as (-> & -> & ->); [|lia..]. by apply Hinj.
Qed.

Lemma localDate_day (d d' : Date) :
  localDate d = localDate d' →
  Day (LocalTime (getTime d)) = Day (LocalTime (getTime d')).
Proof. rewrite !localDate_text. apply date_text_day. Qed.

(** X10. The partition key tells the local calendar days apart: two
    instants get the same [localDate] exactly when they fall on the same
    day of local time.  No two days share a partition directory, in any
    year and for any time zone offset. *)
Theorem localDate_same_day_iff (d d' : Date) :
  localDate d = localDate d' ↔
  Day (LocalTime (getTime d)) = Day (LocalTime (getTime d')).
Proof.
  split; [apply localDate_day|].
  intros Heq. by rewrite !localDate_text, Heq.
Qed.

End LocalDates.

(* ===================================================================== *)
(** ** Writing a page *)
(* ===================================================================== *)

Lemma for_of_ext {A} (l : list A) (body1 body2 : A → M unit) :
  (∀ x, x ∈ l → body1 x = body2 x) → for_of l body1 = for_of l body2.
Proof.
  induction l as [|x l IH]; intros H; cbn; [done|].
  rewrite (H x) by (apply elem_of_cons; by left).
  rewrite IH; [done|]. intros y Hy. apply H. apply elem_of_cons. by right.
Qed.

Lemma for_of_fmap {A B} (f : A → B) (l : list A) (body : B → M unit) :
  for_of (f <$> l) body = for_of l (λ x, body (f x)).
Proof. induction l as [|x l IH]; cbn; [done|]. by rewrite IH. Qed.

Section WritingAPage.
Context {rt : Runtime}.

Lemma dates_of_NoDup msgs : NoDup (dates_of msgs).
Proof. apply Map_groupBy_NoDup. Qed.

Lemma elem_of_day_batch dt msgs m :
  m ∈ day_batch dt msgs ↔ m ∈ msgs ∧ createdDate m = dt.
Proof.
  unfold day_batch. rewrite list_elem_of_filter, Array_sort_Permutation. tauto.
Qed.

Lemma elem_of_dates_of msgs dt :
  dt ∈ dates_of msgs ↔ ∃ m, m ∈ msgs ∧ createdDate m = dt.
Proof.
  unfold dates_of. rewrite Map_groupBy_keys.
  by setoid_rewrite Array_sort_Permutation.
Qed.

Lemma day_batch_nonempty dt msgs : dt ∈ dates_of msgs → day_batch dt msgs ≠ [].
Proof.
  intros (m & Hm & Hdt)%elem_of_dates_of Hnil.
  assert (H : m ∈ day_batch dt msgs) by (by apply elem_of_day_batch).
  rewrite Hnil in H. by apply elem_of_nil in H.
Qed.

Lemma day_batch_sorted dt msgs : StronglySorted by_createdTimestamp (day_batch dt msgs).
Proof.
  apply StronglySorted_filter.
  by apply Array_sort_sorted.
Qed.

Lemma day_batches_Permutation msgs :
  concat ((λ dt, day_batch dt msgs) <$> dates_of msgs) ≡ₚ msgs.
Proof.
  unfold dates_of, day_batch.
  set (sorted := Array_sort _ msgs).
  assert (Hsnd : (Map_groupBy createdDate sorted).*2
                 = (λ dt, filter (λ m, createdDate m = dt) sorted)
                     <$> (Map_groupBy createdDate sorted).*1).
  { rewrite (Map_groupBy_eq createdDate sorted) at 1.
    by rewrite <- list_fmap_compose. }
  rewrite <- Hsnd, Map_groupBy_concat. apply Array_sort_Permutation.
Qed.

(** [writeMessages] makes the planned calls, in order. *)
Lemma writeMessages_write_all cfg msgs name :
  writeMessages cfg msgs name = write_all (planned_calls cfg msgs name).
Proof.
  destruct msgs as [|m0 ms]; [reflexivity|].
  unfold writeMessages, write_all, planned_calls.
  set (msgs := m0 :: ms).
  rewrite for_of_fmap.
  rewrite (Map_groupBy_eq createdDate) at 1. rewrite for_of_fmap.
  apply for_of_ext. intros dt Hdt. cbv beta. cbn [fst snd].
  pose proof (day_batch_nonempty dt msgs Hdt) as Hne.
  unfold day_batch in *.
  destruct (filter _ _); [done|]. reflexivity.
Qed.

Lemma write_all_trace calls w :
  ∃ n, trace (world_of (write_all calls w)) = trace w ++ (call_event <$> take n calls)
       ∧ (∀ w', write_all calls w ≠ Running w')
       ∧ (∀ w', write_all calls w = Returned () w' → n = length calls).
Proof.
  revert w. induction calls as [|[p rs] calls IH]; intros w.
  - exists 0%nat. cbn. rewrite app_nil_r. done.
  - unfold write_all. cbn [for_of]. unfold bind. cbn [fst snd].
    pose proof (writeJson_trace p rs w) as Ht.
    destruct (writeJson p rs w) as [[] w1|e w1|w1] eqn:E; cbn in Ht.
    + destruct (IH w1) as (n & Hn & Hrun & Hret). exists (S n).
      fold (write_all calls). split; [|split].
      * rewrite Hn, Ht. cbn. by rewrite <- app_assoc.
      * exact Hrun.
      * intros w' Hw'. cbn. f_equal. by eapply Hret.
    + exists 1%nat. cbn. rewrite take_0. done.
    + exfalso. destruct rs as [|r rs]; [discriminate|].
      destruct (spread_elems (existing_value p w)) eqn:Es.
      * erewrite writeJson_returns in E; done.
      * erewrite writeJson_throws in E; done.
Qed.

(** C5. The messages handed to the write step are grouped by local
    calendar date: the key of a message is the text [Y-MM-DD] of the
    calendar date of the day of local time on which it was created, so
    that two messages have the same key exactly when they were created
    on the same local day; there is one call of the writer per date
    present, to the partition file of that date, with exactly the
    messages of that date, in ascending order of creation time; every
    message is in one batch. *)
Theorem writeMessages_partitions cfg msgs name w :
  let dates := dates_of msgs in
  let call_for dt :=
    EvWriteJson (join [cfg_outDir cfg; sanitizeChannelName name; dt; js "messages.json"])
                ((λ m, toRecord m cfg) <$> day_batch dt msgs) in
  (∀ m, createdDate m = date_text (civil_from_days (local_day m)))
  ∧ (∀ m m', createdDate m = createdDate m' ↔ local_day m = local_day m')
  ∧ (∀ m m' dt, m ∈ day_batch dt msgs → m' ∈ msgs →
       (m' ∈ day_batch dt msgs ↔ local_day m' = local_day m))
  ∧ NoDup dates
  ∧ (∀ dt, dt ∈ dates ↔ ∃ m, m ∈ msgs ∧ createdDate m = dt)
  ∧ (∀ dt m, m ∈ day_batch dt msgs ↔ m ∈ msgs ∧ createdDate m = dt)
  ∧ (∀ dt, StronglySorted by_createdTimestamp (day_batch dt msgs))
  ∧ concat ((λ dt, day_batch dt msgs) <$> dates) ≡ₚ msgs
  ∧ (∀ w', writeMessages cfg msgs name w = Returned () w' →
           trace w' = trace w ++ (call_for <$> dates))
  ∧ ∃ n, trace (world_of (writeMessages cfg msgs name w))
         = trace w ++ (call_for <$> take n dates).
Proof.
  intros dates call_for.
  assert (Hkey : ∀ m m', createdDate m = createdDate m' ↔ local_day m = local_day m').
  { intros m m'. unfold createdDate, local_day. split.
    - intros Heq%localDate_day. exact Heq.
    - intros Heq. rewrite !localDate_text. cbn [getTime]. by rewrite Heq. }
  split; [intros m; apply localDate_text|].
  split; [exact Hkey|].
  split.
  { intros m m' dt [_ Hm]%elem_of_day_batch Hm'. rewrite elem_of_day_batch, <- Hkey.
    split; [intros [_ ?]; congruence|intros ?; split; [done|congruence]]. }
  split; [apply dates_of_NoDup|].
  split; [intros; apply elem_of_dates_of|].
  split; [intros; apply elem_of_day_batch|].
  split; [intros; apply day_batch_sorted|].
  split; [apply day_batches_Permutation|].
  rewrite writeMessages_write_all.
  destruct (write_all_trace (planned_calls cfg msgs name) w) as (n & Hn & _ & Hret).
  assert (Hev : ∀ k, call_event <$> take k (planned_calls cfg msgs name)
                     = call_for <$> take k dates).
  { intros k. unfold planned_calls. rewrite <- fmap_take, <- list_fmap_compose. done. }
  split.
  - intros w' Hw'. specialize (Hret w' Hw'). rewrite Hw' in Hn. cbn in Hn.
    rewrite Hn, Hev. subst n. unfold planned_calls. rewrite length_fmap.
    by rewrite firstn_all.
  - exists n. by rewrite Hn, Hev.
Qed.

End WritingAPage.

(* ===================================================================== *)
(** ** The traversal *)
(* ===================================================================== *)

Section Traversal.
Context {rt : Runtime}.

(** What [writeMessages] adds to the trace, whatever its outcome. *)
Lemma writeMessages_trace cfg msgs name w :
  ∃ n, trace (world_of (writeMessages cfg msgs name w))
       = trace w ++ (call_event <$> take n (planned_calls cfg msgs name))
       ∧ (∀ w', writeMessages cfg msgs name w ≠ Running w').
Proof.
  rewrite writeMessages_write_all.
  destruct (write_all_trace (planned_calls cfg msgs name) w) as (n & Hn & Hrun & _).
  eauto.
Qed.

(** The records of a planned call are the images of messages of the
    batch. *)
Lemma planned_calls_records cfg msgs name call r :
  call ∈ planned_calls cfg msgs name → r ∈ call.2 →
  ∃ m, r = toRecord m cfg ∧ m ∈ msgs.
Proof.
  unfold planned_calls. intros (dt & -> & Hdt)%list_elem_of_fmap. cbn.
  intros (m & -> & Hm%elem_of_day_batch)%list_elem_of_fmap.
  exists m. tauto.
Qed.

Lemma window_invariant_app cfg evs1 evs2 :
  window_invariant cfg evs1 → window_invariant cfg evs2 →
  window_invariant cfg (evs1 ++ evs2).
Proof.
  intros H1 H2 path records r [Hin|Hin]%elem_of_app Hr.
  - destruct (H1 _ _ _ Hin Hr) as (m & limit & before & page & ? & ? & ? & ?).
    exists m, limit, before, page. rewrite elem_of_app. tauto.
  - destruct (H2 _ _ _ Hin Hr) as (m & limit & before & page & ? & ? & ? & ?).
    exists m, limit, before, page. rewrite elem_of_app. tauto.
Qed.

Lemma window_invariant_page cfg limit before page name n :
  window_invariant cfg
    (EvFetch limit before page
       :: (call_event <$> take n (planned_calls cfg (filter (in_window cfg) page) name))).
Proof.
  intros path records r [Hin|Hin]%elem_of_cons Hr; [discriminate|].
  apply list_elem_of_fmap in Hin as (call & Hev & Hcall%subseteq_take).
  injection Hev as -> ->.
  destruct (planned_calls_records _ _ _ _ _ Hcall Hr) as (m & -> & Hm).
  apply list_elem_of_filter in Hm as [Hwin Hm].
  exists m, limit, before, page. split; [done|]. split; [exact Hwin|].
  split; [apply elem_of_cons; by left | done].
Qed.

(** C1. Every record a traversal passes to the partition writer is the
    image of a message of a fetched page whose creation instant [t]
    satisfies [start <= t < end]; this holds for completed, aborted and
    unfinished runs alike. *)
Theorem backfill_window fuel cfg ch w :
  ∃ evs, trace (world_of (backfill fuel cfg ch w)) = trace w ++ evs
    ∧ ∀ path records r,
        EvWriteJson path records ∈ evs → r ∈ records →
        ∃ m limit before page,
          r = toRecord m cfg
          ∧ getTime (cfg_start cfg) ≤ msg_createdTimestamp m < getTime (cfg_end cfg)
          ∧ EvFetch limit before page ∈ evs ∧ m ∈ page.
Proof.
  unfold backfill. fold (window_invariant cfg).
  generalize (channelName_of ch) (@None Snowflake) 0%nat. intros name before total.
  revert before total w. induction fuel as [|fuel IH]; intros before total w.
  - exists []. cbn. rewrite app_nil_r. split; [done|]. intros ? ? ? []%elem_of_nil.
  - cbn [backfill_loop]. unfold bind at 1, emit at 1.
    set (w1 := {| files := files w; dirs := dirs w;
                  trace := trace w ++ [EvFetch 100 before (ch_messages_fetch ch 100 before)] |}).
    destruct (ch_messages_fetch ch 100 before) as [|first rest] eqn:Hpage.
    + exists [EvFetch 100 before []]. split; [done|].
      intros ? ? ? [Hin|[]%elem_of_nil]%elem_of_cons. discriminate.
    + set (msgs := first :: rest) in *. unfold bind.
      destruct (writeMessages_trace cfg (filter (in_window cfg) msgs) name w1)
        as (n & Hn & Hrun).
      pose proof (window_invariant_page cfg 100%nat before msgs name n) as Hinv.
      destruct (writeMessages cfg (filter (in_window cfg) msgs) name w1)
        as [[] w2|e w2|w2] eqn:E; cbn [world_of] in Hn.
      * destruct (decide (msg_createdTimestamp (oldest_of first rest)
                          < getTime (cfg_start cfg))) as [Hold|Hold].
        -- eexists. split; [|exact Hinv]. cbn [ret world_of]. rewrite Hn.
           subst w1. cbn [trace]. by rewrite <- app_assoc.
        -- destruct (IH (Some (msg_id (oldest_of first rest)))
                        (total + length msgs)%nat w2) as (evs & Hevs & Hinv2).
           eexists. split; [|exact (window_invariant_app _ _ _ Hinv Hinv2)].
           rewrite Hevs, Hn. subst w1. cbn [trace]. by rewrite <- !app_assoc.
      * eexists. split; [|exact Hinv]. cbn [world_of]. rewrite Hn.
        subst w1. cbn [trace]. by rewrite <- app_assoc.
      * by destruct (Hrun w2).
Qed.

End Traversal.

(* ===================================================================== *)
(** ** The oldest message of a page *)
(* ===================================================================== *)







(* ===================================================================== *)
(** ** Termination of the traversal *)
(* ===================================================================== *)

Section Termination.
Context {rt : Runtime}.

Lemma fetch_count_app tr1 tr2 :
  fetch_count (tr1 ++ tr2) = (fetch_count tr1 + fetch_count tr2)%nat.
Proof. unfold fetch_count. by rewrite filter_app, length_app. Qed.

Lemma fetch_count_calls calls : fetch_count (call_event <$> calls) = 0%nat.
Proof. induction calls as [|c calls IH]; [done|]. exact IH. Qed.

Lemma writeMessages_fetch_count cfg msgs name w :
  fetch_count (trace (world_of (writeMessages cfg msgs name w))) = fetch_count (trace w).
Proof.
  destruct (writeMessages_trace cfg msgs name w) as (n & -> & _).
  rewrite fetch_count_app, fetch_count_calls. lia.
Qed.

(** The first index at which a decidable property of the naturals holds. *)
Lemma first_index (P : nat → Prop) `{∀ n, Decision (P n)} n :
  P n → ∃ n0, P n0 ∧ ∀ i, (i < n0)%nat → ¬ P i.
Proof.
  assert (Hscan : ∀ k, (∃ n0, P n0 ∧ ∀ i, (i < n0)%nat → ¬ P i)
                       ∨ (∀ i, (i < k)%nat → ¬ P i)).
  { induction k as [|k [IH|IH]]; [right; lia | by left |].
    destruct (decide (P k)) as [Hk|Hk]; [left; by exists k|].
    right. intros i Hi. destruct (decide (i = k)) as [->|]; [done|].
    apply IH. lia. }
  intros Hn. destruct (Hscan (S n)) as [Hfound|Hnone]; [done|].
  destruct (Hnone n); [lia|done].
Qed.

(** One iteration of the loop. *)
Lemma backfill_loop_step fuel cfg ch name before total w :
  backfill_loop (S fuel) cfg ch name before total w =
    let batch := ch_messages_fetch ch 100 before in
    let w1 := {| files := files w; dirs := dirs w;
                 trace := trace w ++ [EvFetch 100 before batch] |} in
    match batch with
    | [] => Returned total w1
    | first :: rest =>
        match writeMessages cfg (filter (in_window cfg) batch) name w1 with
        | Returned _ w2 =>
            if decide (msg_createdTimestamp (oldest_of first rest) < getTime (cfg_start cfg))
            then Returned (total + length batch)%nat w2
            else backfill_loop fuel cfg ch name (Some (msg_id (oldest_of first rest)))
                   (total + length batch)%nat w2
        | Thrown e w2 => Thrown e w2
        | Running w2 => Running w2
        end
    end.
Proof.
  cbn [backfill_loop]. unfold bind, emit, ret. cbv zeta.
  destruct (ch_messages_fetch ch 100 before) as [|first rest]; [reflexivity|].
  destruct (writeMessages _ _ _ _); [|reflexivity..].
  destruct (decide _); reflexivity.
Qed.

(** The loop from its [k]-th iteration on, when page [n0] is the first
    to stop it. *)
Lemma backfill_loop_halts cfg ch name n0 :
  stops cfg ch n0 → (∀ i, (i < n0)%nat → ¬ stops cfg ch i) →
  ∀ fuel k total w, (k ≤ n0)%nat →
    let out := backfill_loop fuel cfg ch name (cursor ch k) total w in
    ((n0 - k < fuel)%nat →
       (∀ w', out ≠ Running w')
       ∧ (fetch_count (trace (world_of out)) ≤ fetch_count (trace w) + (n0 - k) + 1)%nat
       ∧ (∀ t w', out = Returned t w' →
            fetch_count (trace w') = (fetch_count (trace w) + (n0 - k) + 1)%nat))
    ∧ ((fuel ≤ n0 - k)%nat → ∀ t w', out ≠ Returned t w').
Proof.
  intros Hstop Hfirst. induction fuel as [|fuel IH]; intros k total w Hk out.
  { split; [lia|]. intros _ t w'. subst out. discriminate. }
  subst out. rewrite backfill_loop_step. cbv zeta. fold (page ch k).
  set (w1 := {| files := files w; dirs := dirs w;
                trace := trace w ++ [EvFetch 100 (cursor ch k) (page ch k)] |}).
  assert (Hw1 : fetch_count (trace w1) = (fetch_count (trace w) + 1)%nat).
  { subst w1. cbn [trace]. by rewrite fetch_count_app. }
  assert (Hstops_k : stops cfg ch k → k = n0).
  { intros Hs. destruct (decide (k = n0)); [done|].
    exfalso. apply (Hfirst k); [lia|done]. }
  unfold stops in Hstops_k. clearbody w1.
  destruct (page ch k) as [|first rest] eqn:Hpage.
  - cbn in Hstops_k. rewrite Hstops_k by done. split.
    + intros _. split; [done|]. cbn [world_of]. split; [lia|].
      intros t w' [= _ <-]. lia.
    + lia.
  - assert (Hcursor : cursor ch (S k) = Some (msg_id (oldest_of first rest))).
    { cbn [cursor]. unfold page in Hpage. by rewrite Hpage. }
    set (msgs := first :: rest) in *. cbn [oldest_in] in *.
    pose proof (writeMessages_fetch_count cfg (filter (in_window cfg) msgs) name w1) as Hfc.
    destruct (writeMessages_trace cfg (filter (in_window cfg) msgs) name w1)
      as (_ & _ & Hrun).
    destruct (writeMessages cfg (filter (in_window cfg) msgs) name w1)
      as [[] w2|e w2|w2] eqn:E; cbn [world_of] in Hfc.
    + destruct (decide (msg_createdTimestamp (oldest_of first rest)
                        < getTime (cfg_start cfg))) as [Hold|Hold].
      * rewrite (Hstops_k Hold). split.
        -- intros _. split; [done|]. cbn [world_of]. split; [lia|].
           intros t w' [= _ <-]. lia.
        -- lia.
      * assert (Hlt : (k < n0)%nat).
        { destruct (decide (k = n0)) as [->|]; [|lia].
          unfold stops in Hstop. rewrite Hpage in Hstop. cbn in Hstop. done. }
        rewrite <- Hcursor.
        destruct (IH (S k) (total + length msgs)%nat w2) as [IH1 IH2]; [lia|].
        split.
        -- intros Hfuel. destruct IH1 as (I1 & I2 & I3); [lia|].
           split; [exact I1|]. split; [lia|].
           intros t w' Hret. rewrite (I3 t w' Hret). lia.
        -- intros Hfuel. apply IH2. lia.
    + split; [|discriminate]. intros _. cbn [world_of].
      split; [discriminate|]. split; [lia|discriminate].
    + by destruct (Hrun w2).
Qed.


End Termination.

(* ===================================================================== *)
(** ** Channels with a fixed history *)
(* ===================================================================== *)

Lemma oldest_of_elem first rest : oldest_of first rest ∈ first :: rest.
Proof.
  unfold oldest_of. revert first. induction rest as [|b rest IH]; intros first; cbn.
  - apply elem_of_cons. by left.
  - apply elem_of_cons. destruct (decide _).
    + specialize (IH first). apply elem_of_cons in IH as [->|?]; [by left|].
      right. apply elem_of_cons. by right.
    + right. apply IH.
Qed.

(** In a page listed newest first the oldest message is the last one. *)
Lemma oldest_in_last (msgs : list Message) :
  StronglySorted (λ a b, msg_createdTimestamp b ≤ msg_createdTimestamp a) msgs →
  oldest_in msgs = last msgs.
Proof.
  destruct msgs as [|first rest]; [done|]. cbn [oldest_in]. unfold oldest_of.
  revert first. induction rest as [|b rest IH]; intros first Hs; [done|].
  cbn [foldl]. apply StronglySorted_inv in Hs as [Hrest Hfirst].
  apply Forall_cons in Hfirst as [Hb _].
  rewrite decide_False by lia. rewrite (IH b Hrest). by rewrite last_cons_cons.
Qed.

Section History.
Context {rt : Runtime} (cfg : Config) (id : Snowflake) (name : option jsstring)
        (history : list Message).

Implicit Types (m a : Message) (h : list Message).

Lemma filter_older_all h : filter (λ m, Is_true (is_older None m)) h = h.
Proof.
  induction h as [|m h IH]; [done|].
  rewrite filter_cons, decide_True by exact I. by rewrite IH.
Qed.

Lemma filter_older_id a h :
  Forall (λ m, (id_value m < id_value a)%N) h →
  filter (λ m, Is_true (is_older (Some (msg_id a)) m)) h = h.
Proof.
  induction 1 as [|m h Hm _ IH]; [done|]. rewrite filter_cons, IH.
  rewrite decide_True; [done|]. cbn. by rewrite bool_decide_spec.
Qed.

(** Below the id of the [i]-th message are exactly the messages after it. *)
Lemma filter_older_drop h i m :
  StronglySorted (λ a b, (id_value b < id_value a)%N) h →
  h !! i = Some m →
  filter (λ a, Is_true (is_older (Some (msg_id m)) a)) h = drop (S i) h.
Proof.
  intros Hs. revert i. induction Hs as [|a h Hh IH Ha]; intros i Hi; [done|].
  destruct i as [|i]; cbn in Hi.
  - injection Hi as ->. rewrite filter_cons, decide_False.
    + cbn. by apply filter_older_id.
    + cbn. rewrite bool_decide_spec. lia.
  - rewrite filter_cons, decide_False.
    + cbn. by apply IH.
    + cbn. rewrite bool_decide_spec.
      apply list_elem_of_lookup_2 in Hi. eapply Forall_forall in Ha; [|exact Hi].
      unfold id_value in Ha. lia.
Qed.

Lemma page_candidates k :
  page (history_channel id name history) k = take 100 (candidates id name history k).
Proof. reflexivity. Qed.

Lemma filter_length_lt (P Q : Message → Prop) `{∀ x, Decision (P x)} `{∀ x, Decision (Q x)} h x :
  (∀ y, P y → Q y) → x ∈ h → Q x → ¬ P x →
  (length (filter P h) < length (filter Q h))%nat.
Proof.
  intros HPQ. induction h as [|y h IH]; [by intros ?%elem_of_nil|].
  intros [->|Hx]%elem_of_cons HQ HP.
  - rewrite (filter_cons Q), decide_True by done.
    rewrite (filter_cons P), decide_False by done. cbn.
    assert (length (filter P h) ≤ length (filter Q h))%nat; [|lia].
    clear IH. induction h as [|z h IH]; [done|]. rewrite !filter_cons.
    destruct (decide (P z)) as [Hz|Hz].
    + rewrite decide_True by auto. cbn. lia.
    + destruct (decide (Q z)); cbn; lia.
  - specialize (IH Hx HQ HP). rewrite !filter_cons.
    destruct (decide (P y)) as [Hy|Hy].
    + rewrite decide_True by auto. cbn. lia.
    + destruct (decide (Q y)); cbn; lia.
Qed.

(** Each continuing iteration strictly shrinks the set of candidates:
    the cursor moves to a message of the page. *)
Lemma candidates_decrease k :
  ¬ stops cfg (history_channel id name history) k →
  (length (candidates id name history (S k)) < length (candidates id name history k))%nat.
Proof.
  intros Hns. unfold stops in Hns. rewrite page_candidates in Hns.
  unfold candidates at 1. cbn [cursor]. fold (page (history_channel id name history) k).
  rewrite page_candidates.
  destruct (take 100 (candidates id name history k)) as [|first rest] eqn:Hpage; [by destruct Hns|].
  cbn [oldest_in fmap option_fmap option_map].
  set (o := oldest_of first rest).
  assert (Ho : o ∈ candidates id name history k).
  { apply (subseteq_take 100). rewrite Hpage. apply oldest_of_elem. }
  unfold candidates in Ho. apply list_elem_of_filter in Ho as [Hok Hoh].
  apply (filter_length_lt _ _ _ o); [|done|done|].
  - intros y Hy. destruct (cursor _ k) as [b|]; [|done]. cbn in *.
    rewrite bool_decide_spec in *. lia.
  - cbn. rewrite bool_decide_spec. lia.
Qed.

Lemma candidates_bound k :
  (∀ i, (i < k)%nat → ¬ stops cfg (history_channel id name history) i) →
  (length (candidates id name history k) + k ≤ length history)%nat.
Proof.
  induction k as [|k IH]; intros Hns.
  - rewrite Nat.add_0_r. apply length_filter.
  - pose proof (candidates_decrease k (Hns k (Nat.lt_succ_diag_r k))).
    assert (length (candidates id name history k) + k ≤ length history)%nat; [|lia].
    apply IH. intros i Hi. apply Hns. lia.
Qed.

Lemma bounded_scan (P : nat → Prop) `{∀ n, Decision (P n)} k :
  (∃ n, (n < k)%nat ∧ P n) ∨ (∀ i, (i < k)%nat → ¬ P i).
Proof.
  induction k as [|k [(n & Hn & HP)|IH]]; [right; lia | left; exists n; split; [lia|done] |].
  destruct (decide (P k)) as [Hk|Hk]; [left; exists k; split; [lia|done]|].
  right. intros i Hi. destruct (decide (i = k)) as [->|]; [done|]. apply IH. lia.
Qed.

(** A channel with a finite history always reaches a stopping page,
    after at most as many pages as it has messages. *)
Lemma history_channel_stops :
  ∃ n, (n ≤ length history)%nat ∧ stops cfg (history_channel id name history) n.
Proof.
  set (ch := history_channel id name history).
  destruct (bounded_scan (stops cfg ch) (S (length history))) as [(n & Hn & Hs)|Hnone].
  - exists n. split; [lia|done].
  - exfalso. apply (Hnone (length history)); [lia|].
    unfold stops. subst ch. rewrite page_candidates.
    assert (Hb : (length (candidates id name history (length history)) + length history
                  ≤ length history)%nat).
    { apply candidates_bound. intros i Hi. apply Hnone. lia. }
    destruct (candidates id name history (length history)); [done|]. cbn in Hb. lia.
Qed.

(** So the traversal of such a channel always terminates: with more
    iterations allowed than the channel has messages it is never left
    running. *)
Lemma backfill_history_terminates fuel w :
  (length history < fuel)%nat →
  ∀ w', backfill fuel cfg (history_channel id name history) w ≠ Running w'.
Proof.
  intros Hfuel. destruct history_channel_stops as (n & Hn & Hs).
  set (ch := history_channel id name history) in *.
  destruct (first_index (stops cfg ch) n Hs) as (n0 & Hs0 & Hfirst).
  assert (n0 ≤ n)%nat.
  { destruct (decide (n0 ≤ n)%nat); [done|]. exfalso. apply (Hfirst n); [lia|done]. }
  apply (backfill_loop_halts cfg ch (channelName_of ch) n0 Hs0 Hfirst
           fuel 0%nat 0%nat w (Nat.le_0_l _)). lia.
Qed.

End History.

(* ===================================================================== *)
(** ** Pages of a history listed newest first *)
(* ===================================================================== *)

Lemma newest_first_slice (history : list Message) i n :
  newest_first history → newest_first (take n (drop i history)).
Proof.
  intros [Hid Hts]. split.
  - rewrite <- (take_drop i history) in Hid. apply StronglySorted_app_1_r in Hid.
    rewrite <- (take_drop n (drop i history)) in Hid.
    by apply StronglySorted_app_1_l in Hid.
  - rewrite <- (take_drop i history) in Hts. apply StronglySorted_app_1_r in Hts.
    rewrite <- (take_drop n (drop i history)) in Hts.
    by apply StronglySorted_app_1_l in Hts.
Qed.

(** The oldest message of a slice is its last one, and the page after
    it starts right behind the slice. *)
Lemma history_next_page id name (history : list Message) i n m limit :
  newest_first history →
  history !! (i + n)%nat = Some m →
  oldest_in (take (S n) (drop i history)) = Some m
  ∧ ch_messages_fetch (history_channel id name history) limit (Some (msg_id m))
    = take limit (drop (i + S n) history).
Proof.
  intros Hnf Hm. split.
  - rewrite oldest_in_last by apply (newest_first_slice _ _ _ Hnf).
    rewrite last_lookup, length_take, length_drop.
    apply lookup_lt_Some in Hm as Hlt.
    replace (Init.Nat.pred (S n `min` (length history - i))) with n by lia.
    rewrite lookup_take_lt by lia. by rewrite lookup_drop.
  - cbn. unfold history_fetch. erewrite filter_older_drop; [|apply Hnf|exact Hm].
    do 2 f_equal. lia.
Qed.

(* ===================================================================== *)
(** ** The files after a page is written *)
(* ===================================================================== *)

Section FilesAfterAPage.
Context {rt : Runtime}.

Lemma Bun_file_text_readable path w :
  all_readable w → Bun_file_text path w = text_at path w.
Proof.
  intros Hr. unfold Bun_file_text, text_at.
  destruct (files w !! path) as [f|] eqn:E; [|done].
  by rewrite (Hr _ _ E).
Qed.

Lemma written_readable path text records w :
  all_readable w → all_readable (written path text records w).
Proof.
  intros Hr p f. unfold written. cbn.
  destruct (decide (path = p)) as [->|Hne].
  - rewrite lookup_insert_eq. intros [= <-]. cbn.
    destruct (files w !! p) as [f'|] eqn:E; [|done]. by apply (Hr p).
  - rewrite lookup_insert_ne by done. apply Hr.
Qed.

Lemma existing_value_written path text records w p :
  p ≠ path → existing_value p (written path text records w) = existing_value p w.
Proof.
  intros Hne. unfold existing_value, Bun_file_text.
  by rewrite files_written_ne.
Qed.

(** A series of calls to distinct paths, each finding something it can
    spread: every file ends as its previous elements followed by the
    new records, and no other file changes. *)
Lemma write_all_returns (prev : jsstring → list JSValue) calls w :
  NoDup calls.*1 →
  (∀ call, call ∈ calls →
     call.2 ≠ [] ∧ spread_elems (existing_value call.1 w) = Some (prev call.1)) →
  ∃ w', write_all calls w = Returned () w'
    ∧ (∀ call, call ∈ calls →
         text_at call.1 w' = Some (JSON_stringify (JArr (prev call.1 ++ call.2)) 2))
    ∧ (∀ p, p ∉ calls.*1 → files w' !! p = files w !! p)
    ∧ (all_readable w → all_readable w')
    ∧ trace w' = trace w ++ (call_event <$> calls).
Proof.
  revert w. induction calls as [|[p rs] calls IH]; intros w Hnd Hcalls.
  - exists w. split; [done|]. split; [by intros ? ?%elem_of_nil|].
    split; [done|]. split; [done|]. cbn. by rewrite app_nil_r.
  - cbn in Hnd. apply NoDup_cons in Hnd as [Hp Hnd].
    destruct (Hcalls (p, rs)) as [Hrs Hsp]; [apply elem_of_cons; by left|]. cbn in Hrs, Hsp.
    unfold write_all. cbn [for_of]. unfold bind. cbn [fst snd].
    rewrite (writeJson_returns p rs w (prev p) Hrs Hsp).
    set (w1 := written p _ rs w).
    destruct (IH w1 Hnd) as (w' & Hret & Htext & Hother & Hread & Htrace).
    { intros call Hcall. destruct (Hcalls call) as [? Hs]; [apply elem_of_cons; by right|].
      split; [done|]. subst w1. rewrite existing_value_written; [done|].
      intros Heq. apply Hp. rewrite <- Heq. apply list_elem_of_fmap. by exists call. }
    exists w'. split; [exact Hret|]. split; [|split; [|split]].
    + intros call [->|Hcall]%elem_of_cons; [|by apply Htext]. cbn [fst snd].
      unfold text_at. rewrite Hother by done. fold (text_at p w1). subst w1.
      apply text_at_written.
    + intros q Hq. rewrite Hother.
      * subst w1. apply files_written_ne. intros ->. apply Hq. apply elem_of_cons. by left.
      * intros Hin. apply Hq. apply elem_of_cons. by right.
    + intros Hr. apply Hread. subst w1. by apply written_readable.
    + rewrite Htrace. subst w1. cbn. by rewrite <- app_assoc.
Qed.

End FilesAfterAPage.

Section TwoDays.
Context {rt : Runtime} (cfg : Config) (name : jsstring) (d1 d2 : jsstring).
Hypothesis paths_differ : partition_path cfg name d1 ≠ partition_path cfg name d2.

Implicit Types (d : jsstring) (pg : list Message) (w : World).

Lemma day_batch_nil d pg : d ∉ dates_of pg → day_batch d pg = [].
Proof.
  intros Hd. destruct (day_batch d pg) as [|m b] eqn:E; [done|]. exfalso. apply Hd.
  assert (Hm : m ∈ day_batch d pg) by (rewrite E; apply elem_of_cons; by left).
  apply elem_of_day_batch in Hm. apply elem_of_dates_of. by exists m.
Qed.

Lemma dates_of_two pg d :
  (∀ m, m ∈ pg → createdDate m = d1 ∨ createdDate m = d2) →
  d ∈ dates_of pg → d = d1 ∨ d = d2.
Proof. intros Hpg (m & Hm & <-)%elem_of_dates_of. by apply Hpg. Qed.

Lemma partition_path_inj d d' :
  d = d1 ∨ d = d2 → d' = d1 ∨ d' = d2 →
  partition_path cfg name d = partition_path cfg name d' → d = d'.
Proof. intros [->| ->] [->| ->] Heq; try done; by destruct paths_differ. Qed.

(** Writing a page whose files hold the batches of the messages written
    before. *)
Lemma page_write pg before w :
  (∀ m, m ∈ pg → createdDate m = d1 ∨ createdDate m = d2) →
  all_readable w →
  (∀ d, d ∈ dates_of pg →
     spread_elems (existing_value (partition_path cfg name d) w)
     = Some ((λ m, toRecord m cfg) <$> day_batch d before)) →
  ∃ w', writeMessages cfg pg name w = Returned () w'
    ∧ (∀ d, d ∈ dates_of pg →
         text_at (partition_path cfg name d) w'
         = Some (JSON_stringify
                   (JArr ((λ m, toRecord m cfg) <$> (day_batch d before ++ day_batch d pg))) 2))
    ∧ (∀ p, (∀ d, d ∈ dates_of pg → p ≠ partition_path cfg name d) →
            files w' !! p = files w !! p)
    ∧ all_readable w'
    ∧ fetch_count (trace w') = fetch_count (trace w).
Proof.
  intros Hpg Hread Hprev.
  set (prev := λ p : jsstring,
         if decide (p = partition_path cfg name d1)
         then (λ m, toRecord m cfg) <$> day_batch d1 before
         else (λ m, toRecord m cfg) <$> day_batch d2 before).
  assert (Hprev_path : ∀ d, d ∈ dates_of pg →
            prev (partition_path cfg name d) = (λ m, toRecord m cfg) <$> day_batch d before).
  { intros d Hd. destruct (dates_of_two pg d Hpg Hd) as [->| ->]; unfold prev.
    - by rewrite decide_True.
    - rewrite decide_False; [done|]. intros Heq. by apply paths_differ. }
  assert (Hkeys : (planned_calls cfg pg name).*1 = partition_path cfg name <$> dates_of pg).
  { unfold planned_calls. by rewrite <- list_fmap_compose. }
  destruct (write_all_returns prev (planned_calls cfg pg name) w)
    as (w' & Hret & Htext & Hother & Hr & Htrace).
  - rewrite Hkeys. apply NoDup_fmap_2_strong; [|apply dates_of_NoDup].
    intros d d' Hd Hd'. apply partition_path_inj; by eapply dates_of_two.
  - unfold planned_calls. intros call (d & -> & Hd)%list_elem_of_fmap. cbn [fst snd]. split.
    + intros Hnil%fmap_nil_inv. by apply (day_batch_nonempty d pg).
    + rewrite Hprev_path by done. by apply Hprev.
  - exists w'. rewrite writeMessages_write_all. split; [exact Hret|].
    split; [|split; [|split]].
    + intros d Hd.
      pose proof (Htext (partition_path cfg name d,
                         (λ m, toRecord m cfg) <$> day_batch d pg)) as Ht.
      cbn [fst snd] in Ht. rewrite Ht.
      * rewrite Hprev_path by done. by rewrite fmap_app.
      * unfold planned_calls. apply list_elem_of_fmap. by exists d.
    + intros p Hp. apply Hother. rewrite Hkeys.
      intros (d & -> & Hd)%list_elem_of_fmap. by apply (Hp d).
    + by apply Hr.
    + rewrite Htrace, fetch_count_app, fetch_count_calls. lia.
Qed.

End TwoDays.

Lemma filter_Forall_id {A} (P : A → Prop) `{∀ x, Decision (P x)} (l : list A) :
  Forall P l → filter P l = l.
Proof.
  induction 1 as [|x l Hx _ IH]; [done|]. by rewrite filter_cons, decide_True, IH.
Qed.

Lemma history_fetch_first id name (history : list Message) limit :
  ch_messages_fetch (history_channel id name history) limit None = take limit history.
Proof. cbn. unfold history_fetch. by rewrite filter_older_all. Qed.

Section ExampleScenario.
Context {rt : Runtime}.

(** C7, as the code has it. A channel of 150 messages on two calendar
    days, listed newest first, all inside the window, exported into an
    empty output directory: the traversal returns after three fetches
    (pages of 100, 50 and 0 messages) with a total of 150, and leaves
    exactly two partition files, one per day.  Each file holds exactly
    the messages of its day, each once: those of the first page in
    ascending order of creation time, followed by those of the second
    page in ascending order of creation time. *)
Theorem backfill_two_days cfg id name (history : list Message) d1 d2 w fuel :
  let ch := history_channel id name history in
  let page1 := take 100 history in
  let page2 := drop 100 history in
  let path := partition_path cfg (channelName_of ch) in
  let records := fmap (M := list) (λ m, toRecord m cfg) in
  length history = 150%nat →
  newest_first history →
  Forall (in_window cfg) history →
  Forall (λ m, createdDate m = d1 ∨ createdDate m = d2) history →
  d1 ∈ createdDate <$> history →
  d2 ∈ createdDate <$> history →
  path d1 ≠ path d2 →
  (∀ d, d = d1 ∨ d = d2 → day_batch d page1 ≠ [] → day_batch d page2 ≠ [] →
     JSON_parse (JSON_stringify (JArr (records (day_batch d page1))) 2)
     = Some (JArr (records (day_batch d page1)))) →
  files w = ∅ →
  (3 ≤ fuel)%nat →
  ∃ w', backfill fuel cfg ch w = Returned 150%nat w'
    ∧ fetch_count (trace w') = (fetch_count (trace w) + 3)%nat
    ∧ dom (files w') = {[path d1; path d2]}
    ∧ ∀ d, d = d1 ∨ d = d2 →
        text_at (path d) w'
        = Some (JSON_stringify (JArr (records (day_batch d page1 ++ day_batch d page2))) 2)
        ∧ StronglySorted by_createdTimestamp (day_batch d page1)
        ∧ StronglySorted by_createdTimestamp (day_batch d page2)
        ∧ day_batch d page1 ++ day_batch d page2 ≡ₚ filter (λ m, createdDate m = d) history.
Proof.
  intros ch page1 page2 path records Hlen Hnf Hwin Hdates Hd1 Hd2 Hpaths Hrt Hfiles Hfuel.
  set (nm := channelName_of ch) in *. subst path records. cbv beta in *.
  (* the three pages *)
  destruct (lookup_lt_is_Some_2 history 99) as [m99 H99]; [lia|].
  destruct (lookup_lt_is_Some_2 history 149) as [m149 H149]; [lia|].
  destruct (history_next_page id name history 0 99 m99 100 Hnf H99) as [Hold1 Hfetch2].
  destruct (history_next_page id name history 100 49 m149 100 Hnf H149) as [Hold2 Hfetch3].
  change (drop 0 history) with history in Hold1. fold page1 in Hold1.
  change (0 + 100)%nat with 100%nat in Hfetch2.
  rewrite (take_ge (drop 100 history)) in Hold2, Hfetch2 by (rewrite length_drop; lia).
  fold page2 in Hold2, Hfetch2.
  rewrite (drop_ge history (100 + 50)) in Hfetch3 by lia. rewrite take_nil in Hfetch3.
  fold ch in Hfetch2, Hfetch3.
  pose proof (history_fetch_first id name history 100) as Hfetch1.
  fold ch page1 in Hfetch1.
  assert (Hl1 : length page1 = 100%nat) by (subst page1; rewrite length_take; lia).
  assert (Hl2 : length page2 = 50%nat) by (subst page2; rewrite length_drop; lia).
  destruct page1 as [|f1 r1] eqn:E1; [discriminate|].
  destruct page2 as [|f2 r2] eqn:E2; [discriminate|].
  cbn [oldest_in] in Hold1, Hold2. injection Hold1 as Hold1. injection Hold2 as Hold2.
  (* facts about the pages *)
  assert (Hhist : history = (f1 :: r1) ++ (f2 :: r2)).
  { rewrite <- E1, <- E2. subst page1 page2. by rewrite take_drop. }
  assert (Hin1 : ∀ m, m ∈ f1 :: r1 → m ∈ history).
  { intros m Hm. rewrite Hhist. apply elem_of_app. by left. }
  assert (Hin2 : ∀ m, m ∈ f2 :: r2 → m ∈ history).
  { intros m Hm. rewrite Hhist. apply elem_of_app. by right. }
  assert (Hwin1 : filter (in_window cfg) (f1 :: r1) = f1 :: r1).
  { apply filter_Forall_id. apply Forall_forall. intros m Hm.
    eapply Forall_forall in Hwin; [exact Hwin|]. by apply Hin1. }
  assert (Hwin2 : filter (in_window cfg) (f2 :: r2) = f2 :: r2).
  { apply filter_Forall_id. apply Forall_forall. intros m Hm.
    eapply Forall_forall in Hwin; [exact Hwin|]. by apply Hin2. }
  assert (Htwo : ∀ m, m ∈ history → createdDate m = d1 ∨ createdDate m = d2).
  { intros m Hm. by eapply Forall_forall in Hdates. }
  assert (Hcont : ∀ m, m ∈ history →
            ¬ msg_createdTimestamp m < getTime (cfg_start cfg)).
  { intros m Hm. eapply Forall_forall in Hwin; [|exact Hm]. destruct Hwin. lia. }
  destruct fuel as [|[|[|fuel]]]; try lia. clear Hfuel.
  unfold backfill. fold nm.
  (* first page *)
  rewrite backfill_loop_step. cbv zeta. rewrite Hfetch1, Hwin1.
  set (wa := {| files := files w; dirs := dirs w;
                trace := trace w ++ [EvFetch 100 None (f1 :: r1)] |}).
  destruct (page_write cfg nm d1 d2 Hpaths (f1 :: r1) [] wa)
    as (w1 & Hret1 & Htext1 & Hother1 & Hread1 & Hfc1).
  { intros m Hm. by apply Htwo, Hin1. }
  { intros p f. subst wa. cbn. by rewrite Hfiles, lookup_empty. }
  { intros d _. unfold existing_value, Bun_file_text. subst wa. cbn.
    by rewrite Hfiles, lookup_empty. }
  rewrite Hret1, Hold1, decide_False by (apply Hcont; by apply list_elem_of_lookup_2 in H99).
  (* second page *)
  rewrite backfill_loop_step. cbv zeta. rewrite Hfetch2, Hwin2.
  set (wb := {| files := files w1; dirs := dirs w1;
                trace := trace w1 ++ [EvFetch 100 (Some (msg_id m99)) (f2 :: r2)] |}).
  assert (Hnone1 : ∀ p, (∀ d, d ∈ dates_of (f1 :: r1) → p ≠ partition_path cfg nm d) → files w1 !! p = None).
  { intros p Hp. rewrite Hother1 by done. subst wa. cbn. by rewrite Hfiles, lookup_empty. }
  destruct (page_write cfg nm d1 d2 Hpaths (f2 :: r2) (f1 :: r1) wb)
    as (w2 & Hret2 & Htext2 & Hother2 & Hread2 & Hfc2).
  { intros m Hm. by apply Htwo, Hin2. }
  { exact Hread1. }
  { intros d Hd.
    assert (Hd12 : d = d1 ∨ d = d2).
    { apply (dates_of_two d1 d2 (f2 :: r2)); [|done]. intros m Hm. by apply Htwo, Hin2. }
    unfold existing_value. rewrite Bun_file_text_readable by exact Hread1.
    change (text_at (partition_path cfg nm d) wb) with (text_at (partition_path cfg nm d) w1).
    destruct (decide (d ∈ dates_of (f1 :: r1))) as [Hd'|Hd'].
    - rewrite (Htext1 d Hd'). cbn [mbind option_bind].
      change (day_batch d [] ++ day_batch d (f1 :: r1)) with (day_batch d (f1 :: r1)).
      rewrite (Hrt d Hd12); [done| |].
      + by apply day_batch_nonempty.
      + by apply day_batch_nonempty.
    - unfold text_at. rewrite Hnone1.
      + by rewrite (day_batch_nil d (f1 :: r1) Hd').
      + intros d' Hd'' Heq. apply Hd'.
        assert (d = d'); [|by subst].
        apply (partition_path_inj cfg nm d1 d2 Hpaths); [done| |done].
        apply (dates_of_two d1 d2 (f1 :: r1)); [|done]. intros m Hm. by apply Htwo, Hin1. }
  rewrite Hret2, Hold2, decide_False by (apply Hcont; by apply list_elem_of_lookup_2 in H149).
  (* third page *)
  rewrite backfill_loop_step. cbv zeta. rewrite Hfetch3, Hl1, Hl2.
  eexists. split; [reflexivity|]. cbn [trace files].
  (* the dates of the two pages *)
  assert (Hdate_in : ∀ d, d ∈ createdDate <$> history →
            d ∈ dates_of (f1 :: r1) ∨ d ∈ dates_of (f2 :: r2)).
  { intros d (m & -> & Hm)%list_elem_of_fmap. rewrite Hhist in Hm.
    apply elem_of_app in Hm as [Hm|Hm]; [left|right]; apply elem_of_dates_of; by exists m. }
  assert (Hfile : ∀ d, d = d1 ∨ d = d2 →
            text_at (partition_path cfg nm d) w2
            = Some (JSON_stringify
                      (JArr ((λ m, toRecord m cfg) <$> (day_batch d (f1 :: r1) ++ day_batch d (f2 :: r2)))) 2)).
  { intros d Hd12.
    destruct (decide (d ∈ dates_of (f2 :: r2))) as [Hd'|Hd']; [by apply Htext2|].
    assert (Hd'' : d ∈ dates_of (f1 :: r1)).
    { destruct (Hdate_in d); [by destruct Hd12 as [->| ->]|done|done]. }
    unfold text_at. rewrite Hother2.
    - change (files wb !! partition_path cfg nm d) with (files w1 !! partition_path cfg nm d). fold (text_at (partition_path cfg nm d) w1).
      rewrite (Htext1 d Hd''). by rewrite (day_batch_nil d (f2 :: r2) Hd'), app_nil_r.
    - intros d' Hd3 Heq. apply Hd'.
      assert (d = d'); [|by subst].
      apply (partition_path_inj cfg nm d1 d2 Hpaths); [done| |done].
      apply (dates_of_two d1 d2 (f2 :: r2)); [|done]. intros m Hm. by apply Htwo, Hin2. }
  split; [|split].
  - rewrite fetch_count_app, Hfc2. subst wb. cbn [trace].
    rewrite fetch_count_app, Hfc1. subst wa. cbn [trace].
    rewrite fetch_count_app.
    change (fetch_count [EvFetch 100 None (f1 :: r1)]) with 1%nat.
    change (fetch_count [EvFetch 100 (Some (msg_id m99)) (f2 :: r2)]) with 1%nat.
    change (fetch_count [EvFetch 100 (Some (msg_id m149)) []]) with 1%nat. lia.
  - apply set_eq. intros p. rewrite elem_of_dom, elem_of_union, !elem_of_singleton. split.
    + intros Hsome. destruct (decide (p = partition_path cfg nm d1)) as [|Hp1]; [by left|].
      destruct (decide (p = partition_path cfg nm d2)) as [|Hp2]; [by right|]. exfalso.
      assert (Hp : ∀ pg, (∀ m, m ∈ pg → m ∈ history) →
                ∀ d, d ∈ dates_of pg → p ≠ partition_path cfg nm d).
      { intros pg Hpg d Hd Heq.
        destruct (dates_of_two d1 d2 pg d) as [->| ->]; [|done|done|done].
        intros m Hm. by apply Htwo, Hpg. }
      rewrite Hother2 in Hsome by (by apply Hp).
      change (files wb !! p) with (files w1 !! p) in Hsome.
      rewrite Hnone1 in Hsome by (by apply Hp). by destruct Hsome.
    + intros [-> | ->].
      * pose proof (Hfile d1 (or_introl eq_refl)) as Hf. unfold text_at in Hf.
        destruct (files w2 !! partition_path cfg nm d1); [done|discriminate].
      * pose proof (Hfile d2 (or_intror eq_refl)) as Hf. unfold text_at in Hf.
        destruct (files w2 !! partition_path cfg nm d2); [done|discriminate].
  - intros d Hd12. split; [by apply Hfile|].
    split; [apply day_batch_sorted|]. split; [apply day_batch_sorted|].
    rewrite Hhist, filter_app. unfold day_batch.
    by rewrite !Array_sort_Permutation.
Qed.

End ExampleScenario.

(* ===================================================================== *)
(** ** What a traversal leaves behind *)
(* ===================================================================== *)

Lemma records_written_app evs1 evs2 :
  records_written (evs1 ++ evs2) = records_written evs1 ++ records_written evs2.
Proof. unfold records_written. by rewrite bind_app. Qed.

Lemma written_paths_app evs1 evs2 :
  written_paths (evs1 ++ evs2) = written_paths evs1 ++ written_paths evs2.
Proof. unfold written_paths. by rewrite bind_app. Qed.

Lemma fetched_app evs1 evs2 : fetched (evs1 ++ evs2) = fetched evs1 ++ fetched evs2.
Proof. unfold fetched. by rewrite bind_app. Qed.

Lemma records_written_calls calls :
  records_written (call_event <$> calls) = mjoin calls.*2.
Proof.
  induction calls as [|[p rs] calls IH]; [done|].
  change (records_written (call_event <$> (p, rs) :: calls))
    with (rs ++ records_written (call_event <$> calls)).
  by rewrite IH.
Qed.

Lemma written_paths_calls calls : written_paths (call_event <$> calls) = calls.*1.
Proof.
  induction calls as [|[p rs] calls IH]; [done|].
  change (written_paths (call_event <$> (p, rs) :: calls))
    with (p :: written_paths (call_event <$> calls)).
  by rewrite IH.
Qed.

Lemma fetched_calls calls : fetched (call_event <$> calls) = [].
Proof. induction calls as [|[p rs] calls IH]; [done|]. exact IH. Qed.

Section Effects.
Context {rt : Runtime}.

(** The records of the planned calls are the records of the messages. *)
Lemma planned_calls_Permutation cfg msgs name :
  mjoin (planned_calls cfg msgs name).*2 ≡ₚ (λ m, toRecord m cfg) <$> msgs.
Proof.
  unfold planned_calls. rewrite <- list_fmap_compose.
  rewrite <- (day_batches_Permutation msgs) at 2.
  generalize (dates_of msgs). intros dates.
  induction dates as [|d dates IH]; [done|]. cbn. rewrite fmap_app. by f_equiv.
Qed.

(** What a completed call of [writeMessages] adds to the trace. *)
Lemma writeMessages_returned cfg msgs name w w' :
  writeMessages cfg msgs name w = Returned () w' →
  trace w' = trace w ++ (call_event <$> planned_calls cfg msgs name).
Proof.
  rewrite writeMessages_write_all. intros Hret.
  destruct (write_all_trace (planned_calls cfg msgs name) w) as (n & Hn & _ & Hlen).
  rewrite Hret in Hn. cbn in Hn. rewrite Hn, (Hlen w' Hret). by rewrite firstn_all.
Qed.


(** X: completed traversal, general gateway. *)
Lemma backfill_loop_returned fuel cfg ch name before total w t w' :
  backfill_loop fuel cfg ch name before total w = Returned t w' →
  ∃ evs, trace w' = trace w ++ evs
    ∧ t = (total + length (fetched evs))%nat
    ∧ records_written evs ≡ₚ (λ m, toRecord m cfg) <$> filter (in_window cfg) (fetched evs).
Proof.
  revert before total w. induction fuel as [|fuel IH]; intros before total w; [done|].
  rewrite backfill_loop_step. cbv zeta.
  set (w1 := {| files := files w; dirs := dirs w;
                trace := trace w ++ [EvFetch 100 before (ch_messages_fetch ch 100 before)] |}).
  destruct (ch_messages_fetch ch 100 before) as [|first rest] eqn:Hpage.
  { intros [= <- <-]. exists [EvFetch 100 before []]. split; [done|]. split; [cbn; lia|done]. }
  set (msgs := first :: rest) in *.
  destruct (writeMessages cfg (filter (in_window cfg) msgs) name w1)
    as [[] w2|e w2|w2] eqn:E; [|done..].
  apply writeMessages_returned in E.
  set (calls := planned_calls cfg (filter (in_window cfg) msgs) name) in *.
  assert (Hpage_evs :
    let evs := EvFetch 100 before msgs :: (call_event <$> calls) in
    trace w2 = trace w ++ evs
    ∧ fetched evs = msgs
    ∧ records_written evs ≡ₚ (λ m, toRecord m cfg) <$> filter (in_window cfg) msgs).
  { cbv zeta. split; [|split].
    - rewrite E. subst w1. cbn [trace]. by rewrite <- app_assoc.
    - change (fetched (EvFetch 100 before msgs :: (call_event <$> calls)))
        with (msgs ++ fetched (call_event <$> calls)).
      by rewrite fetched_calls, app_nil_r.
    - change (records_written (EvFetch 100 before msgs :: (call_event <$> calls)))
        with (records_written (call_event <$> calls)).
      rewrite records_written_calls. apply planned_calls_Permutation. }
  cbv zeta in Hpage_evs. destruct Hpage_evs as (Htr & Hf & Hr).
  destruct (decide _) as [Hold|Hold].
  - intros [= <- <-]. eexists. split; [exact Htr|]. rewrite Hf. split; [done|exact Hr].
  - intros Hret. destruct (IH _ _ _ Hret) as (evs & Htr' & Ht & Hr').
    exists ((EvFetch 100 before msgs :: (call_event <$> calls)) ++ evs).
    split; [by rewrite Htr', Htr, <- app_assoc|].
    rewrite fetched_app, records_written_app, Hf, filter_app, fmap_app, length_app.
    split; [lia|]. by rewrite Hr, Hr'.
Qed.

End Effects.

Lemma take_add_app {A} (l : list A) n k : take (n + k) l = take n l ++ take k (drop n l).
Proof.
  revert l. induction n as [|n IH]; intros l; [done|].
  destruct l as [|x l]; cbn; [by rewrite take_nil|]. by rewrite IH.
Qed.

Lemma filter_none {A} (P : A → Prop) `{∀ x, Decision (P x)} (l : list A) :
  (∀ x, x ∈ l → ¬ P x) → filter P l = [].
Proof.
  induction l as [|x l IH]; intros Hl; [done|].
  rewrite filter_cons, decide_False by (apply Hl, elem_of_cons; by left).
  apply IH. intros y Hy. apply Hl, elem_of_cons. by right.
Qed.

Section HistoryTraversal.
Context {rt : Runtime} (cfg : Config) (id : Snowflake) (name : option jsstring)
        (history : list Message).
Hypothesis history_newest_first : newest_first history.

(** After the messages [seen] the gateway answers with the next
    messages of the history. *)
Lemma history_fetch_suffix (seen remaining : list Message) limit :
  history = seen ++ remaining →
  history_fetch history limit (msg_id <$> last seen) = take limit remaining.
Proof.
  intros Hh. destruct (last seen) as [m|] eqn:Hlast.
  - cbn. unfold history_fetch.
    assert (Hm : history !! Init.Nat.pred (length seen) = Some m).
    { rewrite Hh, lookup_app_l; [by rewrite <- last_lookup|].
      destruct seen; [done|]. cbn. lia. }
    erewrite filter_older_drop; [|apply history_newest_first|exact Hm].
    f_equal. rewrite Hh.
    replace (S (Init.Nat.pred (length seen))) with (length seen)
      by (destruct seen; [done|]; cbn; lia).
    by rewrite drop_app_length.
  - apply last_None in Hlast. subst seen. cbn in Hh. subst remaining.
    cbn. unfold history_fetch. by rewrite filter_older_all.
Qed.

Lemma backfill_loop_history fuel (seen remaining : list Message) nm total w t w' :
  history = seen ++ remaining →
  backfill_loop fuel cfg (history_channel id name history) nm
    (msg_id <$> last seen) total w = Returned t w' →
  ∃ evs k, trace w' = trace w ++ evs
    ∧ fetched evs = take k remaining
    ∧ filter (in_window cfg) (drop k remaining) = [].
Proof.
  revert seen remaining total w. induction fuel as [|fuel IH];
    intros seen remaining total w Hh; [done|].
  rewrite backfill_loop_step. cbv zeta.
  change (ch_messages_fetch (history_channel id name history) 100 (msg_id <$> last seen))
    with (history_fetch history 100 (msg_id <$> last seen)).
  rewrite (history_fetch_suffix seen remaining 100 Hh).
  set (w1 := {| files := files w; dirs := dirs w; trace := _ |}).
  destruct (take 100 remaining) as [|first rest] eqn:Hpage.
  { intros [= <- <-]. exists [EvFetch 100 (msg_id <$> last seen) []], 0%nat.
    split; [done|]. split; [done|].
    destruct remaining; [done|discriminate]. }
  set (msgs := first :: rest) in *.
  destruct (writeMessages cfg (filter (in_window cfg) msgs) nm w1)
    as [[] w2|e w2|w2] eqn:E; [|done..].
  apply writeMessages_returned in E.
  set (calls := planned_calls cfg (filter (in_window cfg) msgs) nm) in *.
  set (evs1 := EvFetch 100 (msg_id <$> last seen) msgs :: (call_event <$> calls)).
  assert (Htr : trace w2 = trace w ++ evs1).
  { rewrite E. subst w1 evs1. cbn [trace]. by rewrite <- app_assoc. }
  assert (Hf : fetched evs1 = msgs).
  { subst evs1.
    change (fetched (EvFetch 100 (msg_id <$> last seen) msgs :: (call_event <$> calls)))
      with (msgs ++ fetched (call_event <$> calls)).
    by rewrite fetched_calls, app_nil_r. }
  assert (Hsorted : StronglySorted
            (λ a b, msg_createdTimestamp b ≤ msg_createdTimestamp a) remaining).
  { destruct history_newest_first as [_ Hts]. rewrite Hh in Hts.
    by apply StronglySorted_app_1_r in Hts. }
  assert (Hrem : remaining = msgs ++ drop 100 remaining).
  { subst msgs. rewrite <- Hpage. by rewrite take_drop. }
  assert (Holdest : last msgs = Some (oldest_of first rest)).
  { rewrite <- (oldest_in_last msgs); [done|].
    rewrite Hrem in Hsorted. by apply StronglySorted_app_1_l in Hsorted. }
  destruct (decide _) as [Hold|Hold].
  - intros [= <- <-]. exists evs1, 100%nat. split; [exact Htr|]. split; [by rewrite Hf|].
    apply filter_none. intros m Hm [Hstart _].
    assert (msg_createdTimestamp m ≤ msg_createdTimestamp (oldest_of first rest)); [|lia].
    rewrite Hrem in Hsorted.
    apply (StronglySorted_app_1_elem_of _ _ _ _ _ Hsorted); [|done].
    apply oldest_of_elem.
  - intros Hret.
    destruct (IH (seen ++ msgs) (drop 100 remaining) (total + length msgs)%nat w2)
      as (evs & k & Htr' & Hf' & Hnil).
    { rewrite Hh, <- app_assoc. by rewrite <- Hrem. }
    { rewrite last_app, Holdest. exact Hret. }
    exists (evs1 ++ evs), (100 + k)%nat. split; [by rewrite Htr', Htr, <- app_assoc|].
    split.
    + rewrite fetched_app, Hf, Hf', take_add_app. by rewrite Hpage.
    + by rewrite <- drop_drop.
Qed.

End HistoryTraversal.

Section EffectsOfARun.
Context {rt : Runtime}.

(** X1. Completeness for a channel whose history is listed newest
    first: when the traversal completes, the records handed to the
    writer are, each exactly once, the records of all messages of the
    history whose creation instant lies in the window. *)
Theorem backfill_exports_window cfg id name (history : list Message) fuel w t w' :
  newest_first history →
  backfill fuel cfg (history_channel id name history) w = Returned t w' →
  ∃ evs, trace w' = trace w ++ evs
    ∧ records_written evs ≡ₚ (λ m, toRecord m cfg) <$> filter (in_window cfg) history.
Proof.
  intros Hnf Hret. unfold backfill in Hret.
  destruct (backfill_loop_returned _ _ _ _ _ _ _ _ _ Hret) as (evs & Htr & _ & Hrec).
  destruct (backfill_loop_history cfg id name history Hnf _ [] history _ _ _ _ _ eq_refl Hret)
    as (evs' & k & Htr' & Hf & Hnil).
  assert (evs' = evs) as -> by (rewrite Htr in Htr'; by apply app_inv_head in Htr').
  exists evs. split; [done|]. rewrite Hrec, Hf.
  rewrite <- (take_drop k history) at 2. by rewrite filter_app, Hnil, app_nil_r.
Qed.

(** X2. The total a completed traversal returns (and logs) is the
    number of messages in the pages it fetched, whether or not they lie
    in the window. *)
Theorem backfill_total fuel cfg ch w t w' :
  backfill fuel cfg ch w = Returned t w' →
  ∃ evs, trace w' = trace w ++ evs ∧ t = length (fetched evs).
Proof.
  intros Hret. destruct (backfill_loop_returned _ _ _ _ _ _ _ _ _ Hret) as (evs & ? & ? & _).
  by exists evs.
Qed.

(** X3. For any gateway, a completed traversal hands to the writer
    exactly the records of the in-window messages of the pages it
    fetched, each once. *)
Theorem backfill_writes_fetched fuel cfg ch w t w' :
  backfill fuel cfg ch w = Returned t w' →
  ∃ evs, trace w' = trace w ++ evs
    ∧ records_written evs ≡ₚ (λ m, toRecord m cfg) <$> filter (in_window cfg) (fetched evs).
Proof.
  intros Hret. destruct (backfill_loop_returned _ _ _ _ _ _ _ _ _ Hret) as (evs & ? & _ & ?).
  by exists evs.
Qed.

(** X4. With a window that is empty or inverted ([end <= start]) no
    message qualifies: whatever the gateway returns, the traversal
    calls the writer for no path and leaves files and directories as
    they were. *)
Theorem backfill_empty_window fuel cfg ch w :
  getTime (cfg_end cfg) ≤ getTime (cfg_start cfg) →
  let w' := world_of (backfill fuel cfg ch w) in
  files w' = files w ∧ dirs w' = dirs w
  ∧ ∃ evs, trace w' = trace w ++ evs ∧ written_paths evs = [].
Proof.
  intros Hwindow. cbv zeta. unfold backfill.
  generalize (channelName_of ch) (@None Snowflake) 0%nat. intros nm before total.
  revert before total w. induction fuel as [|fuel IH]; intros before total w.
  { split; [done|]. split; [done|]. exists []. by rewrite app_nil_r. }
  rewrite backfill_loop_step. cbv zeta.
  destruct (ch_messages_fetch ch 100 before) as [|first rest] eqn:Hpage.
  { split; [done|]. split; [done|]. by exists [EvFetch 100 before []]. }
  rewrite (filter_none (in_window cfg) (first :: rest))
    by (intros m _ [? ?]; lia).
  cbn [writeMessages ret].
  destruct (decide _) as [Hold|Hold].
  - split; [done|]. split; [done|]. by exists [EvFetch 100 before (first :: rest)].
  - match goal with |- context [backfill_loop fuel cfg ch nm ?b ?t ?w0] =>
      destruct (IH b t w0) as (Hf & Hd & evs & Htr & Hp) end.
    split; [exact Hf|]. split; [exact Hd|].
    exists (EvFetch 100 before (first :: rest) :: evs). split; [|exact Hp].
    rewrite Htr. cbn [trace]. by rewrite <- app_assoc.
Qed.

End EffectsOfARun.

(* ===================================================================== *)
(** ** What a traversal leaves alone *)
(* ===================================================================== *)

Section Frame.
Context {rt : Runtime}.

Lemma extends_outside_refl paths w w' :
  files w' = files w → dirs w' = dirs w → extends_outside paths w w'.
Proof. intros Hf Hd. unfold extends_outside. rewrite Hf, Hd. done. Qed.

Lemma extends_outside_trans paths1 paths2 w1 w2 w3 :
  extends_outside paths1 w1 w2 → extends_outside paths2 w2 w3 →
  extends_outside (paths1 ++ paths2) w1 w3.
Proof.
  intros (Hf1 & Hd1 & Ho1) (Hf2 & Hd2 & Ho2). split; [set_solver|]. split; [set_solver|].
  intros q Hq. rewrite Ho2, Ho1; [done|..]; intros ?; apply Hq, elem_of_app; auto.
Qed.

Lemma writeJson_extends path records w :
  extends_outside [path] w (world_of (writeJson path records w)).
Proof.
  destruct records as [|r rs]; [by apply extends_outside_refl|].
  destruct (spread_elems (existing_value path w)) as [merged|] eqn:E.
  - erewrite writeJson_returns by done. cbn [world_of]. unfold written. split; [|split]; cbn.
    + rewrite dom_insert. set_solver.
    + set_solver.
    + intros q Hq. rewrite lookup_insert_ne; [done|]. intros ->. apply Hq. by left.
  - erewrite writeJson_throws by done. cbn [world_of]. split; [|split]; cbn; [done| |done].
    set_solver.
Qed.

(** The calls of [write_all] that were made, by their effect. *)
Lemma write_all_extends calls w :
  ∃ n, trace (world_of (write_all calls w)) = trace w ++ (call_event <$> take n calls)
       ∧ extends_outside (take n calls).*1 w (world_of (write_all calls w)).
Proof.
  revert w. induction calls as [|[p rs] calls IH]; intros w.
  - exists 0%nat. cbn. rewrite app_nil_r. split; [done|]. by apply extends_outside_refl.
  - unfold write_all. cbn [for_of]. unfold bind. cbn [fst snd].
    pose proof (writeJson_trace p rs w) as Ht.
    pose proof (writeJson_extends p rs w) as He.
    destruct (writeJson p rs w) as [[] w1|e w1|w1] eqn:E; cbn [world_of] in *.
    + destruct (IH w1) as (n & Hn & Hext). exists (S n). fold (write_all calls).
      split; [rewrite Hn, Ht; cbn; by rewrite <- app_assoc|].
      apply (extends_outside_trans [p] _ _ _ _ He Hext).
    + exists 1%nat. cbn [take fmap list_fmap]. rewrite take_0. cbn. split; [done|exact He].
    + exists 1%nat. cbn [take fmap list_fmap]. rewrite take_0. cbn. split; [done|exact He].
Qed.

Lemma planned_calls_paths cfg msgs name q :
  q ∈ (planned_calls cfg msgs name).*1 →
  ∃ m, m ∈ msgs ∧ q = partition_path cfg name (createdDate m).
Proof.
  unfold planned_calls. rewrite <- list_fmap_compose.
  intros (dt & -> & (m & Hm & <-)%elem_of_dates_of)%list_elem_of_fmap. by exists m.
Qed.

(** X5. Whatever its outcome, a traversal deletes no file and no
    directory, and changes no file other than the partition files of
    the creation dates of fetched messages that lie in the window. *)
Theorem backfill_frame fuel cfg ch w :
  let w' := world_of (backfill fuel cfg ch w) in
  ∃ evs, trace w' = trace w ++ evs
    ∧ dom (files w) ⊆ dom (files w') ∧ dirs w ⊆ dirs w'
    ∧ (∀ q, q ∉ written_paths evs → files w' !! q = files w !! q)
    ∧ ∀ q, q ∈ written_paths evs →
        ∃ m, m ∈ fetched evs ∧ in_window cfg m
             ∧ q = partition_path cfg (channelName_of ch) (createdDate m).
Proof.
  cbv zeta. unfold backfill.
  generalize (channelName_of ch) (@None Snowflake) 0%nat. intros nm before total.
  assert (Hgoal : ∀ w, ∃ evs,
    trace (world_of (backfill_loop fuel cfg ch nm before total w)) = trace w ++ evs
    ∧ extends_outside (written_paths evs) w
        (world_of (backfill_loop fuel cfg ch nm before total w))
    ∧ ∀ q, q ∈ written_paths evs →
        ∃ m, m ∈ fetched evs ∧ in_window cfg m
             ∧ q = partition_path cfg nm (createdDate m)).
  2:{ destruct (Hgoal w) as (evs & Htr & (? & ? & ?) & Hp). by exists evs. }
  revert before total. induction fuel as [|fuel IH]; intros before total w0.
  { exists []. cbn. rewrite app_nil_r. split; [done|].
    split; [by apply extends_outside_refl|]. by intros q ?%elem_of_nil. }
  rewrite backfill_loop_step. cbv zeta.
  set (w1 := {| files := files w0; dirs := dirs w0; trace := _ |}).
  destruct (ch_messages_fetch ch 100 before) as [|first rest] eqn:Hpage.
  { exists [EvFetch 100 before []]. split; [done|].
    split; [by apply extends_outside_refl|]. by intros q ?%elem_of_nil. }
  set (msgs := first :: rest) in *.
  rewrite writeMessages_write_all.
  set (calls := planned_calls cfg (filter (in_window cfg) msgs) nm).
  destruct (write_all_extends calls w1) as (n & Hn & Hext).
  set (evs1 := EvFetch 100 before msgs :: (call_event <$> take n calls)).
  assert (Hpaths1 : written_paths evs1 = (take n calls).*1).
  { subst evs1.
    change (written_paths (EvFetch 100 before msgs :: (call_event <$> take n calls)))
      with (written_paths (call_event <$> take n calls)).
    apply written_paths_calls. }
  assert (Hfetched1 : fetched evs1 = msgs).
  { subst evs1.
    change (fetched (EvFetch 100 before msgs :: (call_event <$> take n calls)))
      with (msgs ++ fetched (call_event <$> take n calls)).
    by rewrite fetched_calls, app_nil_r. }
  assert (Hin1 : ∀ q, q ∈ written_paths evs1 →
            ∃ m, m ∈ msgs ∧ in_window cfg m ∧ q = partition_path cfg nm (createdDate m)).
  { intros q Hq. rewrite Hpaths1 in Hq.
    assert (Hq' : q ∈ calls.*1).
    { rewrite fmap_take in Hq. by apply subseteq_take in Hq. }
    apply planned_calls_paths in Hq' as (m & [Hw Hm]%list_elem_of_filter & ->). by exists m. }
  assert (Hext1 : extends_outside (written_paths evs1) w0 (world_of (write_all calls w1))).
  { rewrite Hpaths1. exact Hext. }
  assert (Htr1 : trace (world_of (write_all calls w1)) = trace w0 ++ evs1).
  { rewrite Hn. subst w1 evs1. cbn [trace]. by rewrite <- app_assoc. }
  destruct (write_all calls w1) as [[] w2|e w2|w2] eqn:E; cbn [world_of] in *.
  - destruct (decide _) as [Hold|Hold].
    + exists evs1. cbn [world_of]. split; [done|]. split; [done|].
      rewrite Hfetched1. exact Hin1.
    + match goal with |- context [backfill_loop fuel cfg ch nm ?b ?t w2] =>
        destruct (IH b t w2) as (evs & Htr & Hext2 & Hin2) end.
      exists (evs1 ++ evs). split; [by rewrite Htr, Htr1, <- app_assoc|].
      rewrite written_paths_app, fetched_app, Hfetched1.
      split; [by eapply extends_outside_trans|].
      intros q [Hq|Hq]%elem_of_app.
      * destruct (Hin1 q Hq) as (m & ? & ? & ?). exists m. rewrite elem_of_app. auto.
      * destruct (Hin2 q Hq) as (m & ? & ? & ?). exists m. rewrite elem_of_app. auto.
  - exists evs1. split; [done|]. split; [done|]. rewrite Hfetched1. exact Hin1.
  - exists evs1. split; [done|]. split; [done|]. rewrite Hfetched1. exact Hin1.
Qed.

End Frame.

(* ===================================================================== *)
(** ** More on the partition writer *)
(* ===================================================================== *)

(** Iterating a string yields pieces of one or two code units that
    concatenate to the string. *)
Lemma code_points_concat s : mjoin (code_points s) = s.
Proof.
  assert (H : ∀ n s, (length s ≤ n)%nat → mjoin (code_points s) = s).
  { clear s. induction n as [|n IH]; intros [|c [|c' s]] Hlen; try done; cbn in Hlen; [lia|].
    change (code_points (c :: c' :: s))
      with (if is_high_surrogate c && is_low_surrogate c'
            then [c; c'] :: code_points s else [c] :: code_points (c' :: s)).
    destruct (is_high_surrogate c && is_low_surrogate c').
    - change (mjoin ([c; c'] :: code_points s)) with (c :: c' :: mjoin (code_points s)).
      do 2 f_equal. apply IH. lia.
    - change (mjoin ([c] :: code_points (c' :: s))) with (c :: mjoin (code_points (c' :: s))).
      f_equal. apply IH. cbn. lia. }
  by apply (H (length s)).
Qed.

Section MoreOnWriteJson.
Context {rt : Runtime}.

(** X6. When the existing file parses to a value that is neither an
    array nor a string (null, a boolean, a number, an object), writing a
    non-empty list throws a TypeError after the directory was created:
    no file is written or changed. *)
Theorem writeJson_not_iterable path records w text v :
  records ≠ [] →
  Bun_file_text path w = Some text →
  JSON_parse text = Some v →
  is_iterable v = false →
  ∃ w', writeJson path records w = Thrown TypeError_not_iterable w'
    ∧ files w' = files w
    ∧ dirname path ∈ dirs w'.
Proof.
  intros Hne Htext Hparse Hv. eexists. split; [|split].
  - apply writeJson_throws; [done|]. unfold existing_value. rewrite Htext. cbn.
    rewrite Hparse. by destruct v.
  - done.
  - cbn. apply elem_of_union_r, elem_of_list_to_set.
    destruct (length (dirname path)); cbn; [apply elem_of_cons; by left|].
    destruct (decide _); apply elem_of_cons; by left.
Qed.

(** X7. When the existing file parses to a JSON string, the write
    succeeds: the string is spread into its code points, which become
    the leading elements of the array, followed by the new records. *)
Theorem writeJson_string_file path records w text s :
  records ≠ [] →
  Bun_file_text path w = Some text →
  JSON_parse text = Some (JStr s) →
  ∃ w', writeJson path records w = Returned () w'
    ∧ text_at path w'
      = Some (JSON_stringify (JArr ((JStr <$> code_points s) ++ records)) 2)
    ∧ mjoin (code_points s) = s.
Proof.
  intros Hne Htext Hparse. eexists. split; [|split].
  - apply writeJson_returns; [done|]. unfold existing_value. rewrite Htext. cbn.
    by rewrite Hparse.
  - apply text_at_written.
  - apply code_points_concat.
Qed.

(** X8. Two writes in a row to a partition whose file is absent or
    readable, when [JSON.parse] reads back what the first one wrote,
    leave the same files and directories as one write of both lists:
    records accumulate, nothing is deduplicated. *)
Theorem writeJson_twice path records1 records2 w existing :
  records1 ≠ [] → records2 ≠ [] →
  (∀ f, files w !! path = Some f → file_readable f = true) →
  spread_elems (existing_value path w) = Some existing →
  JSON_parse (JSON_stringify (JArr (existing ++ records1)) 2)
    = Some (JArr (existing ++ records1)) →
  ∃ w1 w2 w12,
    writeJson path records1 w = Returned () w1
    ∧ writeJson path records2 w1 = Returned () w2
    ∧ writeJson path (records1 ++ records2) w = Returned () w12
    ∧ files w2 = files w12 ∧ dirs w2 = dirs w12
    ∧ text_at path w2
      = Some (JSON_stringify (JArr (existing ++ records1 ++ records2)) 2).
Proof.
  intros Hne1 Hne2 Hread Hsp Hrt.
  set (w1 := written path (JSON_stringify (JArr (existing ++ records1)) 2) records1 w).
  assert (Hreadable : match files w !! path with
                      | Some f => file_readable f
                      | None => true
                      end = true).
  { destruct (files w !! path) as [f|] eqn:E; [by apply Hread|done]. }
  assert (Hsp1 : spread_elems (existing_value path w1) = Some (existing ++ records1)).
  { unfold existing_value, Bun_file_text. subst w1. unfold written. cbn [files].
    rewrite lookup_insert_eq. cbn [file_readable file_text]. rewrite Hreadable. cbn.
    by rewrite Hrt. }
  exists w1, (written path (JSON_stringify (JArr ((existing ++ records1) ++ records2)) 2)
                records2 w1),
    (written path (JSON_stringify (JArr (existing ++ records1 ++ records2)) 2)
                (records1 ++ records2) w).
  split; [by apply writeJson_returns|].
  split; [by apply writeJson_returns|].
  split; [apply writeJson_returns; [by destruct records1|done]|].
  split; [|split].
  - subst w1. unfold written. cbn [files]. rewrite lookup_insert_eq. cbn [file_readable].
    by rewrite insert_insert_eq, <- app_assoc.
  - subst w1. unfold written. cbn [dirs]. by rewrite <- union_assoc_L, union_idemp_L.
  - rewrite text_at_written. by rewrite <- app_assoc.
Qed.

End MoreOnWriteJson.

(* ===================================================================== *)
(** ** Stability of the sort *)
(* ===================================================================== *)

Lemma sort_insert_stable {A} (key : A → Z) (k : Z) (a : A) (l : list A) :
  filter (λ x, key x = k) (sort_insert (λ a b, key a - key b) a l)
  = filter (λ x, key x = k) (a :: l).
Proof.
  induction l as [|b l IH]; [done|]. cbn [sort_insert].
  destruct (decide (key a - key b ≤ 0)) as [Hle|Hgt]; [done|].
  rewrite filter_cons, IH, !filter_cons.
  destruct (decide (key b = k)) as [Hb|Hb], (decide (key a = k)) as [Ha|Ha]; try done.
  lia.
Qed.

Lemma Array_sort_stable {A} (key : A → Z) (k : Z) (l : list A) :
  filter (λ x, key x = k) (Array_sort (λ a b, key a - key b) l)
  = filter (λ x, key x = k) l.
Proof.
  unfold Array_sort. induction l as [|a l IH]; [done|]. cbn [foldr].
  by rewrite sort_insert_stable, !filter_cons, IH.
Qed.

Lemma filter_comm {A} (P Q : A → Prop) `{∀ x, Decision (P x)} `{∀ x, Decision (Q x)}
    (l : list A) :
  filter P (filter Q l) = filter Q (filter P l).
Proof.
  induction l as [|x l IH]; [done|]. rewrite !filter_cons.
  destruct (decide (Q x)), (decide (P x)); rewrite ?filter_cons, ?decide_True, ?decide_False,
    ?IH by done; done.
Qed.

Section Stability.
Context {rt : Runtime}.

(** X9. The sort is stable: within a batch, the messages created in
    the same millisecond keep the order in which the page listed
    them. *)
Theorem day_batch_stable dt (msgs : list Message) t :
  filter (λ m, msg_createdTimestamp m = t) (day_batch dt msgs)
  = filter (λ m, msg_createdTimestamp m = t) (filter (λ m, createdDate m = dt) msgs).
Proof.
  unfold day_batch.
  rewrite filter_comm, (Array_sort_stable msg_createdTimestamp t msgs).
  apply filter_comm.
Qed.

End Stability.

(* ===================================================================== *)
(** ** Timestamps of the records *)
(* ===================================================================== *)

Lemma pad_3_ok : check_pad 3 1000 0 = true.
Proof. by_computation. Qed.

Lemma pad_4_ok : check_pad 4 (Z.to_nat 10000) 0 = true.
Proof. by_computation. Qed.

Lemma pad_3_spec n : 0 ≤ n < 1000 → pad_ok 3 n.
Proof. intros H. apply (check_pad_spec 3 1000 0); [exact pad_3_ok|lia]. Qed.

Lemma pad_4_spec n : 0 ≤ n < 10000 → pad_ok 4 n.
Proof. intros H. apply (check_pad_spec 4 (Z.to_nat 10000) 0); [exact pad_4_ok|lia]. Qed.

Lemma pad_inj width n n' : pad_ok width n → pad_ok width n' → pad width n = pad width n' → n = n'.
Proof. intros [_ H] [_ H'] Heq. by rewrite <- H, <- H', Heq. Qed.

(** A time value from its day and the fields of its time within the day. *)
Lemma time_fields t :
  t = Day t * msPerDay
      + (TimeWithinDay t `div` 3600000 * 3600000
         + (TimeWithinDay t `div` 60000) `mod` 60 * 60000
         + (TimeWithinDay t `div` 1000) `mod` 60 * 1000
         + TimeWithinDay t `mod` 1000).
Proof. unfold Day, TimeWithinDay, msPerDay. Z.div_mod_to_equations. lia. Qed.

Lemma time_fields_bounds t :
  0 ≤ TimeWithinDay t `div` 3600000 < 100
  ∧ 0 ≤ (TimeWithinDay t `div` 60000) `mod` 60 < 100
  ∧ 0 ≤ (TimeWithinDay t `div` 1000) `mod` 60 < 100
  ∧ 0 ≤ TimeWithinDay t `mod` 1000 < 1000.
Proof. unfold TimeWithinDay, msPerDay. Z.div_mod_to_equations. lia. Qed.

Lemma YearFromTime_eq t : YearFromTime t = (civil_from_days (Day t)).1.1.
Proof. reflexivity. Qed.

Lemma toISOString_fields (d : Date) :
  0 ≤ YearFromTime (getTime d) ≤ 9999 →
  toISOString d =
    let t := getTime d in
    let date := civil_from_days (Day t) in
    let tod := TimeWithinDay t in
    pad 4 date.1.1 ++ js "-" ++ pad 2 date.1.2 ++ js "-" ++ pad 2 date.2
    ++ js "T" ++ pad 2 (tod `div` 3600000) ++ js ":" ++ pad 2 ((tod `div` 60000) `mod` 60)
    ++ js ":" ++ pad 2 ((tod `div` 1000) `mod` 60) ++ js "." ++ pad 3 (tod `mod` 1000)
    ++ js "Z".
Proof.
  intros Hy. unfold toISOString. cbv zeta. rewrite decide_True by done.
  unfold YearFromTime, MonthFromTime, DateFromTime.
  by replace ((civil_from_days (Day (getTime d))).1.2 - 1 + 1)
    with (civil_from_days (Day (getTime d))).1.2 by lia.
Qed.

Lemma iso_text_inj (y m d h mi s ms y' m' d' h' mi' s' ms' : Z) :
  pad_ok 4 y → pad_ok 2 m → pad_ok 2 d → pad_ok 2 h → pad_ok 2 mi → pad_ok 2 s → pad_ok 3 ms →
  pad_ok 4 y' → pad_ok 2 m' → pad_ok 2 d' → pad_ok 2 h' → pad_ok 2 mi' → pad_ok 2 s' → pad_ok 3 ms' →
  pad 4 y ++ js "-" ++ pad 2 m ++ js "-" ++ pad 2 d
    ++ js "T" ++ pad 2 h ++ js ":" ++ pad 2 mi ++ js ":" ++ pad 2 s ++ js "." ++ pad 3 ms ++ js "Z"
  = pad 4 y' ++ js "-" ++ pad 2 m' ++ js "-" ++ pad 2 d'
    ++ js "T" ++ pad 2 h' ++ js ":" ++ pad 2 mi' ++ js ":" ++ pad 2 s' ++ js "." ++ pad 3 ms' ++ js "Z" →
  y = y' ∧ m = m' ∧ d = d' ∧ h = h' ∧ mi = mi' ∧ s = s' ∧ ms = ms'.
Proof.
  intros Hy Hm Hd Hh Hmi Hs Hms Hy' Hm' Hd' Hh' Hmi' Hs' Hms' Heq.
  change (js "-") with [45%N] in Heq. change (js "T") with [84%N] in Heq.
  change (js ":") with [58%N] in Heq. change (js ".") with [46%N] in Heq.
  cbn [app] in Heq.
  apply app_inj_1 in Heq as [E1 Heq]; [|by rewrite (proj1 Hy), (proj1 Hy')].
  injection Heq as Heq.
  apply app_inj_1 in Heq as [E2 Heq]; [|by rewrite (proj1 Hm), (proj1 Hm')].
  injection Heq as Heq.
  apply app_inj_1 in Heq as [E3 Heq]; [|by rewrite (proj1 Hd), (proj1 Hd')].
  injection Heq as Heq.
  apply app_inj_1 in Heq as [E4 Heq]; [|by rewrite (proj1 Hh), (proj1 Hh')].
  injection Heq as Heq.
  apply app_inj_1 in Heq as [E5 Heq]; [|by rewrite (proj1 Hmi), (proj1 Hmi')].
  injection Heq as Heq.
  apply app_inj_1 in Heq as [E6 Heq]; [|by rewrite (proj1 Hs), (proj1 Hs')].
  injection Heq as Heq.
  apply app_inj_1 in Heq as [E7 Heq]; [|by rewrite (proj1 Hms), (proj1 Hms')].
  repeat split; by eapply pad_inj.
Qed.

Lemma iso_text_length (y m d h mi s ms : Z) :
  pad_ok 4 y → pad_ok 2 m → pad_ok 2 d → pad_ok 2 h → pad_ok 2 mi → pad_ok 2 s → pad_ok 3 ms →
  length (pad 4 y ++ js "-" ++ pad 2 m ++ js "-" ++ pad 2 d
    ++ js "T" ++ pad 2 h ++ js ":" ++ pad 2 mi ++ js ":" ++ pad 2 s ++ js "." ++ pad 3 ms ++ js "Z")
  = 24%nat.
Proof.
  intros [Hy _] [Hm _] [Hd _] [Hh _] [Hmi _] [Hs _] [Hms _].
  rewrite !length_app, Hy, Hm, Hd, Hh, Hmi, Hs, Hms. done.
Qed.

Lemma triple_eq (a b : Z * Z * Z) :
  a.1.1 = b.1.1 → a.1.2 = b.1.2 → a.2 = b.2 → a = b.
Proof. destruct a as [[??]?], b as [[??]?]. cbn. congruence. Qed.

Lemma time_eq t t' :
  Day t = Day t' →
  TimeWithinDay t `div` 3600000 = TimeWithinDay t' `div` 3600000 →
  (TimeWithinDay t `div` 60000) `mod` 60 = (TimeWithinDay t' `div` 60000) `mod` 60 →
  (TimeWithinDay t `div` 1000) `mod` 60 = (TimeWithinDay t' `div` 1000) `mod` 60 →
  TimeWithinDay t `mod` 1000 = TimeWithinDay t' `mod` 1000 →
  t = t'.
Proof.
  intros E1 E2 E3 E4 E5. rewrite (time_fields t), (time_fields t').
  by rewrite E1, E2, E3, E4, E5.
Qed.

Lemma toISOString_padded (d : Date) :
  0 ≤ YearFromTime (getTime d) ≤ 9999 →
  let t := getTime d in
  let date := civil_from_days (Day t) in
  let tod := TimeWithinDay t in
  pad_ok 4 date.1.1 ∧ pad_ok 2 date.1.2 ∧ pad_ok 2 date.2
  ∧ pad_ok 2 (tod `div` 3600000) ∧ pad_ok 2 ((tod `div` 60000) `mod` 60)
  ∧ pad_ok 2 ((tod `div` 1000) `mod` 60) ∧ pad_ok 3 (tod `mod` 1000).
Proof.
  intros Hy. cbv zeta. rewrite YearFromTime_eq in Hy.
  destruct (civil_from_days_bounds (Day (getTime d))) as [Hm Hd].
  destruct (time_fields_bounds (getTime d)) as (Hh & Hmi & Hs & Hms).
  assert (∀ n, 0 ≤ n ≤ 9999 → pad_ok 4 n) as Hyear by (intros; apply pad_4_spec; lia).
  assert (∀ n, 1 ≤ n ≤ 12 → pad_ok 2 n) as Hmonth by (intros; apply pad_2_spec; lia).
  assert (∀ n, 1 ≤ n ≤ 31 → pad_ok 2 n) as Hday by (intros; apply pad_2_spec; lia).
  split; [by apply Hyear|]. split; [by apply Hmonth|]. split; [by apply Hday|].
  do 3 (split; [by apply pad_2_spec|]). by apply pad_3_spec.
Qed.

(** X11. [toISOString] of a date in the years 0 to 9999, as the record
    mapper calls it for [created_at] and [edited_at], is 24 code units
    long and determines the time value to the millisecond. *)
Theorem toISOString_inj (d d' : Date) :
  0 ≤ YearFromTime (getTime d) ≤ 9999 →
  0 ≤ YearFromTime (getTime d') ≤ 9999 →
  length (toISOString d) = 24%nat
  ∧ (toISOString d = toISOString d' → d = d').
Proof.
  intros Hy Hy'. rewrite !toISOString_fields by done.
  destruct (toISOString_padded d Hy) as (P1 & P2 & P3 & P4 & P5 & P6 & P7).
  destruct (toISOString_padded d' Hy') as (P1' & P2' & P3' & P4' & P5' & P6' & P7').
  split; [by apply iso_text_length|].
  intros Heq. apply iso_text_inj in Heq; [|done..].
  destruct Heq as (Ey & Em & Ed & Eh & Emi & Es & Ems).
  destruct d as [t], d' as [t']. f_equal.
  apply time_eq; [|done..].
  apply civil_from_days_inj. by apply triple_eq.
Qed.

(* ===================================================================== *)
(** ** The first revision's partition key *)
(* ===================================================================== *)

Lemma utcDate_fields (d : Date) :
  0 ≤ YearFromTime (getTime d) ≤ 9999 →
  utcDate d =
    let date := civil_from_days (Day (getTime d)) in
    pad 4 date.1.1 ++ js "-" ++ pad 2 date.1.2 ++ js "-" ++ pad 2 date.2.
Proof.
  intros Hy. unfold utcDate. rewrite toISOString_fields by done.
  destruct (toISOString_padded d Hy) as ([P1 _] & [P2 _] & [P3 _] & _).
  cbv zeta in *. rewrite !(app_assoc _ _ (js "T" ++ _)).
  rewrite <- !(app_assoc (pad 4 _)), <- !(app_assoc (js "-")), <- !(app_assoc (pad 2 _)).
  rewrite (app_assoc (pad 2 _)), (app_assoc (js "-")), (app_assoc (pad 2 _)),
    (app_assoc (js "-")), (app_assoc (pad 4 _)).
  rewrite take_app_length'; [by rewrite <- !app_assoc|].
  rewrite !length_app, P1, P2, P3. done.
Qed.

Lemma iso_date_inj (y m d y' m' d' : Z) :
  pad_ok 4 y → pad_ok 2 m → pad_ok 2 d → pad_ok 4 y' → pad_ok 2 m' → pad_ok 2 d' →
  pad 4 y ++ js "-" ++ pad 2 m ++ js "-" ++ pad 2 d
  = pad 4 y' ++ js "-" ++ pad 2 m' ++ js "-" ++ pad 2 d' →
  y = y' ∧ m = m' ∧ d = d'.
Proof.
  intros P1 P2 P3 P1' P2' P3'. change (js "-") with [45%N]. cbn [app]. intros Heq.
  apply app_inj_1 in Heq as [E1 Heq]; [|by rewrite (proj1 P1), (proj1 P1')].
  injection Heq as Heq.
  apply app_inj_1 in Heq as [E2 Heq]; [|by rewrite (proj1 P2), (proj1 P2')].
  injection Heq as Heq.
  repeat split; by eapply pad_inj.
Qed.

(** X12. In the years 0 to 9999 the first revision's partition key
    tells the UTC calendar days apart. *)
Theorem utcDate_same_day_iff (d d' : Date) :
  0 ≤ YearFromTime (getTime d) ≤ 9999 →
  0 ≤ YearFromTime (getTime d') ≤ 9999 →
  utcDate d = utcDate d' ↔ Day (getTime d) = Day (getTime d').
Proof.
  intros Hy Hy'. split.
  - rewrite !utcDate_fields by done. cbv zeta.
    destruct (toISOString_padded d Hy) as (P1 & P2 & P3 & _).
    destruct (toISOString_padded d' Hy') as (P1' & P2' & P3' & _).
    cbv zeta in *. intros Heq.
    apply iso_date_inj in Heq as (E1 & E2 & E3); [|done..].
    by apply civil_from_days_inj, triple_eq.
  - intros Heq. rewrite !utcDate_fields by done. cbv zeta. by rewrite Heq.
Qed.

(* ===================================================================== *)
(** ** The configuration *)
(* ===================================================================== *)

Section ConfigResolution.
Variable Date_parse : jsstring → option Z.

(** X13. A configuration that [parseConfig] returns has a non-empty
    token and a non-empty channel; the token is the [--token] flag when
    that is given and [DISCORD_TOKEN] only when it is not; the bounds of
    the window are the time values of the non-empty [--start] and
    [--end]. *)
Theorem parseConfig_returned values DISCORD_TOKEN cfg :
  parseConfig Date_parse values DISCORD_TOKEN = inr cfg →
  cfg_token cfg ≠ [] ∧ cfg_channel cfg ≠ []
  ∧ values_channel values = Some (cfg_channel cfg)
  ∧ (values_token values = Some (cfg_token cfg)
     ∨ values_token values = None ∧ DISCORD_TOKEN = Some (cfg_token cfg))
  ∧ (∃ start end_, start ≠ [] ∧ end_ ≠ []
       ∧ values_start values = Some start ∧ values_end values = Some end_
       ∧ Date_parse start = Some (getTime (cfg_start cfg))
       ∧ Date_parse end_ = Some (getTime (cfg_end cfg)))
  ∧ cfg_outDir cfg = values_out values
  ∧ cfg_redactContent cfg = default false (values_redactContent values).
Proof.
  unfold parseConfig, parseDate.
  destruct (values_channel values) as [[|c channel]|]; [done| |done].
  destruct (values_start values) as [[|s start]|]; [done| |done].
  destruct (values_end values) as [[|e end_]|]; [done| |done].
  destruct (Date_parse (s :: start)) as [ts|] eqn:Hs;
    destruct (Date_parse (e :: end_)) as [te|] eqn:He;
    destruct (values_token values) as [[|t token]|]; try done;
    try (destruct DISCORD_TOKEN as [[|t token]|]; try done);
    intros [= <-]; cbn; (repeat split; try done);
    try (by left); try (by right);
    by exists (s :: start), (e :: end_).
Qed.

(** X14. An empty [--token] is not replaced by the environment
    variable: [parseConfig] throws whatever [DISCORD_TOKEN] holds. *)
Theorem parseConfig_empty_token_flag values DISCORD_TOKEN :
  values_token values = Some [] →
  ∃ message, parseConfig Date_parse values DISCORD_TOKEN = inl message.
Proof.
  intros Htoken. unfold parseConfig. rewrite Htoken.
  destruct (values_channel values) as [[|c channel]|]; [by eexists| |by eexists].
  destruct (values_start values) as [[|s start]|]; [by eexists| |by eexists].
  destruct (values_end values) as [[|e end_]|]; by eexists.
Qed.

(** X15. [parseConfig] does not compare the bounds: when a command
    line is accepted, so is the one with [--start] and [--end]
    exchanged, and the configuration is the same with its bounds
    exchanged. *)
Theorem parseConfig_bounds_unordered values DISCORD_TOKEN cfg :
  parseConfig Date_parse values DISCORD_TOKEN = inr cfg →
  parseConfig Date_parse (exchange_bounds values) DISCORD_TOKEN =
    inr {| cfg_token := cfg_token cfg; cfg_channel := cfg_channel cfg;
           cfg_outDir := cfg_outDir cfg;
           cfg_start := cfg_end cfg; cfg_end := cfg_start cfg;
           cfg_redactContent := cfg_redactContent cfg |}.
Proof.
  unfold parseConfig, parseDate, exchange_bounds. cbn.
  destruct (values_channel values) as [[|c channel]|]; [done| |done].
  destruct (values_start values) as [[|s start]|]; [done| |done].
  destruct (values_end values) as [[|e end_]|]; [done| |done].
  destruct (match values_token values with Some t => Some t | None => DISCORD_TOKEN end)
    as [[|t token]|]; [done| |done].
  destruct (Date_parse (s :: start)) as [ts|]; [|done].
  destruct (Date_parse (e :: end_)) as [te|]; [|done].
  by intros [= <-].
Qed.

End ConfigResolution.

(* ===================================================================== *)
(** ** The first revision's writer *)
(* ===================================================================== *)

Lemma join_with_lines (sep : jsstring) (parts : list jsstring) :
  parts ≠ [] → Reference.join_with sep parts ++ sep = mjoin ((λ p, p ++ sep) <$> parts).
Proof.
  destruct parts as [|p parts]; [done|]. intros _. cbn. rewrite <- !app_assoc. f_equal.
  induction parts as [|q parts IH]; cbn; [by rewrite app_nil_r|].
  rewrite <- !app_assoc. f_equal. f_equal. apply IH.
Qed.

Section NdjsonAppend.
Context {rt : Runtime}.

Lemma appendNdjson_lines path records :
  records ≠ [] →
  appendNdjson path records =
    (mkdir_recursive (dirname path) ;; appendFile path (ndjson_lines records)).
Proof.
  intros Hne. destruct records as [|r records]; [done|].
  unfold appendNdjson, ndjson_lines.
  rewrite join_with_lines by done. by rewrite <- list_fmap_compose.
Qed.

(** X16. Appending two lists of records in a row is appending their
    concatenation, whether or not one of them is empty and whatever the
    file held: the writer of the first revision never reads the file
    and never throws. *)
Theorem appendNdjson_app path records1 records2 w :
  (appendNdjson path records1 ;; appendNdjson path records2) w
  = appendNdjson path (records1 ++ records2) w.
Proof.
  destruct records1 as [|r1 records1]; [done|].
  destruct records2 as [|r2 records2]; [by rewrite app_nil_r; unfold bind; cbn|].
  rewrite !appendNdjson_lines by done.
  unfold bind, mkdir_recursive, appendFile. cbn [files dirs trace].
  rewrite lookup_insert_eq. cbn [file_text file_readable].
  rewrite insert_insert_eq. rewrite <- union_assoc_L, union_idemp_L.
  unfold ndjson_lines. rewrite fmap_app, join_app.
  by rewrite <- app_assoc.
Qed.

End NdjsonAppend.

(* ===================================================================== *)
(** ** The theorems at work on the example data *)
(* ===================================================================== *)

Lemma sanitizeChannelName_idempotent_witness :
  sanitizeChannelName (rt := Reference.runtime)
    (sanitizeChannelName (rt := Reference.runtime) (js "General Chat"))
  = sanitizeChannelName (rt := Reference.runtime) (js "General Chat").
Proof. apply (sanitizeChannelName_idempotent Reference_lower_laws). Defined.


Lemma writeMessages_partitions_witness :
  trace (world_of (writeMessages (rt := Reference.runtime) Example.cfg
                     Example.small_history (js "General Chat") Example.empty_world))
  = trace Example.empty_world
    ++ ((λ dt, EvWriteJson
                 (join (Runtime := Reference.runtime)
                    [cfg_outDir Example.cfg;
                     sanitizeChannelName (rt := Reference.runtime) (js "General Chat");
                     dt; js "messages.json"])
                 ((λ m, toRecord m Example.cfg)
                    <$> day_batch (rt := Reference.runtime) dt Example.small_history))
          <$> dates_of (rt := Reference.runtime) Example.small_history).
Proof.
  pose proof (writeMessages_partitions (rt := Reference.runtime) Example.cfg
                Example.small_history (js "General Chat") Example.empty_world) as H.
  cbv zeta in H. destruct H as (_ & _ & _ & _ & _ & _ & _ & _ & H & _).
  apply H. by_computation.
Defined.

Lemma backfill_window_witness :
  ∃ m, toRecord (Example.message (Example.time_of 0) 1) Example.cfg = toRecord m Example.cfg
       ∧ getTime (cfg_start Example.cfg) ≤ msg_createdTimestamp m
           < getTime (cfg_end Example.cfg).
Proof.
  destruct (backfill_window (rt := Reference.runtime) 5 Example.cfg Example.small
              Example.empty_world) as (evs & Hevs & H).
  destruct (H Example.path1 [toRecord (Example.message (Example.time_of 0) 1) Example.cfg]
              (toRecord (Example.message (Example.time_of 0) 1) Example.cfg))
    as (m & _ & _ & _ & Hm & Hwin & _).
  - change (trace Example.empty_world ++ evs) with evs in Hevs. rewrite <- Hevs.
    apply (list_elem_of_lookup_2 _ 1%nat). vm_compute. reflexivity.
  - apply list_elem_of_singleton. reflexivity.
  - exists m. split; [exact Hm | exact Hwin].
Defined.

Lemma backfill_two_days_witness :
  let ch := Example.general in
  let page1 := take 100 Example.history in
  let page2 := drop 100 Example.history in
  let path := partition_path (rt := Reference.runtime) Example.cfg (channelName_of ch) in
  let records := fmap (M := list) (λ m, toRecord m Example.cfg) in
  ∃ w', backfill (rt := Reference.runtime) 3 Example.cfg ch Example.empty_world
        = Returned 150%nat w'
    ∧ fetch_count (trace w') = (fetch_count (trace Example.empty_world) + 3)%nat
    ∧ dom (files w') = {[path Example.day1; path Example.day2]}
    ∧ ∀ d, d = Example.day1 ∨ d = Example.day2 →
        text_at (path d) w'
        = Some (Reference.JSON_stringify
                  (JArr (records (day_batch (rt := Reference.runtime) d page1
                                  ++ day_batch (rt := Reference.runtime) d page2))) 2)
        ∧ StronglySorted by_createdTimestamp (day_batch (rt := Reference.runtime) d page1)
        ∧ StronglySorted by_createdTimestamp (day_batch (rt := Reference.runtime) d page2)
        ∧ day_batch (rt := Reference.runtime) d page1
            ++ day_batch (rt := Reference.runtime) d page2
          ≡ₚ filter (λ m, createdDate (rt := Reference.runtime) m = d) Example.history.
Proof.
  intros ch page1 page2 path records.
  apply (backfill_two_days (rt := Reference.runtime) Example.cfg
           (js "123456789012345678") (Some (js "General Chat")) Example.history
           Example.day1 Example.day2 Example.empty_world 3).
  - by_computation.
  - split; decide_by_computation.
  - decide_by_computation.
  - decide_by_computation.
  - decide_by_computation.
  - decide_by_computation.
  - decide_by_computation.
  - intros d [-> | ->] _ _; by_computation.
  - reflexivity.
  - lia.
Defined.

(** C7 as stated fails on this channel: 75 messages on each day, window
    covering both.  The traversal makes three fetches, not two, and the
    file of the first day holds messages 50..74 (from the first page)
    before messages 0..49 (from the second page), although message 0 is
    older than message 50. *)
Lemma backfill_150_counterexample :
  let w' := world_of (backfill (rt := Reference.runtime) 10 Example.cfg Example.general
                        Example.empty_world) in
  length Example.history = 150%nat
  ∧ Forall (in_window Example.cfg) Example.history
  ∧ fetch_count (trace w') = 3%nat
  ∧ fetch_count (trace w') ≠ 2%nat
  ∧ Example.ids_in_file Example.path1 w'
    = (λ i, Example.snowflake (Example.time_of i) i) <$> (seqZ 50 25 ++ seqZ 0 50)
  ∧ Example.time_of 0 < Example.time_of 50.
Proof.
  intros w'. subst w'.
  split; [by_computation|]. split; [decide_by_computation|].
  split; [by_computation|]. split; [decide_by_computation|].
  split; [by_computation|]. reflexivity.
Qed.

(* ===================================================================== *)
(** ** The further properties at work on the example data *)
(* ===================================================================== *)

Lemma backfill_exports_window_witness :
  ∃ evs,
    trace (world_of (backfill (rt := Reference.runtime) 5 Example.cfg Example.small
                       Example.empty_world))
    = trace Example.empty_world ++ evs
    ∧ records_written evs
      ≡ₚ (λ m, toRecord m Example.cfg) <$> filter (in_window Example.cfg) Example.small_history.
Proof.
  apply (backfill_exports_window (rt := Reference.runtime) Example.cfg
           (js "123456789012345678") (Some (js "General Chat")) Example.small_history
           5 Example.empty_world 3%nat).
  - split; decide_by_computation.
  - by_computation.
Defined.

Lemma backfill_total_witness :
  ∃ evs,
    trace (world_of (backfill (rt := Reference.runtime) 2 Example.cfg Example.small
                       Example.empty_world))
    = trace Example.empty_world ++ evs
    ∧ 3%nat = length (fetched evs).
Proof.
  apply (backfill_total (rt := Reference.runtime) 2 Example.cfg Example.small
           Example.empty_world 3%nat).
  by_computation.
Defined.

Lemma backfill_writes_fetched_witness :
  ∃ evs,
    trace (world_of (backfill (rt := Reference.runtime) 5 Example.cfg_redacted Example.small
                       Example.empty_world))
    = trace Example.empty_world ++ evs
    ∧ records_written evs
      ≡ₚ (λ m, toRecord m Example.cfg_redacted)
           <$> filter (in_window Example.cfg_redacted) (fetched evs).
Proof.
  apply (backfill_writes_fetched (rt := Reference.runtime) 5 Example.cfg_redacted
           Example.small Example.empty_world 3%nat).
  by_computation.
Defined.

Lemma backfill_empty_window_witness :
  let w' := world_of (backfill (rt := Reference.runtime) 5 Samples.cfg_inverted
                        Example.general Example.empty_world) in
  files w' = files Example.empty_world ∧ dirs w' = dirs Example.empty_world
  ∧ ∃ evs, trace w' = trace Example.empty_world ++ evs ∧ written_paths evs = [].
Proof.
  apply (backfill_empty_window (rt := Reference.runtime) 5 Samples.cfg_inverted
           Example.general Example.empty_world).
  simpl. unfold Example.window_start, Example.window_end. lia.
Defined.

Lemma backfill_frame_witness :
  let w' := world_of (backfill (rt := Reference.runtime) 5 Example.cfg Example.small
                        Samples.world_with_notes) in
  files w' !! Samples.notes = files Samples.world_with_notes !! Samples.notes
  ∧ ∃ m, in_window Example.cfg m
      ∧ js "lake/general-chat/2026-01-01/messages.json"
        = partition_path (rt := Reference.runtime) Example.cfg
            (channelName_of Example.small) (createdDate (rt := Reference.runtime) m).
Proof.
  intros w'.
  destruct (backfill_frame (rt := Reference.runtime) 5 Example.cfg Example.small
              Samples.world_with_notes) as (evs & Hevs & _ & _ & Hout & Hin).
  fold w' in Hevs, Hout, Hin.
  change (trace Samples.world_with_notes ++ evs) with evs in Hevs. subst evs. split.
  - apply Hout. decide_by_computation.
  - destruct (Hin (js "lake/general-chat/2026-01-01/messages.json")) as (m & _ & Hwin & Hq).
    + decide_by_computation.
    + by exists m.
Defined.

Lemma writeJson_not_iterable_witness :
  ∃ w', writeJson (rt := Reference.runtime) Example.path1 [JInt 1]
          (Example.world_with (js "{}"))
        = Thrown TypeError_not_iterable w'
    ∧ files w' = files (Example.world_with (js "{}"))
    ∧ dirname (Runtime := Reference.runtime) Example.path1 ∈ dirs w'.
Proof.
  apply (writeJson_not_iterable (rt := Reference.runtime) Example.path1 [JInt 1]
           (Example.world_with (js "{}")) (js "{}") (JObj [])).
  - discriminate.
  - by_computation.
  - by_computation.
  - reflexivity.
Defined.

Lemma writeJson_string_file_witness :
  ∃ w', writeJson (rt := Reference.runtime) Example.path1 [JInt 1]
          (Example.world_with Samples.string_file_text)
        = Returned () w'
    ∧ text_at Example.path1 w'
      = Some (JSON_stringify (Runtime := Reference.runtime)
                (JArr ((JStr <$> code_points (js "ab")) ++ [JInt 1])) 2)
    ∧ mjoin (code_points (js "ab")) = js "ab".
Proof.
  apply (writeJson_string_file (rt := Reference.runtime) Example.path1 [JInt 1]
           (Example.world_with Samples.string_file_text) Samples.string_file_text (js "ab")).
  - discriminate.
  - by_computation.
  - by_computation.
Defined.

Lemma writeJson_twice_witness :
  ∃ w1 w2 w12,
    writeJson (rt := Reference.runtime) Example.path1 [JInt 3]
      (Example.world_with (js "[1, 2]")) = Returned () w1
    ∧ writeJson (rt := Reference.runtime) Example.path1 [JInt 4] w1 = Returned () w2
    ∧ writeJson (rt := Reference.runtime) Example.path1 ([JInt 3] ++ [JInt 4])
        (Example.world_with (js "[1, 2]")) = Returned () w12
    ∧ files w2 = files w12 ∧ dirs w2 = dirs w12
    ∧ text_at Example.path1 w2
      = Some (JSON_stringify (Runtime := Reference.runtime)
                (JArr ([JInt 1; JInt 2] ++ [JInt 3] ++ [JInt 4])) 2).
Proof.
  apply (writeJson_twice (rt := Reference.runtime) Example.path1 [JInt 3] [JInt 4]
           (Example.world_with (js "[1, 2]")) [JInt 1; JInt 2]).
  - discriminate.
  - discriminate.
  - intros f Hf. unfold Example.world_with in Hf. cbn [files] in Hf.
    rewrite lookup_singleton_eq in Hf. by injection Hf as <-.
  - by_computation.
  - by_computation.
Defined.

Lemma toISOString_inj_witness :
  length (toISOString (new_Date Example.window_start)) = 24%nat
  ∧ (toISOString (new_Date Example.window_start) = toISOString (new_Date Example.window_end) →
     new_Date Example.window_start = new_Date Example.window_end).
Proof.
  apply (toISOString_inj (new_Date Example.window_start) (new_Date Example.window_end));
    decide_by_computation.
Defined.

Lemma utcDate_same_day_iff_witness :
  utcDate (new_Date Example.window_start) = utcDate (new_Date (Example.time_of 0))
  ↔ Day (getTime (new_Date Example.window_start))
    = Day (getTime (new_Date (Example.time_of 0))).
Proof.
  apply (utcDate_same_day_iff (new_Date Example.window_start)
           (new_Date (Example.time_of 0)));
    decide_by_computation.
Defined.

Lemma parseConfig_returned_witness :
  cfg_token Example.cfg ≠ [] ∧ cfg_channel Example.cfg ≠ []
  ∧ values_channel Samples.values = Some (cfg_channel Example.cfg)
  ∧ (values_token Samples.values = Some (cfg_token Example.cfg)
     ∨ values_token Samples.values = None ∧ Some (js "token") = Some (cfg_token Example.cfg))
  ∧ (∃ start end_, start ≠ [] ∧ end_ ≠ []
       ∧ values_start Samples.values = Some start ∧ values_end Samples.values = Some end_
       ∧ Samples.Date_parse start = Some (getTime (cfg_start Example.cfg))
       ∧ Samples.Date_parse end_ = Some (getTime (cfg_end Example.cfg)))
  ∧ cfg_outDir Example.cfg = values_out Samples.values
  ∧ cfg_redactContent Example.cfg = default false (values_redactContent Samples.values).
Proof.
  apply (parseConfig_returned Samples.Date_parse Samples.values (Some (js "token")) Example.cfg).
  by_computation.
Defined.

Lemma parseConfig_empty_token_flag_witness :
  ∃ message,
    parseConfig Samples.Date_parse Samples.values_empty_token (Some (js "token")) = inl message.
Proof.
  apply (parseConfig_empty_token_flag Samples.Date_parse Samples.values_empty_token
           (Some (js "token"))).
  reflexivity.
Defined.

Lemma parseConfig_bounds_unordered_witness :
  parseConfig Samples.Date_parse (exchange_bounds Samples.values) (Some (js "token"))
  = inr {| cfg_token := cfg_token Example.cfg; cfg_channel := cfg_channel Example.cfg;
           cfg_outDir := cfg_outDir Example.cfg;
           cfg_start := cfg_end Example.cfg; cfg_end := cfg_start Example.cfg;
           cfg_redactContent := cfg_redactContent Example.cfg |}.
Proof.
  apply (parseConfig_bounds_unordered Samples.Date_parse Samples.values (Some (js "token"))
           Example.cfg).
  by_computation.
Defined.
